(** * Chat-Connect: URL ids, session cookies, the MCP settings form and the
      MCP host integration layer

    A shallow embedding of [frontend/src/utils/urlEncryption.ts],
    [frontend/src/utils/cookies.ts], the session hook
    [frontend/src/hooks/useSession.ts], the middleware and the settings page
    of the frontend, together with models of the host integration layer
    (confirmation broker, OAuth token manager, transport connector with
    fallback).

    Source strings are modelled by [string] (code units below 256), source
    integers by [Z]; a 32-bit integer is a [Z] with its wrap-around written
    out by [to_int32]. *)

From Stdlib Require Import ZArith Lia Bool List Ascii String DecimalString DecimalPos.
From stdpp Require Import base option list gmap strings.

Local Open Scope string_scope.
Local Open Scope Z_scope.

(** ** Results of code that may loop *)

(** A loop of the source is run with a bound on its iterations; [OutOfFuel]
    is reported only when that bound is reached with the loop still running. *)
Inductive run (A : Type) : Type :=
  | Done (a : A)
  | OutOfFuel.
Arguments Done {A} a.
Arguments OutOfFuel {A}.

Definition run_bind {A B : Type} (m : run A) (k : A -> run B) : run B :=
  match m with
  | Done a => k a
  | OutOfFuel => OutOfFuel
  end.

(** A typed result: code that fails returns its error kind. *)
Inductive Result (A E : Type) : Type :=
  | Ok (a : A)
  | Err (e : E).
Arguments Ok {A E} a.
Arguments Err {A E} e.

Definition is_ok {A E : Type} (r : Result A E) : bool :=
  match r with
  | Ok _ => true
  | Err _ => false
  end.

(** * Part I: the program *)

(** ** Built-ins of the language used by the sources *)

Module Js.

Definition charCode (c : ascii) : Z := Z.of_N (N_of_ascii c).

(** White space skipped by [parseInt]: TAB, LF, VT, FF, CR, SP and NBSP. *)
Definition is_whitespace (c : ascii) : bool :=
  let n := charCode c in
  ((9 <=? n) && (n <=? 13)) || (n =? 32) || (n =? 160).

Fixpoint trim_start (s : string) : string :=
  match s with
  | EmptyString => EmptyString
  | String c rest => if is_whitespace c then trim_start rest else s
  end.

Definition digit_value (c : ascii) : option Z :=
  let n := charCode c in
  if (48 <=? n) && (n <=? 57) then Some (n - 48)
  else if (97 <=? n) && (n <=? 122) then Some (n - 87)
  else if (65 <=? n) && (n <=? 90) then Some (n - 55)
  else None.

(** The longest prefix of digits of the radix; [None] when it is empty. *)
Fixpoint parse_digits (radix : Z) (s : string) (acc : option Z) : option Z :=
  match s with
  | EmptyString => acc
  | String c rest =>
      match digit_value c with
      | Some d =>
          if d <? radix
          then parse_digits radix rest
                 (Some (match acc with Some a => a * radix + d | None => d end))
          else acc
      | None => acc
      end
  end.

Definition strip_sign (s : string) : Z * string :=
  match s with
  | String c rest =>
      if Ascii.eqb c "-" then (-1, rest)
      else if Ascii.eqb c "+" then (1, rest)
      else (1, s)
  | EmptyString => (1, s)
  end.

Definition strip_hex_prefix (s : string) : option string :=
  match s with
  | String c0 (String c1 rest) =>
      if Ascii.eqb c0 "0" && (Ascii.eqb c1 "x" || Ascii.eqb c1 "X") then Some rest else None
  | _ => None
  end.

(** [parseInt(s, radix)]; radix [0] stands for an omitted radix and [None]
    for the result NaN. *)
Definition parseInt (s : string) (radix : Z) : option Z :=
  let '(sign, body) := strip_sign (trim_start s) in
  let '(R, digits) :=
    if (radix =? 0) || (radix =? 16) then
      match strip_hex_prefix body with
      | Some rest => (16, rest)
      | None => (if radix =? 0 then 10 else radix, body)
      end
    else (radix, body) in
  if (R <? 2) || (36 <? R) then None
  else option_map (Z.mul sign) (parse_digits R digits None).

(** [s.startsWith(p)] *)
Definition startsWith (s p : string) : bool := String.prefix p s.

(** [s.includes(sub)] *)
Fixpoint includes (s sub : string) : bool :=
  String.prefix sub s ||
  match s with
  | EmptyString => false
  | String _ rest => includes rest sub
  end.

(** [s.split(sep)] for a separator that is not empty: [skip] counts the
    characters of a matched separator still to be passed over, [cur] is the
    piece being read. *)
Fixpoint split_from (sep s : string) (skip : nat) (cur : string) : list string :=
  match s with
  | EmptyString => [cur]
  | String c rest =>
      match skip with
      | S k => split_from sep rest k cur
      | O =>
          if String.prefix sep s
          then cur :: split_from sep rest (String.length sep - 1) ""
          else split_from sep rest 0 (cur ++ String c "")
      end
  end.

Definition split (s sep : string) : list string := split_from sep s 0 "".

End Js.

(** ** urlEncryption.ts *)

Module UrlEncryption.
Import Js.

Definition ENCRYPTION_KEY : string := "chatconnect_2024_secure_v2".

(** ToInt32 of the language: reduce modulo 2^32 into [-2^31, 2^31). *)
Definition to_int32 (z : Z) : Z :=
  let m := z mod 2 ^ 32 in
  if 2 ^ 31 <=? m then m - 2 ^ 32 else m.

(** [a << k] and [a & b] on 32-bit integers. *)
Definition shl32 (a k : Z) : Z := to_int32 (Z.shiftl (to_int32 a) k).
Definition and32 (a b : Z) : Z := Z.land (to_int32 a) (to_int32 b).

(** The body of the [for] loop of [simpleHash], folded over the characters. *)
Fixpoint hash_chars (str : string) (hash : Z) : Z :=
  match str with
  | EmptyString => hash
  | String c rest =>
      let char := charCode c in
      let hash1 := (shl32 hash 5 - hash) + char in
      let hash2 := and32 hash1 hash1 in
      hash_chars rest hash2
  end.

(** [Number.prototype.toString(36)] on a non-negative integer. *)
Definition digit36 (d : Z) : ascii :=
  if d <? 10 then ascii_of_N (Z.to_N (48 + d)) else ascii_of_N (Z.to_N (87 + d)).

Fixpoint toString36_digits (fuel : nat) (n : Z) (acc : string) : string :=
  match fuel with
  | O => acc
  | S fuel' =>
      let acc' := String (digit36 (n mod 36)) acc in
      if n / 36 =? 0 then acc' else toString36_digits fuel' (n / 36) acc'
  end.

Definition toString36 (n : Z) : string :=
  toString36_digits (S (Z.to_nat (Z.log2 n))) n "".

Definition simpleHash (str : string) : string :=
  toString36 (Z.abs (hash_chars str 0)).

(** [String.prototype.replace(/[^a-zA-Z0-9]/g, 'a')]. *)
Definition is_alnum (c : ascii) : bool :=
  let n := charCode c in
  ((48 <=? n) && (n <=? 57)) || ((65 <=? n) && (n <=? 90)) || ((97 <=? n) && (n <=? 122)).

Fixpoint replace_non_alnum (s : string) : string :=
  match s with
  | EmptyString => EmptyString
  | String c rest => String (if is_alnum c then c else "a"%char) (replace_non_alnum rest)
  end.

(** The [while (encrypted.length < 16)] loop of [generateStableId]; one unit
    of fuel per evaluation of the loop condition. *)
Fixpoint pad_loop (fuel : nat) (seed encrypted : string) : run string :=
  match fuel with
  | O => OutOfFuel
  | S fuel' =>
      if (String.length encrypted <? 16)%nat
      then pad_loop fuel' seed (simpleHash (encrypted ++ seed))
      else Done encrypted
  end.

Definition generateStableId (fuel : nat) (chatId : string) : run string :=
  let seed := chatId ++ "_" ++ ENCRYPTION_KEY in
  let hash := simpleHash seed in
  run_bind (pad_loop fuel seed hash)
    (fun encrypted => Done (replace_non_alnum (substring 0 16 encrypted))).

(** [chatId: number | string]; a number is an integer here, printed in
    decimal by [toString]. *)
Inductive ChatId : Type :=
  | IdNumber (n : Z)
  | IdString (s : string).

Definition decimal (n : Z) : string := NilZero.string_of_int (Z.to_int n).

Definition ChatId_toString (chatId : ChatId) : string :=
  match chatId with
  | IdNumber n => decimal n
  | IdString s => s
  end.

Definition encryptChatId (fuel : nat) (chatId : ChatId) : run string :=
  generateStableId fuel (ChatId_toString chatId).

(** The [for (let i = 1; i <= 10000; i++)] search of [decryptChatId], with
    [count] iterations left. *)
Fixpoint brute_force (fuel count : nat) (i : Z) (encryptedId : string) : run (option Z) :=
  match count with
  | O => Done None
  | S count' =>
      run_bind (encryptChatId fuel (IdNumber i)) (fun testEncrypted =>
        if String.eqb testEncrypted encryptedId
        then Done (Some i)
        else brute_force fuel count' (i + 1) encryptedId)
  end.

(** The first attempt of [decryptChatId]: read the id as a base-36 number
    and check it; [None] when the attempt falls through to the search. *)
Definition decode_attempt (fuel : nat) (encryptedId : string) : run (option Z) :=
  match parseInt encryptedId 36 with
  | Some decoded =>
      if (0 <? decoded) && (decoded <? 1000000) then
        run_bind (encryptChatId fuel (IdNumber decoded)) (fun testEncrypted =>
          if String.eqb testEncrypted encryptedId then Done (Some decoded) else Done None)
      else Done None
  | None => Done None
  end.

Definition decryptChatId (fuel : nat) (encryptedId : string) : run (option Z) :=
  run_bind (decode_attempt fuel encryptedId) (fun found =>
    match found with
    | Some decoded => Done (Some decoded)
    | None => brute_force fuel (Z.to_nat 10000) 1 encryptedId
    end).

End UrlEncryption.

(** ** cookies.ts *)

Module Cookies.
Import Js.

(** The cookies that the page sees, as name/value pairs in the order
    [document.cookie] lists them. They are taken to be cookies of the page's
    own host with path "/", the only kind that cookies.ts writes; a browser
    keeps one such cookie for a name. *)
Definition Jar : Type := list (string * string).

(** [document] is undefined while a page is rendered on the server. *)
Definition Document : Type := option Jar.

Definition cookie_pair (c : string * string) : string := fst c ++ "=" ++ snd c.

(** What reading [document.cookie] returns. *)
Definition document_cookie (jar : Jar) : string :=
  String.concat "; " (map cookie_pair jar).

Definition getCookie (name : string) (doc : Document) : option string :=
  match doc with
  | None => None
  | Some jar =>
      let value := "; " ++ document_cookie jar in
      let parts := split value ("; " ++ name ++ "=") in
      if (length parts =? 2)%nat then
        match head (split (List.last parts "") ";") with
        | Some "" => None
        | Some v => Some v
        | None => None
        end
      else None
  end.

(** Writing an expired cookie with [path=/] makes the browser drop the
    cookie of that name and path, which in a jar of cookies of path "/" is
    the cookie of that name. *)
Definition deleteCookie (name : string) (doc : Document) : Document :=
  option_map (List.filter (fun c => negb (String.eqb (fst c) name))) doc.

Definition SESSION_DURATION_DAYS : Z := 2.

(** The result is a number of the language: [None] is NaN. *)
Definition getLastActivity (doc : Document) : option Z :=
  match getCookie "lastActivity" doc with
  | Some timestamp => parseInt timestamp 0
  | None => Some 0
  end.

Definition maxInactivity : Z := SESSION_DURATION_DAYS * 24 * 60 * 60 * 1000.

(** [now] is the value of [Date.now()]. *)
Definition isSessionValid (doc : Document) (now : Z) : bool :=
  match getCookie "token" doc, getLastActivity doc with
  | Some _, Some lastActivity =>
      if lastActivity =? 0 then false
      else
        let timeSinceActivity := now - lastActivity in
        timeSinceActivity <? maxInactivity
  | _, _ => false
  end.

Definition clearSession (doc : Document) : Document :=
  deleteCookie "lastActivity" (deleteCookie "token" doc).

Definition getAuthToken (doc : Document) (now : Z) : Document * option string :=
  if negb (isSessionValid doc now) then (clearSession doc, None)
  else (doc, getCookie "token" doc).

End Cookies.

(** ** The settings page: MCP server form and OAuth controls *)

Module Settings.
Import Js Cookies.

Record ServerTypeOption : Type := {
  opt_value : string;
  opt_label : string;
  opt_description : string;
  opt_example : string;
  opt_placeholder : string
}.

Definition MCP_SERVER_TYPES : list ServerTypeOption :=
  [ {| opt_value := "pipedream";
       opt_label := "Pipedream Workflow";
       opt_description := "Connect to a Pipedream MCP workflow";
       opt_example := "https://mcp.pipedream.net/[workflow-id]/[endpoint]";
       opt_placeholder := "https://mcp.pipedream.net/6919d1b2-8143-422f-a5ae-6bca936cdbe6/gmail" |};
    {| opt_value := "stdio";
       opt_label := "Standard I/O";
       opt_description := "Connect to an MCP server using standard input/output";
       opt_example := "npx -y @modelcontextprotocol/server-filesystem /path/to/directory";
       opt_placeholder := "npx -y @modelcontextprotocol/server-filesystem /path/to/directory" |};
    {| opt_value := "sse";
       opt_label := "Server-Sent Events";
       opt_description := "Connect to an MCP server using HTTP with Server-Sent Events";
       opt_example := "http://localhost:3000/sse";
       opt_placeholder := "http://localhost:3000/sse" |};
    {| opt_value := "websocket";
       opt_label := "WebSocket";
       opt_description := "Connect to an MCP server using WebSocket protocol";
       opt_example := "ws://localhost:3000/ws";
       opt_placeholder := "ws://localhost:3000/ws" |};
    {| opt_value := "custom";
       opt_label := "Custom URI";
       opt_description := "Connect using any custom MCP server URI";
       opt_example := "mcp://custom-server.example.com:8080";
       opt_placeholder := "mcp://custom-server.example.com:8080" |} ].

(** The values a user can pick in the server type [select] of the form. *)
Definition selectable_types : list string := map opt_value MCP_SERVER_TYPES.

(** [config] of a server; a field of the JSON object may be missing. *)
Record McpConfig : Type := {
  cfg_type : string;
  cfg_uri : option string;
  cfg_transport : string
}.

Record MCPServer : Type := {
  srv_id : Z;
  srv_name : string;
  srv_description : option string;
  srv_config : McpConfig;
  srv_createdAt : string
}.

(** The JSON body of the create request. *)
Record ServerPayload : Type := {
  pl_name : string;
  pl_description : string;
  pl_config : McpConfig
}.

Record OAuthStatus : Type := {
  st_server_id : Z;
  st_is_valid : bool
}.

(** The state of the page that the MCP handlers read and write. *)
Record PageState : Type := {
  mcpServers : list MCPServer;
  mcpServerName : string;
  mcpServerType : string;
  mcpServerDescription : string;
  mcpServerUrl : string;
  mcpServerLoading : bool;
  mcpServersLoading : bool;
  error : string;
  oauthStatus : list OAuthStatus
}.

Definition setMcpServers (v : list MCPServer) (s : PageState) : PageState :=
  {| mcpServers := v; mcpServerName := mcpServerName s; mcpServerType := mcpServerType s;
     mcpServerDescription := mcpServerDescription s; mcpServerUrl := mcpServerUrl s;
     mcpServerLoading := mcpServerLoading s; mcpServersLoading := mcpServersLoading s;
     error := error s; oauthStatus := oauthStatus s |}.

Definition setMcpServerLoading (v : bool) (s : PageState) : PageState :=
  {| mcpServers := mcpServers s; mcpServerName := mcpServerName s; mcpServerType := mcpServerType s;
     mcpServerDescription := mcpServerDescription s; mcpServerUrl := mcpServerUrl s;
     mcpServerLoading := v; mcpServersLoading := mcpServersLoading s;
     error := error s; oauthStatus := oauthStatus s |}.

Definition setMcpServersLoading (v : bool) (s : PageState) : PageState :=
  {| mcpServers := mcpServers s; mcpServerName := mcpServerName s; mcpServerType := mcpServerType s;
     mcpServerDescription := mcpServerDescription s; mcpServerUrl := mcpServerUrl s;
     mcpServerLoading := mcpServerLoading s; mcpServersLoading := v;
     error := error s; oauthStatus := oauthStatus s |}.

Definition setError (v : string) (s : PageState) : PageState :=
  {| mcpServers := mcpServers s; mcpServerName := mcpServerName s; mcpServerType := mcpServerType s;
     mcpServerDescription := mcpServerDescription s; mcpServerUrl := mcpServerUrl s;
     mcpServerLoading := mcpServerLoading s; mcpServersLoading := mcpServersLoading s;
     error := v; oauthStatus := oauthStatus s |}.

(** [setMcpServerName(""); setMcpServerType(""); setMcpServerDescription("");
    setMcpServerUrl("")] *)
Definition clearForm (s : PageState) : PageState :=
  {| mcpServers := mcpServers s; mcpServerName := ""; mcpServerType := "";
     mcpServerDescription := ""; mcpServerUrl := "";
     mcpServerLoading := mcpServerLoading s; mcpServersLoading := mcpServersLoading s;
     error := error s; oauthStatus := oauthStatus s |}.

(** Requests sent to the backend. *)
Inductive Request : Type :=
  | PostMcpServer (token : string) (body : ServerPayload)
  | GetMcpServers (token : string).

(** What the backend does with the create request: [fetch] throws with a
    message, the response is not ok (with the [detail] of its body, empty
    when there is none), the response is ok but its body is not JSON, or the
    server is created. *)
Inductive PostOutcome : Type :=
  | PostThrows (message : string)
  | PostNotOk (detail : string)
  | PostBadJson (message : string)
  | PostCreated.

(** What the backend does with the list request; [ListOk None] is a body
    that is not an array. *)
Inductive ListOutcome : Type :=
  | ListThrows
  | ListNotOk
  | ListBadJson
  | ListOk (data : option (list MCPServer)).

(** The world around one run of a handler: the clock at its two reads of
    the session and the answers of the backend. *)
Record Env : Type := {
  now_submit : Z;
  now_refresh : Z;
  post_outcome : PostOutcome;
  list_outcome : ListOutcome
}.

(** [a || b] on strings: the empty string is falsy. *)
Definition or_else (a b : string) : string :=
  if String.eqb a "" then b else a.

Definition fetchMcpServers (env : Env) (doc : Document) (s : PageState)
  : Document * PageState * list Request :=
  let '(doc1, token) := getAuthToken doc (now_refresh env) in
  match token with
  | None => (doc1, s, [])
  | Some tok =>
      let s1 := setMcpServersLoading true s in
      let s2 :=
        match list_outcome env with
        | ListOk (Some data) => setMcpServers data s1
        | ListOk None => setMcpServers [] s1
        | _ => setError "Could not load MCP servers." (setMcpServers [] s1)
        end in
      (doc1, setMcpServersLoading false s2, [GetMcpServers tok])
  end.

Definition PIPEDREAM_PREFIX : string := "https://mcp.pipedream.net/".

Definition INVALID_PIPEDREAM_URL : string :=
  "Invalid Pipedream URL. Must start with https://mcp.pipedream.net/".

Definition payload (s : PageState) : ServerPayload :=
  {| pl_name := mcpServerName s;
     pl_description := mcpServerDescription s;
     pl_config :=
       {| cfg_type := if String.eqb (mcpServerType s) "pipedream" then "custom" else mcpServerType s;
          cfg_uri := Some (mcpServerUrl s);
          cfg_transport := if String.eqb (mcpServerType s) "pipedream" then "http" else mcpServerType s |} |}.

Definition handleAddMcpServer (env : Env) (doc : Document) (s : PageState)
  : Document * PageState * list Request :=
  let s1 := setError "" (setMcpServerLoading true s) in
  let '(doc1, token) := getAuthToken doc (now_submit env) in
  match token with
  | None => (doc1, s1, [])
  | Some tok =>
      if String.eqb (mcpServerType s1) "pipedream"
         && negb (startsWith (mcpServerUrl s1) PIPEDREAM_PREFIX)
      then (doc1, setMcpServerLoading false (setError INVALID_PIPEDREAM_URL s1), [])
      else
        let request := PostMcpServer tok (payload s1) in
        let failed (message : string) :=
          (doc1,
           setMcpServerLoading false (setError (or_else message "Could not add MCP server.") s1),
           [request]) in
        match post_outcome env with
        | PostThrows message => failed message
        | PostNotOk detail => failed (or_else detail "Failed to add MCP server")
        | PostBadJson message => failed message
        | PostCreated =>
            let '(doc2, s2, requests) := fetchMcpServers env doc1 s1 in
            (doc2, setMcpServerLoading false (clearForm s2), request :: requests)
        end
  end.

(** [uri?.includes(sub)]: undefined, hence falsy, when there is no uri. *)
Definition uri_includes (server : MCPServer) (sub : string) : bool :=
  match cfg_uri (srv_config server) with
  | Some uri => includes uri sub
  | None => false
  end.

(** The [provider] computed for each server card of the list. *)
Definition provider (server : MCPServer) : option string :=
  let isPipedream := uri_includes server "pipedream.net" in
  if isPipedream && uri_includes server "gmail" then Some "gmail"
  else if isPipedream && uri_includes server "google" then Some "google"
  else None.

(** The OAuth buttons of a server card, each with the handler call behind
    it. *)
Inductive OAuthControl : Type :=
  | AuthenticateButton (serverId : Z) (prov : string)
  | RevokeButton (serverId : Z) (prov : string).

Definition oauth_controls (s : PageState) (server : MCPServer) : list OAuthControl :=
  let serverOAuthStatus :=
    List.find (fun status => st_server_id status =? srv_id server) (oauthStatus s) in
  match provider server with
  | Some prov =>
      match serverOAuthStatus with
      | Some status =>
          if st_is_valid status then [RevokeButton (srv_id server) prov]
          else [AuthenticateButton (srv_id server) prov]
      | None => [AuthenticateButton (srv_id server) prov]
      end
  | None => []
  end.

End Settings.

(** ** The confirmation broker *)

Module ConfirmationBroker.

Inductive Status : Type := pending | confirmed | cancelled | expired.

Inductive Action : Type := confirm | cancel.

Inductive ConfirmationError : Type := NotFound | Expired | AlreadyResolved.

Record ConfirmationRecord : Type := {
  confirmationId : string;
  userId : Z;
  intentKind : string;
  originalMessage : string;
  candidateServers : list Z;
  createdAt : Z;
  expiresAt : Z;
  status : Status
}.

Definition with_status (st : Status) (r : ConfirmationRecord) : ConfirmationRecord :=
  {| confirmationId := confirmationId r; userId := userId r; intentKind := intentKind r;
     originalMessage := originalMessage r; candidateServers := candidateServers r;
     createdAt := createdAt r; expiresAt := expiresAt r; status := st |}.

#[global] Instance Status_eq_dec : EqDecision Status.
Proof. solve_decision. Defined.

(** The 5-minute lifetime of a confirmation, in seconds. *)
Definition CONFIRMATION_TTL : Z := 5 * 60.

Definition status_of (a : Action) : Status :=
  match a with
  | confirm => confirmed
  | cancel => cancelled
  end.

(** Modelled from the spec: the broker's [Create], whose code is not among
    the sources. The record table is a map keyed by confirmation id; the
    random id is an argument; times are in seconds. *)
Definition Create (id : string) (now : Z) (user : Z) (intent message : string)
    (servers : list Z) (table : gmap string ConfirmationRecord)
  : gmap string ConfirmationRecord * ConfirmationRecord :=
  let r := {| confirmationId := id; userId := user; intentKind := intent;
              originalMessage := message; candidateServers := servers;
              createdAt := now; expiresAt := now + CONFIRMATION_TTL;
              status := pending |} in
  (<[id := r]> table, r).

(** Modelled from the spec: the broker's [Resolve], whose code is not among
    the sources. The three failures are tested in the order the contract
    lists them: unknown id, past [expiresAt] (the record is marked expired),
    status other than pending. *)
Definition Resolve (id : string) (a : Action) (now : Z)
    (table : gmap string ConfirmationRecord)
  : gmap string ConfirmationRecord * Result ConfirmationRecord ConfirmationError :=
  match table !! id with
  | None => (table, Err NotFound)
  | Some r =>
      if expiresAt r <? now then (<[id := with_status expired r]> table, Err Expired)
      else if decide (status r = pending) then
        let r' := with_status (status_of a) r in
        (<[id := r']> table, Ok r')
      else (table, Err AlreadyResolved)
  end.

(** A sequence of [Resolve] calls, each with its id, action and time, run
    in order on the table: the number of calls on [id] that succeed. *)
Fixpoint successes (id : string) (calls : list (string * Action * Z))
    (table : gmap string ConfirmationRecord) : nat :=
  match calls with
  | [] => 0
  | (id', a, now) :: rest =>
      let '(table', res) := Resolve id' a now table in
      ((if String.eqb id' id && is_ok res then 1 else 0) + successes id rest table')%nat
  end.

End ConfirmationBroker.

(** ** The OAuth token manager *)

Module OAuthTokenManager.

Inductive OAuthError : Type :=
  | InvalidState
  | ReauthRequired
  | ExchangeFailed.

Record OAuthState : Type := {
  state : string;
  state_userId : Z;
  state_serverId : Z;
  state_provider : string;
  state_createdAt : Z;
  state_expiresAt : Z
}.

Record OAuthToken : Type := {
  token_userId : Z;
  token_serverId : Z;
  token_provider : string;
  accessToken : string;
  refreshToken : option string;
  token_expiresAt : option Z;
  scope : string
}.

(** What a provider's token endpoint grants. *)
Record Grant : Type := {
  grant_accessToken : string;
  grant_refreshToken : option string;
  grant_expiresAt : option Z;
  grant_scope : string
}.

Record Manager : Type := {
  states : gmap string OAuthState;
  tokens : gmap (Z * Z * string) OAuthToken
}.

(** The 10-minute lifetime of an OAuth state, in seconds. *)
Definition STATE_LIFETIME : Z := 10 * 60.

Definition token_of_grant (user server : Z) (prov : string) (g : Grant) : OAuthToken :=
  {| token_userId := user; token_serverId := server; token_provider := prov;
     accessToken := grant_accessToken g; refreshToken := grant_refreshToken g;
     token_expiresAt := grant_expiresAt g; scope := grant_scope g |}.

Definition upsert (t : OAuthToken) (m : Manager) : Manager :=
  {| states := states m;
     tokens := <[(token_userId t, token_serverId t, token_provider t) := t]> (tokens m) |}.

Definition delete_token (key : Z * Z * string) (m : Manager) : Manager :=
  {| states := states m; tokens := delete key (tokens m) |}.

Definition delete_state (s : string) (m : Manager) : Manager :=
  {| states := delete s (states m); tokens := tokens m |}.

(** A token has expired once its [expiresAt], when it has one, is no
    longer in the future. *)
Definition has_expired (t : OAuthToken) (now : Z) : bool :=
  match token_expiresAt t with
  | Some e => e <=? now
  | None => false
  end.

Section Provider.

(** The provider's token endpoint: the exchange of an authorization code
    and the refresh call, each at a time [now]. *)
Variable exchange_code : string -> string -> Z -> option Grant.
Variable refresh_call : string -> string -> Z -> option Grant.

(** Modelled from the spec: [BeginAuthorization], whose code is not among
    the sources. The random state token is an argument; the authorization
    URL built from it is left out. *)
Definition BeginAuthorization (s : string) (now user server : Z) (prov : string)
    (m : Manager) : Manager * OAuthState :=
  let st := {| state := s; state_userId := user; state_serverId := server;
               state_provider := prov; state_createdAt := now;
               state_expiresAt := now + STATE_LIFETIME |} in
  ({| states := <[s := st]> (states m); tokens := tokens m |}, st).

(** Modelled from the spec: [CompleteAuthorization], whose code is not among
    the sources. The state is looked up by value and must satisfy
    [now < expiresAt]; it is then deleted, the code exchanged and the token
    upserted. *)
Definition CompleteAuthorization (code s : string) (now : Z) (m : Manager)
  : Manager * Result OAuthToken OAuthError :=
  match states m !! s with
  | None => (m, Err InvalidState)
  | Some st =>
      if now <? state_expiresAt st then
        let m1 := delete_state s m in
        match exchange_code (state_provider st) code now with
        | Some g =>
            let t := token_of_grant (state_userId st) (state_serverId st) (state_provider st) g in
            (upsert t m1, Ok t)
        | None => (m1, Err ExchangeFailed)
        end
      else (m, Err InvalidState)
  end.

(** Modelled from the spec: [GetValidToken], whose code is not among the
    sources. With no stored token the caller has to authenticate. *)
Definition GetValidToken (user server : Z) (prov : string) (now : Z) (m : Manager)
  : Manager * Result OAuthToken OAuthError :=
  match tokens m !! (user, server, prov) with
  | None => (m, Err ReauthRequired)
  | Some t =>
      if has_expired t now then
        match refreshToken t with
        | Some rt =>
            match refresh_call prov rt now with
            | Some g =>
                let t' := token_of_grant user server prov g in
                (upsert t' m, Ok t')
            | None => (delete_token (user, server, prov) m, Err ReauthRequired)
            end
        | None => (delete_token (user, server, prov) m, Err ReauthRequired)
        end
      else (m, Ok t)
  end.

(** Modelled from the spec: [Revoke], whose code is not among the sources. *)
Definition Revoke (user server : Z) (prov : string) (m : Manager) : Manager :=
  delete_token (user, server, prov) m.

(** The operations of the manager, to run it on a sequence of calls. *)
Inductive Op : Type :=
  | OpBegin (s : string) (now user server : Z) (prov : string)
  | OpComplete (code s : string) (now : Z)
  | OpGetValidToken (user server : Z) (prov : string) (now : Z)
  | OpRevoke (user server : Z) (prov : string).

Definition step (op : Op) (m : Manager) : Manager :=
  match op with
  | OpBegin s now user server prov => fst (BeginAuthorization s now user server prov m)
  | OpComplete code s now => fst (CompleteAuthorization code s now m)
  | OpGetValidToken user server prov now => fst (GetValidToken user server prov now m)
  | OpRevoke user server prov => Revoke user server prov m
  end.

Definition run_ops (ops : list Op) (m : Manager) : Manager :=
  fold_left (fun m op => step op m) ops m.

(** The operation issues the state [s] anew. *)
Definition issues (s : string) (op : Op) : Prop :=
  match op with
  | OpBegin s' _ _ _ _ => s' = s
  | _ => False
  end.

End Provider.

End OAuthTokenManager.

(** ** Tool calls: the transport connector and the fallback executor *)

Module ToolCall.

Inductive ErrorKind : Type :=
  | ConnectionRefused
  | Timeout
  | InvalidResponse
  | ToolNotFound
  | SchemaValidationFailed
  | FallbackFailed (original fallback : ErrorKind).

Definition is_timeout (e : ErrorKind) : bool :=
  match e with
  | Timeout => true
  | _ => false
  end.

(** What happened during a request, in order. *)
Inductive Event : Type :=
  | PrimaryAttempt (n : nat)
  | FallbackInvoked.

Definition is_attempt (ev : Event) : bool :=
  match ev with
  | PrimaryAttempt _ => true
  | FallbackInvoked => false
  end.

Section Request.

Variable ToolResult : Type.

(** Which errors of the taxonomy count as transport-level. *)
Variable transport_level : ErrorKind -> bool.

(** The server: the outcome of the n-th attempt of the primary call. *)
Variable attempt : nat -> Result ToolResult ErrorKind.

(** The outcome of [FallbackExecutor.Execute] for the request's intent and
    arguments. *)
Variable fallback_execute : Result ToolResult ErrorKind.

(** Modelled from the spec: [TransportConnector.Call], whose code is not
    among the sources. A transport-level error of the first attempt is
    retried once; a timeout is not retried. *)
Definition Call : Result ToolResult ErrorKind * list Event :=
  match attempt 0 with
  | Ok r => (Ok r, [PrimaryAttempt 0])
  | Err e =>
      if is_timeout e then (Err e, [PrimaryAttempt 0])
      else if transport_level e then (attempt 1, [PrimaryAttempt 0; PrimaryAttempt 1])
      else (Err e, [PrimaryAttempt 0])
  end.

(** Modelled from the spec: the request path from the primary call on,
    whose code is not among the sources. The fallback executor runs when the
    connector surfaces a timeout or a transport-level error. *)
Definition CallWithFallback : Result ToolResult ErrorKind * list Event :=
  let '(res, events) := Call in
  match res with
  | Ok r => (Ok r, events)
  | Err e =>
      if is_timeout e || transport_level e then
        match fallback_execute with
        | Ok r => (Ok r, (events ++ [FallbackInvoked])%list)
        | Err fe => (Err (FallbackFailed e fe), (events ++ [FallbackInvoked])%list)
        end
      else (Err e, events)
  end.

End Request.

End ToolCall.

(** ** urlEncryption.ts: the URLs *)

Module UrlPaths.
Import Js UrlEncryption.

Fixpoint take_while (f : ascii -> bool) (s : string) : string :=
  match s with
  | EmptyString => EmptyString
  | String c rest => if f c then String c (take_while f rest) else EmptyString
  end.

Fixpoint drop (n : nat) (s : string) : string :=
  match n, s with
  | O, _ => s
  | S n', EmptyString => EmptyString
  | S n', String _ rest => drop n' rest
  end.

Fixpoint every (f : ascii -> bool) (s : string) : bool :=
  match s with
  | EmptyString => true
  | String c rest => f c && every f rest
  end.

(** The class [[^/?]] and the class [\d]. *)
Definition is_segment_char (c : ascii) : bool :=
  negb (Ascii.eqb c "/" || Ascii.eqb c "?").

Definition is_digit (c : ascii) : bool :=
  (48 <=? charCode c) && (charCode c <=? 57).

(** Group 1 of the leftmost match of a regular expression of the shape
    [/literal(class+)/]: at the first position where [literal] is followed
    by a character of the class, the longest run of such characters. *)
Fixpoint match_after (literal : string) (class : ascii -> bool) (s : string)
  : option string :=
  let here :=
    if String.prefix literal s
    then take_while class (drop (String.length literal) s)
    else "" in
  match here with
  | String _ _ => Some here
  | EmptyString =>
      match s with
      | EmptyString => None
      | String _ rest => match_after literal class rest
      end
  end.

(** [url.match(/\/chat\/([^/?]+)/)] and [oldUrl.match(/chatId=(\d+)/)],
    each with its group 1. *)
Definition match_chat (url : string) : option string :=
  match_after "/chat/" is_segment_char url.

Definition match_chatId (oldUrl : string) : option string :=
  match_after "chatId=" is_digit oldUrl.

Definition generateSecureChatUrl (fuel : nat) (chatId : ChatId) : run string :=
  run_bind (encryptChatId fuel chatId) (fun encryptedId => Done ("/chat/" ++ encryptedId)).

Definition parseSecureChatUrl (fuel : nat) (url : string) : run (option Z) :=
  match match_chat url with
  | None => Done None
  | Some encryptedId => decryptChatId fuel encryptedId
  end.

(** [/^[a-zA-Z0-9]{16}$/.test(encryptedId)] on the id of the URL. *)
Definition isEncryptedUrl (url : string) : bool :=
  match match_chat url with
  | None => false
  | Some encryptedId =>
      (String.length encryptedId =? 16)%nat && every is_alnum encryptedId
  end.

(** [parseInt(match[1], 10)] of a run of digits is a number; the id is
    then printed in decimal again by [encryptChatId]. *)
Definition convertToEncryptedUrl (fuel : nat) (oldUrl : string) : run string :=
  match match_chatId oldUrl with
  | None => Done oldUrl
  | Some digits =>
      match parseInt digits 10 with
      | Some chatId => generateSecureChatUrl fuel (IdNumber chatId)
      | None => generateSecureChatUrl fuel (IdString "NaN")
      end
  end.

End UrlPaths.

(** ** cookies.ts: cookies with their expiry *)

Module CookieStore.
Import Js Cookies UrlEncryption.

(** A cookie of path "/" as the browser keeps it; [ck_expires] is a time in
    milliseconds, like [Date.now()]. *)
Record StoredCookie : Type := {
  ck_name : string;
  ck_value : string;
  ck_expires : Z
}.

Definition Store : Type := list StoredCookie.

(** [None] while a page is rendered on the server, where [document] is
    undefined. *)
Definition Browser : Type := option Store.

Definition live (now : Z) (c : StoredCookie) : bool := now <? ck_expires c.

(** The cookies the page sees at time [now]: those that have not expired. *)
Definition visible (now : Z) (st : Store) : Jar :=
  map (fun c => (ck_name c, ck_value c)) (List.filter (live now) st).

Definition document_at (now : Z) (b : Browser) : Document :=
  option_map (visible now) b.

(** The white space that a browser strips around the value of a cookie:
    the space and the horizontal tab. *)
Definition is_wsp (c : ascii) : bool := (charCode c =? 32) || (charCode c =? 9).

Fixpoint strip_leading (s : string) : string :=
  match s with
  | EmptyString => EmptyString
  | String c rest => if is_wsp c then strip_leading rest else s
  end.

Fixpoint strip_trailing (s : string) : string :=
  match s with
  | EmptyString => EmptyString
  | String c rest =>
      match strip_trailing rest with
      | EmptyString => if is_wsp c then EmptyString else String c EmptyString
      | String d kept => String c (String d kept)
      end
  end.

Definition strip_wsp (s : string) : string := strip_trailing (strip_leading s).

(** The cookie as the browser stores it: the value without the white space
    around it. *)
Definition stored (c : StoredCookie) : StoredCookie :=
  {| ck_name := ck_name c; ck_value := strip_wsp (ck_value c);
     ck_expires := ck_expires c |}.

(** A value that the browser takes as it is, up to the white space around
    it: no semicolon, which would end the value, no control character other
    than the tab, at which browsers cut the value or refuse the cookie, and
    a length well within the 4096 bytes that a browser accepts for a cookie. *)
Definition is_value_char (c : ascii) : bool :=
  negb (Ascii.eqb c ";") &&
  ((32 <=? charCode c) || (charCode c =? 9)) && negb (charCode c =? 127).

Fixpoint value_chars (s : string) : bool :=
  match s with
  | EmptyString => true
  | String c rest => is_value_char c && value_chars rest
  end.

Definition plain_value (s : string) : bool :=
  value_chars s && (String.length s <=? 2000)%nat.

(** The browser's part in [document.cookie = "name=value;expires=...;path=/"],
    for a plain value and a name like the two that cookies.ts uses: the
    cookie of that name is dropped, and the new one is stored, its value
    stripped of the white space around it, unless it has expired already.
    Where the new cookie stands in the list is of no consequence:
    [getCookie] looks a cookie up by its name. *)
Definition assign (now : Z) (c : StoredCookie) (st : Store) : Store :=
  let others := List.filter (fun d => negb (String.eqb (ck_name d) (ck_name c))) st in
  if live now c then (others ++ [stored c])%list else others.

(** The time that the text of [toUTCString] denotes: a date is printed to
    the second. *)
Definition toUTCString_time (t : Z) : Z := 1000 * (t / 1000).

(** [now] is the clock's reading during the call: [new Date()] here and
    [Date.now()] in the functions below. The page is taken to be served over
    a secure connection, where a cookie marked [secure] is accepted, and
    [value] to be a plain value. *)
Definition setCookie (name value : string) (days now : Z) (b : Browser) : Browser :=
  option_map
    (assign now {| ck_name := name; ck_value := value;
                   ck_expires := toUTCString_time (now + days * 24 * 60 * 60 * 1000) |}) b.

(** [deleteCookie] with its date: Thu, 01 Jan 1970 00:00:00 UTC is time 0. *)
Definition deleteCookie_at (name : string) (now : Z) (b : Browser) : Browser :=
  option_map (assign now {| ck_name := name; ck_value := ""; ck_expires := 0 |}) b.

Definition ACTIVITY_REFRESH_THRESHOLD : Z := 30 * 60 * 1000.

Definition updateLastActivity (now : Z) (b : Browser) : Browser :=
  setCookie "lastActivity" (decimal now) SESSION_DURATION_DAYS now b.

Definition clearSession_at (now : Z) (b : Browser) : Browser :=
  deleteCookie_at "lastActivity" now (deleteCookie_at "token" now b).

Definition getAuthToken_at (now : Z) (b : Browser) : Browser * option string :=
  if negb (isSessionValid (document_at now b) now) then (clearSession_at now b, None)
  else (b, getCookie "token" (document_at now b)).

Definition setAuthToken (token : string) (now : Z) (b : Browser) : Browser :=
  updateLastActivity now (setCookie "token" token SESSION_DURATION_DAYS now b).

Definition clearAuthToken (now : Z) (b : Browser) : Browser := clearSession_at now b.

(** [now - lastActivity > ACTIVITY_REFRESH_THRESHOLD], false when
    [lastActivity] is NaN. *)
Definition refresh_due (now : Z) (lastActivity : option Z) : bool :=
  match lastActivity with
  | Some t => ACTIVITY_REFRESH_THRESHOLD <? now - t
  | None => false
  end.

Definition refreshSessionIfNeeded (now : Z) (b : Browser) : Browser * bool :=
  if negb (isSessionValid (document_at now b) now) then (clearSession_at now b, false)
  else
    let lastActivity := getLastActivity (document_at now b) in
    if refresh_due now lastActivity then
      match getCookie "token" (document_at now b) with
      | Some token =>
          (updateLastActivity now (setCookie "token" token SESSION_DURATION_DAYS now b), true)
      | None => (updateLastActivity now b, true)
      end
    else (updateLastActivity now b, true).

Definition trackUserActivity (now : Z) (b : Browser) : Browser :=
  match getCookie "token" (document_at now b) with
  | Some _ => updateLastActivity now b
  | None => b
  end.

Definition autoRefreshSession (now : Z) (b : Browser) : Browser * bool :=
  refreshSessionIfNeeded now b.

(** useSession.ts: [checkSession] sends the user to the login page when the
    session could not be refreshed. *)
Inductive Navigation : Type :=
  | Stay
  | ReplaceWith (path : string).

Definition checkSession (now : Z) (b : Browser) : Browser * Navigation :=
  let '(b', ok) := autoRefreshSession now b in
  if ok then (b', Stay) else (b', ReplaceWith "/login").

(** What happens in the browser, in order: the handlers of useSession.ts
    and the reads of the token by the pages. *)
Inductive SessionEvent : Type :=
  | UserActivity
  | SessionCheck
  | ReadToken.

Definition session_step (b : Browser) (ev : SessionEvent * Z) : Browser :=
  match ev with
  | (UserActivity, now) => trackUserActivity now b
  | (SessionCheck, now) => fst (checkSession now b)
  | (ReadToken, now) => fst (getAuthToken_at now b)
  end.

Definition session_run (events : list (SessionEvent * Z)) (b : Browser) : Browser :=
  fold_left session_step events b.

End CookieStore.

(** ** The middleware of the frontend (listed with components/ui/loader.tsx) *)

Module Middleware.
Import Js Cookies.

(** What the middleware reads of a request: [request.nextUrl.pathname], the
    [redirect] parameter of the query and the values of the two cookies. *)
Record NextRequest : Type := {
  pathname : string;
  searchParams_redirect : option string;
  cookies_token : option string;
  cookies_lastActivity : option string
}.

(** The URL of a redirect: [/login] with its [redirect] parameter, or
    [new URL(reference, request.url)]. *)
Inductive Location : Type :=
  | LoginPage (redirect_param : option string)
  | Reference (reference : string).

Inductive NextResponse : Type :=
  | next
  | redirect (url : Location).

(** A value used as a condition: undefined, null and the empty string are
    falsy. *)
Definition truthy (v : option string) : bool :=
  match v with
  | Some s => negb (String.eqb s "")
  | None => false
  end.

(** The middleware's own [isSessionValid]; a comparison with NaN is false. *)
Definition sessionValid (request : NextRequest) (now : Z) : bool :=
  if negb (truthy (cookies_token request)) || negb (truthy (cookies_lastActivity request))
  then false
  else
    match cookies_lastActivity request with
    | Some lastActivity =>
        match parseInt lastActivity 0 with
        | Some lastActivityTime =>
            let timeSinceActivity := now - lastActivityTime in
            let maxInactivity := 2 * 24 * 60 * 60 * 1000 in
            timeSinceActivity <? maxInactivity
        | None => false
        end
    | None => false
    end.

Definition middleware (request : NextRequest) (now : Z) : NextResponse :=
  if startsWith (pathname request) "/chat/" then
    if negb (sessionValid request now)
    then redirect (LoginPage (Some (pathname request)))
    else next
  else if String.eqb (pathname request) "/login" then
    match searchParams_redirect request with
    | Some target =>
        if sessionValid request now && truthy (Some target)
        then redirect (Reference target)
        else next
    | None => next
    end
  else if String.eqb (pathname request) "/" then
    if negb (sessionValid request now) then redirect (LoginPage None) else next
  else next.

Section Framework.

(** [decodeURIComponent], which the framework applies to the value of every
    cookie of a request; [None] when it throws. *)
Variable decodeURIComponent : string -> option string.

(** The cookies of a request as the framework reads them, pair by pair in
    the order the browser sends them: a later pair of a name replaces an
    earlier one, and a pair whose value cannot be decoded is left out. *)
Fixpoint parseCookie (jar : Jar) (cookies : gmap string string) : gmap string string :=
  match jar with
  | [] => cookies
  | c :: rest =>
      parseCookie rest
        (match decodeURIComponent (snd c) with
         | Some decoded => <[fst c := decoded]> cookies
         | None => cookies
         end)
  end.

(** [request.cookies.get(name)?.value] for a request that carries the
    cookies of [jar]. *)
Definition cookies_get (name : string) (jar : Jar) : option string :=
  parseCookie jar ∅ !! name.

Definition request_with (jar : Jar) (path : string) (redirect_param : option string)
  : NextRequest :=
  {| pathname := path;
     searchParams_redirect := redirect_param;
     cookies_token := cookies_get "token" jar;
     cookies_lastActivity := cookies_get "lastActivity" jar |}.

End Framework.

End Middleware.

(** ** The settings page: the server cards *)

Module SettingsCards.
Import Js Settings.

(** The type shown on a server card:
    [MCP_SERVER_TYPES.find(t => t.value === server.config.type)?.label
     || server.config.type]. *)
Definition type_badge (server : MCPServer) : string :=
  match List.find (fun t => String.eqb (opt_value t) (cfg_type (srv_config server)))
          MCP_SERVER_TYPES with
  | Some t => or_else (opt_label t) (cfg_type (srv_config server))
  | None => cfg_type (srv_config server)
  end.

End SettingsCards.

(** * Part II: properties *)

(** ** Strings of the language *)

Module JsFacts.
Import Js.

#[local] Arguments String.append : simpl nomatch.

Example parseInt_examples :
  parseInt "  -12abc" 0 = Some (-12) /\ parseInt "0x1A" 0 = Some 26 /\
  parseInt "abc" 0 = None /\ parseInt "zz" 36 = Some 1295 /\ parseInt "" 0 = None.
Proof. repeat split; reflexivity. Qed.

Example split_examples :
  split "; token=abc; lastActivity=5" "; token=" = [""; "abc; lastActivity=5"] /\
  split "a;b;;c" ";" = ["a"; "b"; ""; "c"] /\
  split "" ";" = [""].
Proof. repeat split; reflexivity. Qed.

Lemma append_empty_r (s : string) : s ++ "" = s.
Proof. induction s as [| c s IH]; cbn; [reflexivity | now rewrite IH]. Qed.

Lemma append_assoc (a b c : string) : (a ++ b) ++ c = a ++ b ++ c.
Proof. induction a as [| x a IH]; cbn; [reflexivity | now rewrite IH]. Qed.

Lemma prefix_nil (s : string) : String.prefix "" s = true.
Proof. destruct s; reflexivity. Qed.

Lemma prefix_cons (c d : ascii) (p s : string) :
  String.prefix (String c p) (String d s) =
  if ascii_dec c d then String.prefix p s else false.
Proof. reflexivity. Qed.

Lemma prefix_append (p s : string) : String.prefix p (p ++ s) = true.
Proof.
  induction p as [| c p IH]; cbn [String.append].
  - apply prefix_nil.
  - rewrite prefix_cons. destruct (ascii_dec c c); [exact IH | congruence].
Qed.

(** The character occurs in the string. *)
Fixpoint mentions (c : ascii) (s : string) : bool :=
  match s with
  | EmptyString => false
  | String d rest => Ascii.eqb c d || mentions c rest
  end.

Lemma mentions_append (c : ascii) (a b : string) :
  mentions c (a ++ b) = mentions c a || mentions c b.
Proof.
  induction a as [| d a IH]; cbn; [reflexivity |].
  now rewrite IH, orb_assoc.
Qed.

(** *** [split]: what is cut where *)

Lemma split_from_cons (sep rest cur : string) (c : ascii) :
  split_from sep (String c rest) 0 cur =
  if String.prefix sep (String c rest)
  then cur :: split_from sep rest (String.length sep - 1) ""
  else split_from sep rest 0 (cur ++ String c "").
Proof. reflexivity. Qed.

Lemma split_from_skip (sep : string) (a : string) :
  forall b cur, split_from sep (a ++ b) (String.length a) cur = split_from sep b 0 cur.
Proof.
  induction a as [| c a IH]; intros b cur; cbn.
  - destruct b; reflexivity.
  - apply IH.
Qed.

(** No occurrence of [sep] in [a ++ rest] starts inside [a]. *)
Fixpoint unmatched (sep a rest : string) : Prop :=
  match a with
  | EmptyString => True
  | String c a' => String.prefix sep (a ++ rest) = false /\ unmatched sep a' rest
  end.

Lemma split_from_unmatched (sep : string) (a : string) :
  forall rest cur,
    unmatched sep a rest ->
    split_from sep (a ++ rest) 0 cur = split_from sep rest 0 (cur ++ a).
Proof.
  induction a as [| c a IH]; intros rest cur Hun; cbn [unmatched String.append] in *.
  - now rewrite append_empty_r.
  - destruct Hun as [Hp Hun].
    rewrite split_from_cons, Hp, IH by exact Hun.
    now rewrite append_assoc.
Qed.

Lemma split_from_match (sep b cur : string) :
  sep <> "" ->
  split_from sep (sep ++ b) 0 cur = cur :: split_from sep b 0 "".
Proof.
  destruct sep as [| c sep]; [congruence |]. intros _.
  pose proof (prefix_append (String c sep) b) as Hp.
  cbn [String.append] in *.
  rewrite split_from_cons, Hp. cbn [String.length].
  replace (S (String.length sep) - 1)%nat with (String.length sep) by lia.
  now rewrite split_from_skip.
Qed.

Lemma unmatched_append (sep a1 a2 rest : string) :
  unmatched sep a1 (a2 ++ rest) -> unmatched sep a2 rest ->
  unmatched sep (a1 ++ a2) rest.
Proof.
  intros H1 H2. induction a1 as [| c a1 IH]; cbn [unmatched String.append] in *.
  - exact H2.
  - destruct H1 as [Hp H1]. split; [| now apply IH].
    rewrite append_assoc. exact Hp.
Qed.

(** A stretch without the first character of [sep] has no match. *)
Lemma unmatched_free (c : ascii) (sep a rest : string) :
  mentions c a = false -> unmatched (String c sep) a rest.
Proof.
  induction a as [| d a IH]; cbn [unmatched String.append mentions]; [easy |].
  intros H. apply orb_false_elim in H. destruct H as [Hcd Ha].
  split; [| now apply IH].
  rewrite prefix_cons. destruct (ascii_dec c d) as [-> | _]; [| reflexivity].
  now rewrite Ascii.eqb_refl in Hcd.
Qed.

(** *** What [startsWith] and [includes] decide *)

Lemma prefix_spec (p s : string) :
  String.prefix p s = true <-> exists post, s = p ++ post.
Proof.
  revert s. induction p as [| c p IH]; intros s.
  - rewrite prefix_nil. split; [intros _; exists s; reflexivity | reflexivity].
  - destruct s as [| d s].
    + split; [discriminate | intros (post & H); discriminate].
    + rewrite prefix_cons. destruct (ascii_dec c d) as [<- | Hne].
      * rewrite IH. split; intros (post & H); exists post.
        -- cbn. now rewrite H.
        -- cbn in H. now injection H.
      * split; [discriminate |].
        intros (post & H). cbn in H. injection H as Hc _. congruence.
Qed.

Definition contains (s sub : string) : Prop :=
  exists pre post, s = pre ++ sub ++ post.

Lemma includes_nil (sub : string) : includes "" sub = String.prefix sub "" || false.
Proof. reflexivity. Qed.

Lemma includes_cons (c : ascii) (s sub : string) :
  includes (String c s) sub = String.prefix sub (String c s) || includes s sub.
Proof. reflexivity. Qed.

Lemma includes_spec (s sub : string) : includes s sub = true <-> contains s sub.
Proof.
  unfold contains. induction s as [| c s IH].
  - rewrite includes_nil, orb_false_r, prefix_spec. split.
    + intros (post & H). exists "", post. exact H.
    + intros (pre & post & H). destruct pre; cbn in H.
      * exists post. exact H.
      * discriminate.
  - rewrite includes_cons, orb_true_iff, prefix_spec, IH. split.
    + intros [(post & H) | (pre & post & H)].
      * exists "", post. exact H.
      * exists (String c pre), post. cbn. now rewrite H.
    + intros (pre & post & H). destruct pre as [| d pre]; cbn in H.
      * left. exists post. exact H.
      * right. injection H as _ H. exists pre, post. exact H.
Qed.

End JsFacts.

(** ** urlEncryption.ts: the padding loop never exits *)

Module UrlEncryptionFacts.
Import Js UrlEncryption.

(** The hash of the seed of chat id 1, step by step as the source computes
    it, and the largest hash there is. *)
Example hash_chars_seed_1 : hash_chars "1_chatconnect_2024_secure_v2" 0 = -1453005344.
Proof. reflexivity. Qed.

Example simpleHash_seed_1 : simpleHash "1_chatconnect_2024_secure_v2" = "o12y3k".
Proof. reflexivity. Qed.

(** The first strings the padding loop goes through for chat id 1. *)
Example pad_loop_first_strings :
  let seed := "1_chatconnect_2024_secure_v2" in
  simpleHash ("o12y3k" ++ seed) = "9mmo9t" /\ simpleHash ("9mmo9t" ++ seed) = "fyvrnz".
Proof. split; reflexivity. Qed.

Example encryptChatId_1_bound_100 : encryptChatId 100 (IdNumber 1) = OutOfFuel.
Proof. vm_compute. reflexivity. Qed.

Example toString36_max : toString36 (2 ^ 31) = "zik0zk".
Proof. reflexivity. Qed.

Example to_int32_wraps : to_int32 (2 ^ 31) = - 2 ^ 31 /\ to_int32 (2 ^ 32 + 5) = 5.
Proof. split; reflexivity. Qed.

Definition int32 (z : Z) : Prop := - 2 ^ 31 <= z < 2 ^ 31.

Lemma to_int32_range (z : Z) : int32 (to_int32 z).
Proof.
  unfold int32, to_int32.
  pose proof (Z.mod_pos_bound z (2 ^ 32) ltac:(lia)) as Hm.
  destruct (2 ^ 31 <=? z mod 2 ^ 32) eqn:E.
  - apply Z.leb_le in E. lia.
  - apply Z.leb_gt in E. lia.
Qed.

(** [hash & hash] is the conversion of [hash] to a 32-bit integer. *)
Lemma and32_diag (z : Z) : and32 z z = to_int32 z.
Proof. unfold and32. apply Z.land_diag. Qed.

Lemma hash_chars_range (str : string) :
  forall hash, int32 hash -> int32 (hash_chars str hash).
Proof.
  induction str as [| c rest IH]; intros hash Hh; simpl.
  - exact Hh.
  - apply IH. rewrite and32_diag. apply to_int32_range.
Qed.

Lemma hash_chars_abs_bound (str : string) : 0 <= Z.abs (hash_chars str 0) <= 2 ^ 31.
Proof.
  pose proof (hash_chars_range str 0 ltac:(unfold int32; lia)) as H.
  unfold int32 in H. lia.
Qed.

(** A number below [36 ^ k] is printed with at most [k] digits. *)
Lemma toString36_digits_length (fuel : nat) :
  forall (k : nat) (n : Z) (acc : string),
    0 <= n < 36 ^ Z.of_nat (S k) ->
    (String.length (toString36_digits fuel n acc) <= S k + String.length acc)%nat.
Proof.
  induction fuel as [| fuel IH]; intros k n acc Hn; simpl.
  - lia.
  - destruct (n / 36 =? 0) eqn:E.
    + simpl. lia.
    + apply Z.eqb_neq in E.
      destruct k as [| k].
      * exfalso. apply E. apply Z.div_small. simpl in Hn. lia.
      * specialize (IH k (n / 36) (String (digit36 (n mod 36)) acc)).
        simpl String.length in IH.
        assert (0 <= n / 36 < 36 ^ Z.of_nat (S k)) as Hq.
        { split; [apply Z.div_pos; lia |].
          apply Z.div_lt_upper_bound; [lia |].
          replace (Z.of_nat (S (S k))) with (Z.succ (Z.of_nat (S k))) in Hn by lia.
          rewrite Z.pow_succ_r in Hn by lia. lia. }
        specialize (IH Hq). lia.
Qed.

(** The hash is a 32-bit integer, so its base-36 form has at most six
    characters. *)
Lemma simpleHash_length (str : string) : (String.length (simpleHash str) <= 6)%nat.
Proof.
  unfold simpleHash, toString36.
  pose proof (hash_chars_abs_bound str) as Hb.
  set (h := Z.abs (hash_chars str 0)) in *.
  assert (0 <= h < 36 ^ Z.of_nat 6) as Hr.
  { change (36 ^ Z.of_nat 6) with 2176782336. change (2 ^ 31) with 2147483648 in Hb. lia. }
  pose proof (toString36_digits_length (S (Z.to_nat (Z.log2 h))) 5 h "" Hr) as Hlen.
  cbn [String.length] in Hlen. lia.
Qed.

(** *** [toString(36)] prints the number: [parseInt(_, 36)] reads it back *)

Lemma charCode_ascii_of_N (n : Z) :
  0 <= n < 256 -> charCode (ascii_of_N (Z.to_N n)) = n.
Proof.
  intros Hn. unfold charCode.
  rewrite N_ascii_embedding by lia. lia.
Qed.

Lemma charCode_digit36 (d : Z) :
  0 <= d < 36 ->
  charCode (digit36 d) = if d <? 10 then 48 + d else 87 + d.
Proof.
  intros Hd. unfold digit36.
  destruct (d <? 10); apply charCode_ascii_of_N; lia.
Qed.

Lemma digit_value_digit36 (d : Z) : 0 <= d < 36 -> digit_value (digit36 d) = Some d.
Proof.
  intros Hd. unfold digit_value. rewrite charCode_digit36 by exact Hd.
  destruct (d <? 10) eqn:E.
  - apply Z.ltb_lt in E.
    replace ((48 <=? 48 + d) && (48 + d <=? 57)) with true
      by (symmetry; apply andb_true_intro; split; apply Z.leb_le; lia).
    f_equal. lia.
  - apply Z.ltb_ge in E.
    replace ((48 <=? 87 + d) && (87 + d <=? 57)) with false
      by (symmetry; apply andb_false_intro2; apply Z.leb_gt; lia).
    replace ((97 <=? 87 + d) && (87 + d <=? 122)) with true
      by (symmetry; apply andb_true_intro; split; apply Z.leb_le; lia).
    f_equal. lia.
Qed.

Lemma parse_digits_digit36 (d : Z) (rest : string) (acc : option Z) :
  0 <= d < 36 ->
  parse_digits 36 (String (digit36 d) rest) acc =
  parse_digits 36 rest (Some (match acc with Some a => a * 36 + d | None => d end)).
Proof.
  intros Hd. cbn [parse_digits]. rewrite digit_value_digit36 by exact Hd.
  replace (d <? 36) with true by (symmetry; apply Z.ltb_lt; lia).
  reflexivity.
Qed.

Lemma toString36_digits_step (fuel : nat) (n : Z) (acc : string) :
  toString36_digits (S fuel) n acc =
  if n / 36 =? 0 then String (digit36 (n mod 36)) acc
  else toString36_digits fuel (n / 36) (String (digit36 (n mod 36)) acc).
Proof. reflexivity. Qed.

(** With fuel for all its digits, the digits of [n] are put in front of
    [acc] and read back as [n]. *)
Lemma parse_toString36_digits (fuel : nat) :
  forall (n : Z) (acc : string),
    0 <= n < 36 ^ Z.of_nat (S fuel) ->
    parse_digits 36 (toString36_digits (S fuel) n acc) None =
    parse_digits 36 acc (Some n).
Proof.
  induction fuel as [| fuel IH]; intros n acc Hn;
    rewrite toString36_digits_step;
    pose proof (Z.mod_pos_bound n 36 ltac:(lia)) as Hm;
    pose proof (Z.div_mod n 36 ltac:(lia)) as Hdm;
    destruct (n / 36 =? 0) eqn:E.
  - apply Z.eqb_eq in E.
    rewrite parse_digits_digit36 by exact Hm. do 2 f_equal. lia.
  - apply Z.eqb_neq in E. exfalso. apply E. apply Z.div_small.
    change (36 ^ Z.of_nat 1) with 36 in Hn. lia.
  - apply Z.eqb_eq in E.
    rewrite parse_digits_digit36 by exact Hm. do 2 f_equal. lia.
  - rewrite IH.
    + rewrite parse_digits_digit36 by exact Hm. do 2 f_equal. lia.
    + split; [apply Z.div_pos; lia |].
      apply Z.div_lt_upper_bound; [lia |].
      replace (Z.of_nat (S (S fuel))) with (Z.succ (Z.of_nat (S fuel))) in Hn by lia.
      rewrite Z.pow_succ_r in Hn by lia. lia.
Qed.

Lemma toString36_fuel (n : Z) : 0 <= n -> 0 <= n < 36 ^ Z.of_nat (S (Z.to_nat (Z.log2 n))).
Proof.
  intros Hn. split; [exact Hn |].
  pose proof (Z.log2_nonneg n) as Hl.
  replace (Z.of_nat (S (Z.to_nat (Z.log2 n)))) with (Z.succ (Z.log2 n)) by lia.
  assert (n < 2 ^ Z.succ (Z.log2 n)) as H2.
  { destruct (Z.eq_dec n 0) as [-> | Hne].
    - reflexivity.
    - apply Z.log2_spec. lia. }
  assert (2 ^ Z.succ (Z.log2 n) <= 36 ^ Z.succ (Z.log2 n)) as H36.
  { apply Z.pow_le_mono_l. lia. }
  lia.
Qed.

(** The first character printed is a digit. *)
Lemma toString36_digits_head (fuel : nat) :
  forall (n : Z) (acc : string),
    exists d rest, 0 <= d < 36 /\
      toString36_digits (S fuel) n acc = String (digit36 d) rest.
Proof.
  induction fuel as [| fuel IH]; intros n acc; rewrite toString36_digits_step.
  - pose proof (Z.mod_pos_bound n 36 ltac:(lia)) as Hm.
    destruct (n / 36 =? 0); eauto.
  - pose proof (Z.mod_pos_bound n 36 ltac:(lia)) as Hm.
    destruct (n / 36 =? 0); eauto.
Qed.

Lemma digit36_plain (d : Z) :
  0 <= d < 36 ->
  is_whitespace (digit36 d) = false /\
  Ascii.eqb (digit36 d) "-" = false /\
  Ascii.eqb (digit36 d) "+" = false.
Proof.
  intros Hd.
  pose proof (charCode_digit36 d Hd) as Hc.
  assert (48 <= charCode (digit36 d)) as Hlow.
  { rewrite Hc. destruct (d <? 10); lia. }
  split; [| split].
  - unfold is_whitespace.
    repeat (apply orb_false_intro).
    + apply andb_false_intro2. apply Z.leb_gt. lia.
    + apply Z.eqb_neq. lia.
    + apply Z.eqb_neq. rewrite Hc. destruct (d <? 10) eqn:E; [apply Z.ltb_lt in E |]; lia.
  - apply Ascii.eqb_neq. intros Heq. rewrite Heq in Hlow. vm_compute in Hlow. congruence.
  - apply Ascii.eqb_neq. intros Heq. rewrite Heq in Hlow. vm_compute in Hlow. congruence.
Qed.

(** [parseInt(n.toString(36), 36) = n] for every non-negative integer. *)
Lemma parseInt_toString36 (n : Z) : 0 <= n -> parseInt (toString36 n) 36 = Some n.
Proof.
  intros Hn. unfold parseInt, toString36.
  destruct (toString36_digits_head (Z.to_nat (Z.log2 n)) n "") as (d & rest & Hd & Hhead).
  destruct (digit36_plain d Hd) as (Hws & Hminus & Hplus).
  pose proof (parse_toString36_digits _ n "" (toString36_fuel n Hn)) as Hparse.
  rewrite Hhead in *.
  cbn [trim_start]. rewrite Hws.
  cbn [strip_sign]. rewrite Hminus, Hplus.
  cbn -[parse_digits]. rewrite Hparse. cbn. f_equal. destruct n; reflexivity.
Qed.

Lemma pad_loop_step (fuel : nat) (seed encrypted : string) :
  pad_loop (S fuel) seed encrypted =
  if (String.length encrypted <? 16)%nat
  then pad_loop fuel seed (simpleHash (encrypted ++ seed))
  else Done encrypted.
Proof. reflexivity. Qed.

(** Started on a string shorter than 16 characters, the loop is still
    running when any bound on its iterations is reached. *)
Lemma pad_loop_runs_on (fuel : nat) :
  forall seed encrypted : string,
    (String.length encrypted < 16)%nat ->
    pad_loop fuel seed encrypted = OutOfFuel.
Proof.
  induction fuel as [| fuel IH]; intros seed encrypted Hlen.
  - reflexivity.
  - rewrite pad_loop_step.
    destruct (String.length encrypted <? 16)%nat eqn:E.
    + apply IH. pose proof (simpleHash_length (encrypted ++ seed)). lia.
    + apply Nat.ltb_ge in E. lia.
Qed.

(** A result of the loop does not depend on the bound: with a larger bound
    the same string is returned. Reaching every bound is the only way not to
    return. *)
Lemma pad_loop_bound_irrelevant (fuel : nat) :
  forall (seed encrypted result : string),
    pad_loop fuel seed encrypted = Done result ->
    pad_loop (S fuel) seed encrypted = Done result.
Proof.
  induction fuel as [| fuel IH]; intros seed encrypted result H.
  - discriminate H.
  - rewrite pad_loop_step in *.
    destruct (String.length encrypted <? 16)%nat; [apply IH |]; exact H.
Qed.

Lemma generateStableId_runs_on (fuel : nat) (chatId : string) :
  generateStableId fuel chatId = OutOfFuel.
Proof.
  unfold generateStableId.
  rewrite pad_loop_runs_on; [reflexivity |].
  pose proof (simpleHash_length (chatId ++ "_" ++ ENCRYPTION_KEY)). lia.
Qed.

Lemma encryptChatId_runs_on (fuel : nat) (chatId : ChatId) :
  encryptChatId fuel chatId = OutOfFuel.
Proof. unfold encryptChatId. apply generateStableId_runs_on. Qed.

Lemma brute_force_step (fuel count : nat) (i : Z) (encryptedId : string) :
  brute_force fuel (S count) i encryptedId =
  run_bind (encryptChatId fuel (IdNumber i)) (fun testEncrypted =>
    if String.eqb testEncrypted encryptedId
    then Done (Some i)
    else brute_force fuel count (i + 1) encryptedId).
Proof. reflexivity. Qed.

Lemma brute_force_runs_on (fuel count : nat) (i : Z) (encryptedId : string) :
  brute_force fuel (S count) i encryptedId = OutOfFuel.
Proof. rewrite brute_force_step, encryptChatId_runs_on. reflexivity. Qed.

Lemma decode_attempt_cases (fuel : nat) (encryptedId : string) :
  decode_attempt fuel encryptedId = OutOfFuel \/
  decode_attempt fuel encryptedId = Done None.
Proof.
  unfold decode_attempt.
  destruct (parseInt encryptedId 36) as [decoded |]; [| now right].
  destruct ((0 <? decoded) && (decoded <? 1000000)); [| now right].
  left. rewrite encryptChatId_runs_on. reflexivity.
Qed.

Lemma decryptChatId_runs_on (fuel : nat) (encryptedId : string) :
  decryptChatId fuel encryptedId = OutOfFuel.
Proof.
  unfold decryptChatId.
  destruct (decode_attempt_cases fuel encryptedId) as [-> | ->]; unfold run_bind.
  - reflexivity.
  - assert (exists count, Z.to_nat 10000 = S count) as [count ->].
    { exists (Nat.pred (Z.to_nat 10000)). lia. }
    apply brute_force_runs_on.
Qed.

(** *** What the last line of [generateStableId] would return *)

Fixpoint all_alnum (s : string) : bool :=
  match s with
  | EmptyString => true
  | String c rest => is_alnum c && all_alnum rest
  end.

Lemma substring_length (n : nat) :
  forall s : string, (n <= String.length s)%nat -> String.length (substring 0 n s) = n.
Proof.
  induction n as [| n IH]; intros s Hn.
  - destruct s; reflexivity.
  - destruct s as [| c s]; cbn [String.length] in Hn; [lia |].
    cbn [substring String.length]. f_equal. apply IH. lia.
Qed.

Lemma replace_non_alnum_shape (s : string) :
  String.length (replace_non_alnum s) = String.length s /\
  all_alnum (replace_non_alnum s) = true.
Proof.
  induction s as [| c s [IHlen IHall]]; cbn [replace_non_alnum String.length all_alnum].
  - split; reflexivity.
  - split; [now rewrite IHlen |].
    rewrite IHall, andb_true_r. destruct (is_alnum c) eqn:E; [exact E | reflexivity].
Qed.

(** Had the loop handed over a string of 16 characters or more, the result
    would be 16 alphanumeric characters: the defect is in the loop alone. *)
Lemma generateStableId_last_line (encrypted : string) :
  (16 <= String.length encrypted)%nat ->
  String.length (replace_non_alnum (substring 0 16 encrypted)) = 16%nat /\
  all_alnum (replace_non_alnum (substring 0 16 encrypted)) = true.
Proof.
  intros Hlen. destruct (replace_non_alnum_shape (substring 0 16 encrypted)) as [Hl Ha].
  split; [| exact Ha]. rewrite Hl. now apply substring_length.
Qed.

(** C8, as the code behaves: for every chat id, number or string, and every
    bound on the iterations of the padding loop of [generateStableId],
    [encryptChatId] reaches the bound with the loop still running. The loop
    waits for a string of 16 characters, and [simpleHash] never returns more
    than six; so [encryptChatId] returns no id at all. *)
Theorem encryptChatId_never_returns (fuel : nat) (chatId : ChatId) :
  encryptChatId fuel chatId = OutOfFuel.
Proof. apply encryptChatId_runs_on. Qed.

(** C9, as the code behaves: for every bound on the iterations of the
    padding loop, [decryptChatId] returns nothing on any string, and the
    round trip [decryptChatId(encryptChatId(n))] returns nothing for any
    integer [n]: both reach the bound inside [generateStableId]. *)
Theorem decrypt_encrypt_never_returns (fuel : nat) :
  (forall n : Z,
     run_bind (encryptChatId fuel (IdNumber n)) (decryptChatId fuel) = OutOfFuel) /\
  (forall encryptedId : string, decryptChatId fuel encryptedId = OutOfFuel).
Proof.
  split.
  - intros n. rewrite encryptChatId_runs_on. reflexivity.
  - intros encryptedId. apply decryptChatId_runs_on.
Qed.

End UrlEncryptionFacts.

(** ** cookies.ts: the token is handed out only for a live session *)

Module CookiesFacts.
Import Js Cookies JsFacts.

#[local] Arguments String.append : simpl nomatch.

(** The session as the claim describes it, read on the jar itself: the
    jar holds the cookie [token] with the value [token], it holds the cookie
    [lastActivity], and the number that cookie gives is less than two days
    before [now]. *)
Definition session_as_claimed (jar : Jar) (now : Z) (token : string) : Prop :=
  In ("token", token) jar /\
  exists timestamp lastActivity,
    In ("lastActivity", timestamp) jar /\
    parseInt timestamp 0 = Some lastActivity /\
    now - lastActivity < 2 * 24 * 60 * 60 * 1000.

(** The session that the code accepts: as claimed, with a token that is not
    empty and a last activity other than 0. *)
Definition session_live (jar : Jar) (now : Z) (token : string) : Prop :=
  In ("token", token) jar /\ token <> "" /\
  exists timestamp lastActivity,
    In ("lastActivity", timestamp) jar /\
    parseInt timestamp 0 = Some lastActivity /\
    lastActivity <> 0 /\
    now - lastActivity < 2 * 24 * 60 * 60 * 1000.

Example getCookie_examples :
  let doc := Some [("token", "abc"); ("lastActivity", "1700000000000")] in
  document_cookie [("token", "abc"); ("lastActivity", "1700000000000")]
    = "token=abc; lastActivity=1700000000000" /\
  getCookie "token" doc = Some "abc" /\
  getCookie "lastActivity" doc = Some "1700000000000" /\
  getCookie "Activity" doc = None /\
  getCookie "token" (Some [("token", "")]) = None /\
  getCookie "token" None = None.
Proof. repeat split; reflexivity. Qed.

(** *** The text of [document.cookie] *)

Definition entry (c : string * string) : string := "; " ++ cookie_pair c.

Fixpoint entries (jar : Jar) : string :=
  match jar with
  | [] => ""
  | c :: rest => entry c ++ entries rest
  end.

Lemma document_cookie_entries (c : string * string) (jar : Jar) :
  "; " ++ document_cookie (c :: jar) = entries (c :: jar).
Proof.
  revert c. induction jar as [| d jar IH]; intros c.
  - cbn [entries]. unfold entry, document_cookie. cbn [map String.concat].
    now rewrite !append_empty_r.
  - specialize (IH d). unfold document_cookie in *.
    cbn [map String.concat entries] in *.
    rewrite <- IH. unfold entry. now rewrite !append_assoc.
Qed.

Lemma entries_app (pre post : Jar) :
  entries (pre ++ post)%list = entries pre ++ entries post.
Proof.
  induction pre as [| c pre IH]; cbn [entries app String.append]; [reflexivity |].
  now rewrite IH, append_assoc.
Qed.

(** The separator [getCookie] splits at. *)
Definition separator (name : string) : string := "; " ++ name ++ "=".

Lemma entries_insert (pre post : Jar) (name v : string) :
  entries (pre ++ (name, v) :: post)%list =
  entries pre ++ separator name ++ v ++ entries post.
Proof.
  rewrite entries_app. cbn [entries]. unfold entry, separator, cookie_pair. cbn [fst snd].
  now rewrite !append_assoc.
Qed.

(** What a browser keeps: no semicolon in a name or a value, no equals sign
    in a name, and one cookie per name. *)
Definition simple_name (name : string) : Prop :=
  mentions ";" name = false /\ mentions "=" name = false.

Definition well_formed_cookie (c : string * string) : Prop :=
  simple_name (fst c) /\ mentions ";" (snd c) = false.

Definition well_formed (jar : Jar) : Prop :=
  Forall well_formed_cookie jar /\ List.NoDup (map fst jar).

(** Every cookie of the jar has a name: a browser lists a cookie without a
    name by its value alone. *)
Definition named (jar : Jar) : Prop := Forall (fun c => fst c <> "") jar.

Lemma prefix_name (name : string) :
  forall n t,
    mentions "=" name = false -> mentions "=" n = false ->
    String.prefix (name ++ "=") (n ++ "=" ++ t) = true -> name = n.
Proof.
  induction name as [| c name IH]; intros n t Hname Hn Hp;
    destruct n as [| d n]; cbn [String.append mentions] in *.
  - reflexivity.
  - rewrite prefix_cons in Hp. apply orb_false_elim in Hn. destruct Hn as [Hd _].
    destruct (ascii_dec "=" d) as [<- | _]; [| discriminate].
    now rewrite Ascii.eqb_refl in Hd.
  - rewrite prefix_cons in Hp. apply orb_false_elim in Hname. destruct Hname as [Hc _].
    destruct (ascii_dec c "=") as [-> | _]; [| discriminate].
    now rewrite Ascii.eqb_refl in Hc.
  - rewrite prefix_cons in Hp.
    apply orb_false_elim in Hname. apply orb_false_elim in Hn.
    destruct (ascii_dec c d) as [<- | _]; [| discriminate].
    f_equal. apply (IH n t); tauto.
Qed.

Lemma unmatched_entry (name : string) (c : string * string) (rest : string) :
  simple_name name -> well_formed_cookie c -> name <> fst c ->
  unmatched (separator name) (entry c) rest.
Proof.
  intros [_ Hname] [[Hn1 Hn2] Hv] Hne. destruct c as [n v]. cbn [fst snd] in *.
  unfold separator, entry, cookie_pair. cbn [fst snd String.append unmatched].
  split.
  - rewrite !prefix_cons.
    destruct (ascii_dec ";" ";") as [_ | Hd]; [| congruence].
    destruct (ascii_dec " " " ") as [_ | Hd]; [| congruence].
    match goal with |- ?b = false => destruct b eqn:Hp; [| reflexivity] end.
    exfalso. apply Hne. rewrite append_assoc in Hp.
    now apply (prefix_name name n (v ++ rest)) in Hp.
  - apply (unmatched_free ";" (String " " (name ++ "=")) (String " " (n ++ "=" ++ v)) rest).
    cbn [mentions]. rewrite !mentions_append, Hn1, Hv. reflexivity.
Qed.

Lemma unmatched_entries (name : string) (jar : Jar) :
  forall rest,
    simple_name name -> Forall well_formed_cookie jar -> ~ In name (map fst jar) ->
    unmatched (separator name) (entries jar) rest.
Proof.
  induction jar as [| c jar IH]; intros rest Hname Hwf Hout; cbn [entries].
  - exact I.
  - inversion Hwf as [| ? ? Hc Hjar]; subst. cbn [map In] in Hout.
    apply unmatched_append.
    + apply unmatched_entry; auto.
    + apply IH; auto.
Qed.

(** *** [getCookie] reads the jar *)

Lemma getCookie_absent (name : string) (jar : Jar) :
  simple_name name -> well_formed jar -> ~ In name (map fst jar) ->
  getCookie name (Some jar) = None.
Proof.
  intros Hname [Hwf _] Hout. unfold getCookie, split.
  fold (separator name).
  assert (exists text, "; " ++ document_cookie jar = text /\
                       unmatched (separator name) text "") as (text & -> & Hun).
  { destruct jar as [| c jar].
    - exists "; ". split; [reflexivity |].
      unfold separator. cbn [String.append unmatched]. split; [| split; [| exact I]].
      + rewrite !prefix_cons.
        destruct (ascii_dec ";" ";"); [| congruence].
        destruct (ascii_dec " " " "); [| congruence].
        destruct name; reflexivity.
      + reflexivity.
    - exists (entries (c :: jar)). split; [apply document_cookie_entries |].
      now apply unmatched_entries. }
  rewrite <- (append_empty_r text) at 1.
  rewrite split_from_unmatched by exact Hun. reflexivity.
Qed.

Lemma split_semicolon_head (v : string) (post : Jar) :
  mentions ";" v = false ->
  head (split (v ++ entries post) ";") = Some v.
Proof.
  intros Hv. unfold split.
  rewrite split_from_unmatched by now apply unmatched_free.
  destruct post as [| c post]; cbn [entries].
  - reflexivity.
  - unfold entry. cbn [String.append]. rewrite split_from_cons, prefix_cons.
    destruct (ascii_dec ";" ";"); [| congruence]. now rewrite prefix_nil.
Qed.

Lemma getCookie_present (name v : string) (jar : Jar) :
  simple_name name -> well_formed jar -> In (name, v) jar ->
  getCookie name (Some jar) = if String.eqb v "" then None else Some v.
Proof.
  intros Hname [Hwf Hdup] Hin.
  apply in_split in Hin. destruct Hin as (pre & post & ->).
  rewrite map_app in Hdup. cbn [map fst] in Hdup.
  pose proof (NoDup_remove_2 _ _ _ Hdup) as Hout.
  rewrite in_app_iff in Hout.
  apply Forall_app in Hwf. destruct Hwf as [Hpre Hpost].
  inversion Hpost as [| ? ? [_ Hv] Hpost']; subst. cbn [snd] in Hv.
  assert ("; " ++ document_cookie (pre ++ (name, v) :: post)%list =
          entries pre ++ separator name ++ v ++ entries post) as Htext.
  { rewrite <- entries_insert. destruct pre; apply document_cookie_entries. }
  assert (split (entries pre ++ separator name ++ v ++ entries post) (separator name) =
          [entries pre; v ++ entries post]) as Hparts.
  { unfold split.
    rewrite split_from_unmatched by (apply unmatched_entries; auto).
    rewrite split_from_match by (unfold separator; discriminate).
    rewrite <- (append_empty_r (v ++ entries post)) at 1.
    rewrite split_from_unmatched; [reflexivity |].
    apply unmatched_append.
    - unfold separator. cbn [String.append]. now apply unmatched_free.
    - apply unmatched_entries; auto. }
  unfold getCookie. fold (separator name). rewrite Htext, Hparts.
  cbn [length Nat.eqb List.last].
  rewrite split_semicolon_head by exact Hv.
  destruct v; reflexivity.
Qed.

Lemma filter_names (f : string * string -> bool) (jar : Jar) (n : string) :
  In n (map fst (List.filter f jar)) -> In n (map fst jar).
Proof.
  rewrite !in_map_iff. intros (c & Hc & Hin).
  apply filter_In in Hin. exists c. tauto.
Qed.

Lemma deleteCookie_well_formed (name : string) (jar : Jar) :
  well_formed jar ->
  well_formed (List.filter (fun c => negb (String.eqb (fst c) name)) jar).
Proof.
  intros [Hwf Hdup]. split.
  - apply List.Forall_forall. intros c Hin. apply filter_In in Hin.
    rewrite List.Forall_forall in Hwf. now apply Hwf.
  - induction jar as [| c jar IH]; cbn [List.filter map] in *; [constructor |].
    inversion Hdup as [| ? ? Hout Hdup']; subst.
    inversion Hwf as [| ? ? _ Hwf']; subst.
    destruct (negb (String.eqb (fst c) name)); cbn [map]; [| now apply IH].
    constructor; [| now apply IH].
    intros Hin. apply Hout. now apply filter_names in Hin.
Qed.

Lemma deleteCookie_name_gone (name : string) (jar : Jar) :
  ~ In name (map fst (List.filter (fun c => negb (String.eqb (fst c) name)) jar)).
Proof.
  rewrite in_map_iff. intros (c & Hc & Hin). apply filter_In in Hin.
  destruct Hin as [_ Hne]. rewrite Hc, String.eqb_refl in Hne. discriminate.
Qed.

(** After [clearSession], [getCookie] finds neither cookie. *)
Lemma clearSession_unread (jar : Jar) :
  well_formed jar ->
  getCookie "token" (clearSession (Some jar)) = None /\
  getCookie "lastActivity" (clearSession (Some jar)) = None.
Proof.
  intros Hwf. unfold clearSession, deleteCookie. cbn [option_map].
  pose proof (deleteCookie_well_formed "token" jar Hwf) as Hwf1.
  pose proof (deleteCookie_well_formed "lastActivity" _ Hwf1) as Hwf2.
  split; apply getCookie_absent; try exact Hwf2; try (split; reflexivity).
  - intros Hin. apply filter_names in Hin.
    now apply deleteCookie_name_gone in Hin.
  - apply deleteCookie_name_gone.
Qed.

(** On a well-formed jar [getCookie] is the lookup of the name, an empty
    value read as no cookie. *)
Lemma getCookie_lookup (name : string) (jar : Jar) :
  simple_name name -> well_formed jar ->
  getCookie name (Some jar) =
  match List.find (fun c => String.eqb (fst c) name) jar with
  | Some c => if String.eqb (snd c) "" then None else Some (snd c)
  | None => None
  end.
Proof.
  intros Hname Hwf.
  destruct (List.find (fun c => String.eqb (fst c) name) jar) as [[n v] |] eqn:Hfind.
  - apply find_some in Hfind. destruct Hfind as [Hin Heq]. cbn [fst snd] in *.
    apply String.eqb_eq in Heq. subst n. now apply getCookie_present.
  - apply getCookie_absent; try assumption.
    rewrite in_map_iff. intros ([n v] & Hn & Hin). cbn [fst] in Hn. subst n.
    pose proof (find_none _ _ Hfind _ Hin) as Hne. cbn [fst] in Hne.
    now rewrite String.eqb_refl in Hne.
Qed.

(** *** The session *)

Lemma maxInactivity_value : maxInactivity = 172800000.
Proof. reflexivity. Qed.

(** What [isSessionValid] tests, read off its code. *)
Lemma isSessionValid_true (doc : Document) (now : Z) :
  isSessionValid doc now = true <->
  exists token lastActivity,
    getCookie "token" doc = Some token /\
    getLastActivity doc = Some lastActivity /\
    lastActivity <> 0 /\
    now - lastActivity < maxInactivity.
Proof.
  unfold isSessionValid. split.
  - destruct (getCookie "token" doc) as [token |]; [| discriminate].
    destruct (getLastActivity doc) as [lastActivity |]; [| discriminate].
    destruct (lastActivity =? 0) eqn:E; [discriminate |].
    intros Hlt. apply Z.eqb_neq in E. apply Z.ltb_lt in Hlt.
    exists token, lastActivity. auto.
  - intros (token & lastActivity & -> & -> & Hne & Hlt).
    apply Z.eqb_neq in Hne. rewrite Hne. apply Z.ltb_lt. exact Hlt.
Qed.

(** *** The session on the jar *)

Lemma session_names : simple_name "token" /\ simple_name "lastActivity".
Proof. repeat split; reflexivity. Qed.

(** What [getCookie] returns is in the jar. *)
Lemma getCookie_in_jar (name v : string) (jar : Jar) :
  simple_name name -> well_formed jar ->
  getCookie name (Some jar) = Some v -> In (name, v) jar /\ v <> "".
Proof.
  intros Hname Hjar Hget.
  destruct (List.in_dec String.string_dec name (map fst jar)) as [Hin | Hout].
  - apply in_map_iff in Hin. destruct Hin as ([n w] & Hn & Hin).
    cbn [fst] in Hn. subst n.
    rewrite (getCookie_present name w jar Hname Hjar Hin) in Hget.
    destruct (String.eqb_spec w "") as [| Hw]; [discriminate |].
    injection Hget as <-. auto.
  - rewrite (getCookie_absent name jar Hname Hjar Hout) in Hget. discriminate.
Qed.

Lemma getCookie_of_jar (name v : string) (jar : Jar) :
  simple_name name -> well_formed jar -> In (name, v) jar -> v <> "" ->
  getCookie name (Some jar) = Some v.
Proof.
  intros Hname Hjar Hin Hv. rewrite (getCookie_present name v jar Hname Hjar Hin).
  now destruct (String.eqb_spec v "").
Qed.

(** The test of the code is the live session on the jar. *)
Lemma isSessionValid_live (jar : Jar) (now : Z) :
  well_formed jar ->
  (isSessionValid (Some jar) now = true <-> exists token, session_live jar now token).
Proof.
  intros Hjar. destruct session_names as [Htoken Hactivity].
  rewrite isSessionValid_true. rewrite maxInactivity_value.
  unfold session_live, getLastActivity. split.
  - intros (token & lastActivity & Htok & Hlast & Hne & Hlt).
    apply (getCookie_in_jar _ _ _ Htoken Hjar) in Htok. destruct Htok as [Hin Hv].
    destruct (getCookie "lastActivity" (Some jar)) as [timestamp |] eqn:Hts;
      [| congruence].
    apply (getCookie_in_jar _ _ _ Hactivity Hjar) in Hts. destruct Hts as [Hin' _].
    exists token. split; [exact Hin |]. split; [exact Hv |].
    exists timestamp, lastActivity. auto.
  - intros (token & Hin & Hv & timestamp & lastActivity & Hin' & Hparse & Hne & Hlt).
    exists token, lastActivity.
    rewrite (getCookie_of_jar _ _ _ Htoken Hjar Hin Hv).
    rewrite (getCookie_of_jar _ _ _ Hactivity Hjar Hin');
      [auto | intros ->; discriminate Hparse].
Qed.

(** In a jar of distinct names the live session has one token. *)
Lemma session_live_token (jar : Jar) (now : Z) (token : string) :
  well_formed jar -> session_live jar now token ->
  getCookie "token" (Some jar) = Some token.
Proof.
  intros Hjar (Hin & Hv & _). destruct session_names as [Htoken _].
  now apply getCookie_of_jar.
Qed.

(** C10 as stated: where the jar holds both cookies and the last activity
    is less than two days old, [getAuthToken] returns the value of the token
    cookie. *)
Definition token_claim (jar : Jar) (now : Z) : Prop :=
  forall token,
    session_as_claimed jar now token -> snd (getAuthToken (Some jar) now) = Some token.

(** C10 fails as stated: a last activity of 0 is taken by the code for a
    missing one. One second past the origin of the clock, with the cookies
    token=abc and lastActivity=0, the session is valid in the words of the
    claim and [getAuthToken] clears it and returns null. *)
Lemma token_claim_fails_at_lastActivity_zero :
  ~ token_claim [("token", "abc"); ("lastActivity", "0")] 1000.
Proof.
  intros Hclaim.
  assert (session_as_claimed [("token", "abc"); ("lastActivity", "0")] 1000 "abc")
    as Hsession.
  { split; [cbn; auto |]. exists "0", 0. repeat split; cbn; auto. }
  specialize (Hclaim "abc" Hsession). vm_compute in Hclaim. discriminate Hclaim.
Qed.

(** C10, amended, on the cookies a browser keeps for the page (each with
    a name, the names distinct, no semicolon in a name or a value, no equals
    sign in a name):
    [getAuthToken] returns the value of the token cookie and leaves the
    cookies alone exactly when the jar holds a token cookie that is not
    empty and a lastActivity cookie from which [parseInt] reads a number
    other than 0 that is less than two days before [now]; in every other
    case it returns null and the jar loses the cookies of these two names
    and nothing else. It returns null whenever the last activity is two
    days old or more. On a clock that reads at least two days past its
    origin the last activity cannot be 0, and the token is returned for
    every session that is valid in the words of the claim and has a token
    that is not empty. On the server it returns null. *)
Theorem getAuthToken_live_session (jar : Jar) (now : Z) :
  well_formed jar -> named jar ->
  (forall token,
     session_live jar now token -> getAuthToken (Some jar) now = (Some jar, Some token)) /\
  (forall doc token,
     getAuthToken (Some jar) now = (doc, Some token) ->
     doc = Some jar /\ session_live jar now token) /\
  ((forall token, ~ session_live jar now token) ->
     exists jar',
       getAuthToken (Some jar) now = (Some jar', None) /\
       forall n v, In (n, v) jar' <-> In (n, v) jar /\ n <> "token" /\ n <> "lastActivity") /\
  (forall timestamp lastActivity,
     In ("lastActivity", timestamp) jar -> parseInt timestamp 0 = Some lastActivity ->
     2 * 24 * 60 * 60 * 1000 <= now - lastActivity ->
     snd (getAuthToken (Some jar) now) = None) /\
  (maxInactivity <= now ->
   forall token,
     token <> "" -> session_as_claimed jar now token ->
     getAuthToken (Some jar) now = (Some jar, Some token)) /\
  getAuthToken None now = (None, None).
Proof.
  intros Hjar _.
  assert (Hreturn : forall token,
            session_live jar now token ->
            getAuthToken (Some jar) now = (Some jar, Some token)).
  { intros token Hlive. unfold getAuthToken.
    replace (isSessionValid (Some jar) now) with true
      by (symmetry; apply (isSessionValid_live jar now Hjar); now exists token).
    cbn [negb]. now rewrite (session_live_token jar now token Hjar Hlive). }
  split; [exact Hreturn |]. split; [| split; [| split; [| split]]].
  - intros doc token. unfold getAuthToken.
    destruct (isSessionValid (Some jar) now) eqn:E; cbn [negb]; [| discriminate].
    apply (isSessionValid_live jar now Hjar) in E. destruct E as (token' & Hlive).
    rewrite (session_live_token jar now token' Hjar Hlive).
    intros [= <- <-]. auto.
  - intros Hnone. unfold getAuthToken.
    destruct (isSessionValid (Some jar) now) eqn:E; cbn [negb].
    + apply (isSessionValid_live jar now Hjar) in E. destruct E as (token & Hlive). now destruct (Hnone token).
    + eexists. split; [reflexivity |].
      intros n v. rewrite !filter_In. cbn [fst].
      destruct (String.eqb_spec n "token"), (String.eqb_spec n "lastActivity");
        cbn [negb]; intuition congruence.
  - intros timestamp lastActivity Hin Hparse Hold. unfold getAuthToken.
    destruct (isSessionValid (Some jar) now) eqn:E; cbn [negb]; [| reflexivity].
    exfalso. apply (isSessionValid_live jar now Hjar) in E.
    destruct E as (token & _ & _ & timestamp' & lastActivity' & Hin' & Hparse' & _ & Hlt).
    destruct session_names as [_ Hactivity].
    assert (timestamp' <> "") as Hne by (intros ->; discriminate Hparse').
    pose proof (getCookie_of_jar _ _ _ Hactivity Hjar Hin' Hne) as Hget.
    rewrite (getCookie_present _ _ _ Hactivity Hjar Hin) in Hget.
    destruct (String.eqb timestamp ""); [discriminate |].
    injection Hget as ->. rewrite Hparse in Hparse'. injection Hparse' as ->. lia.
  - intros Hnow token Hv (Hin & timestamp & lastActivity & Hin' & Hparse & Hlt).
    apply Hreturn. rewrite maxInactivity_value in Hnow.
    split; [exact Hin |]. split; [exact Hv |].
    exists timestamp, lastActivity. repeat split; auto. lia.
  - reflexivity.
Qed.

Definition browser_after_login : Jar :=
  [("token", "abc"); ("lastActivity", "1700000000000")].

Lemma browser_after_login_well_formed :
  well_formed browser_after_login /\ named browser_after_login.
Proof.
  split; [split |].
  - repeat constructor.
  - repeat constructor; cbn; intuition discriminate.
  - repeat constructor; discriminate.
Qed.

Lemma getAuthToken_live_session_witness :
  getAuthToken (Some browser_after_login) 1700000000005
  = (Some browser_after_login, Some "abc").
Proof.
  destruct (getAuthToken_live_session browser_after_login 1700000000005
              (proj1 browser_after_login_well_formed)
              (proj2 browser_after_login_well_formed)) as (Hreturn & _).
  apply Hreturn.
  split; [cbn; auto |]. split; [discriminate |].
  exists "1700000000000", 1700000000000.
  split; [cbn; auto |]. split; [reflexivity |]. split; [discriminate | reflexivity].
Defined.

End CookiesFacts.

(** ** The settings page *)

Module SettingsFacts.
Import Js Cookies Settings JsFacts.

(** *** The add-server form *)

Definition requests_of (r : Document * PageState * list Request) : list Request := snd r.
Definition state_of (r : Document * PageState * list Request) : PageState := snd (fst r).

Lemma fetchMcpServers_requests (env : Env) (doc : Document) (s : PageState)
    (token : string) (body : ServerPayload) :
  ~ In (PostMcpServer token body) (requests_of (fetchMcpServers env doc s)).
Proof.
  unfold fetchMcpServers, requests_of.
  destruct (getAuthToken doc (now_refresh env)) as [doc1 [tok |]]; simpl.
  - intros [H | []]. discriminate.
  - intros [].
Qed.

(** Every create request of a run carries the payload built from the form. *)
Lemma handleAddMcpServer_payload (env : Env) (doc : Document) (s : PageState)
    (token : string) (body : ServerPayload) :
  In (PostMcpServer token body) (requests_of (handleAddMcpServer env doc s)) ->
  body = payload s /\
  exists doc1, getAuthToken doc (now_submit env) = (doc1, Some token).
Proof.
  unfold handleAddMcpServer.
  destruct (getAuthToken doc (now_submit env)) as [doc1 [tok |]]; [| intros []].
  destruct (_ && _); [intros [] |].
  assert (forall rest,
            ~ In (PostMcpServer token body) rest ->
            In (PostMcpServer token body)
               (PostMcpServer tok (payload (setError "" (setMcpServerLoading true s))) :: rest) ->
            body = payload s /\ exists doc1', (doc1, Some tok) = (doc1', Some token)) as Hhead.
  { intros rest Hrest [Heq | Hin]; [| contradiction].
    injection Heq as Htok Hbody. subst tok body. split; [reflexivity | eauto]. }
  destruct (post_outcome env); unfold requests_of; cbn [snd];
    try (apply (Hhead []); intros []).
  pose proof (fetchMcpServers_requests env doc1
                (setError "" (setMcpServerLoading true s)) token body) as Hfetch.
  destruct (fetchMcpServers env doc1 (setError "" (setMcpServerLoading true s)))
    as [[doc2 s2] requests].
  cbn [snd]. apply Hhead. exact Hfetch.
Qed.

(** C5 as stated, for one submission: a Pipedream URL without the prefix
    ends in the validation error with no request sent, and one with the
    prefix leads to the create request. *)
Definition pipedream_url_claim (env : Env) (doc : Document) (s : PageState) : Prop :=
  mcpServerType s = "pipedream" ->
  (startsWith (mcpServerUrl s) PIPEDREAM_PREFIX = false ->
     error (state_of (handleAddMcpServer env doc s)) = INVALID_PIPEDREAM_URL /\
     requests_of (handleAddMcpServer env doc s) = []) /\
  (startsWith (mcpServerUrl s) PIPEDREAM_PREFIX = true ->
     exists token, In (PostMcpServer token (payload s))
                      (requests_of (handleAddMcpServer env doc s))).

Definition signed_out : Document := Some [].

Definition quiet_env : Env :=
  {| now_submit := 1700000000000; now_refresh := 1700000000001;
     post_outcome := PostCreated; list_outcome := ListOk (Some []) |}.

Definition pipedream_form (url : string) : PageState :=
  {| mcpServers := []; mcpServerName := "Mail"; mcpServerType := "pipedream";
     mcpServerDescription := ""; mcpServerUrl := url;
     mcpServerLoading := false; mcpServersLoading := false;
     error := ""; oauthStatus := [] |}.

(** C5 fails as stated: with no session the handler returns before it
    validates, and a bad URL gets no validation error. *)
Lemma pipedream_url_claim_fails_signed_out :
  ~ pipedream_url_claim quiet_env signed_out (pipedream_form "http://example.com/hook").
Proof.
  intros Hclaim. destruct (Hclaim eq_refl) as [Hbad _].
  destruct (Hbad eq_refl) as [Herr _].
  vm_compute in Herr. discriminate Herr.
Qed.

(** C5, amended: when [getAuthToken] yields a token, a submission of type
    pipedream whose URL does not start with the prefix ends with the
    validation error, no request and the server list untouched, and one
    whose URL starts with the prefix sends the create request; when it
    yields no token the handler returns before validating, with no error
    message and no request. *)
Theorem handleAddMcpServer_pipedream_url (env : Env) (doc doc1 : Document)
    (s : PageState) (token : option string) :
  getAuthToken doc (now_submit env) = (doc1, token) ->
  mcpServerType s = "pipedream" ->
  match token with
  | Some tok =>
      (startsWith (mcpServerUrl s) PIPEDREAM_PREFIX = false ->
         error (state_of (handleAddMcpServer env doc s)) = INVALID_PIPEDREAM_URL /\
         mcpServers (state_of (handleAddMcpServer env doc s)) = mcpServers s /\
         requests_of (handleAddMcpServer env doc s) = []) /\
      (startsWith (mcpServerUrl s) PIPEDREAM_PREFIX = true ->
         exists rest,
           requests_of (handleAddMcpServer env doc s) = PostMcpServer tok (payload s) :: rest)
  | None =>
      handleAddMcpServer env doc s = (doc1, setError "" (setMcpServerLoading true s), [])
  end.
Proof.
  intros Hauth Htype. unfold handleAddMcpServer. rewrite Hauth.
  destruct token as [tok |]; [| reflexivity].
  cbn [mcpServerType mcpServerUrl setError setMcpServerLoading].
  rewrite Htype. cbn [String.eqb Ascii.eqb Bool.eqb andb].
  split; intros Hurl; rewrite Hurl; cbn [negb].
  - repeat split; reflexivity.
  - destruct (post_outcome env); unfold requests_of; cbn [snd]; eauto.
    destruct (fetchMcpServers env doc1 _) as [[doc2 s2] requests]. cbn [snd]. eauto.
Qed.

Definition signed_in : Document :=
  Some [("token", "abc"); ("lastActivity", "1700000000000")].

Lemma handleAddMcpServer_pipedream_url_witness :
  getAuthToken signed_in (now_submit quiet_env) = (signed_in, Some "abc") /\
  mcpServerType (pipedream_form "http://example.com/hook") = "pipedream" /\
  error (state_of (handleAddMcpServer quiet_env signed_in
                     (pipedream_form "http://example.com/hook"))) = INVALID_PIPEDREAM_URL.
Proof.
  assert (getAuthToken signed_in (now_submit quiet_env) = (signed_in, Some "abc")) as Hauth
    by reflexivity.
  split; [exact Hauth |]. split; [reflexivity |].
  apply (handleAddMcpServer_pipedream_url quiet_env signed_in signed_in
           (pipedream_form "http://example.com/hook") (Some "abc") Hauth eq_refl).
  reflexivity.
Defined.

(** The four types of the server configuration schema. *)
Definition schema_types : list string := ["custom"; "stdio"; "websocket"; "sse"].

(** C6: when the selected type is one of the options of the form, every
    create request the handler sends carries a config whose type is one of
    custom, stdio, websocket and sse and is not pipedream: for the pipedream
    option the config is type custom, transport http and the entered URL as
    uri; for any other option [t] the type and the transport are both [t],
    with the entered URL as uri. *)
Theorem handleAddMcpServer_config (env : Env) (doc : Document) (s : PageState)
    (token : string) (body : ServerPayload) :
  In (mcpServerType s) selectable_types ->
  In (PostMcpServer token body) (requests_of (handleAddMcpServer env doc s)) ->
  In (cfg_type (pl_config body)) schema_types /\
  cfg_type (pl_config body) <> "pipedream" /\
  cfg_uri (pl_config body) = Some (mcpServerUrl s) /\
  (mcpServerType s = "pipedream" ->
     cfg_type (pl_config body) = "custom" /\ cfg_transport (pl_config body) = "http") /\
  (mcpServerType s <> "pipedream" ->
     cfg_type (pl_config body) = mcpServerType s /\
     cfg_transport (pl_config body) = mcpServerType s).
Proof.
  intros Hsel Hreq.
  apply handleAddMcpServer_payload in Hreq. destruct Hreq as [-> _].
  unfold payload. cbn [pl_config cfg_type cfg_uri cfg_transport].
  unfold selectable_types in Hsel. cbn in Hsel.
  destruct Hsel as [<- | [<- | [<- | [<- | [<- | []]]]]]; cbn;
    (split; [tauto |]); (split; [discriminate |]); (split; [reflexivity |]);
    split; intros H; try (split; reflexivity); try discriminate H; try congruence.
Qed.

Definition stdio_form : PageState :=
  {| mcpServers := []; mcpServerName := "Files"; mcpServerType := "stdio";
     mcpServerDescription := "local files";
     mcpServerUrl := "npx -y @modelcontextprotocol/server-filesystem /srv";
     mcpServerLoading := false; mcpServersLoading := false;
     error := ""; oauthStatus := [] |}.

Lemma handleAddMcpServer_config_witness :
  In (mcpServerType stdio_form) selectable_types /\
  In (PostMcpServer "abc" (payload stdio_form))
     (requests_of (handleAddMcpServer quiet_env signed_in stdio_form)) /\
  cfg_type (pl_config (payload stdio_form)) <> "pipedream".
Proof.
  assert (In (mcpServerType stdio_form) selectable_types) as Hsel
    by (cbn; tauto).
  assert (In (PostMcpServer "abc" (payload stdio_form))
            (requests_of (handleAddMcpServer quiet_env signed_in stdio_form))) as Hreq
    by (left; reflexivity).
  split; [exact Hsel |]. split; [exact Hreq |].
  apply (handleAddMcpServer_config quiet_env signed_in stdio_form "abc"
           (payload stdio_form) Hsel Hreq).
Defined.

(** *** The OAuth controls of a server card *)

Definition uri_contains (server : MCPServer) (sub : string) : Prop :=
  exists uri, cfg_uri (srv_config server) = Some uri /\ contains uri sub.

Lemma uri_includes_spec (server : MCPServer) (sub : string) :
  uri_includes server sub = true <-> uri_contains server sub.
Proof.
  unfold uri_includes, uri_contains.
  destruct (cfg_uri (srv_config server)) as [uri |].
  - rewrite includes_spec. split.
    + intros H. exists uri. auto.
    + intros (uri' & Heq & H). injection Heq as <-. exact H.
  - split; [discriminate | intros (uri' & Heq & _); discriminate].
Qed.

(** The three outcomes of [provider], on the tests it makes. *)
Lemma provider_tests (server : MCPServer) :
  let p := uri_includes server "pipedream.net" in
  let gmail := uri_includes server "gmail" in
  let google := uri_includes server "google" in
  (provider server = Some "gmail" <-> p = true /\ gmail = true) /\
  (provider server = Some "google" <->
     ~ (p = true /\ gmail = true) /\ p = true /\ google = true) /\
  (provider server = None <->
     ~ (p = true /\ gmail = true) /\ ~ (p = true /\ google = true)).
Proof.
  unfold provider.
  destruct (uri_includes server "pipedream.net"),
           (uri_includes server "gmail"),
           (uri_includes server "google"); cbn; intuition congruence.
Qed.

(** The buttons of a card are those of its provider. *)
Lemma oauth_controls_provider (s : PageState) (server : MCPServer) (control : OAuthControl) :
  In control (oauth_controls s server) ->
  exists prov, provider server = Some prov /\
    (control = AuthenticateButton (srv_id server) prov \/ control = RevokeButton (srv_id server) prov).
Proof.
  unfold oauth_controls.
  destruct (provider server) as [prov |]; [| intros []].
  intros Hin. exists prov. split; [reflexivity |].
  destruct (List.find _ (oauthStatus s)) as [status |];
    [destruct (st_is_valid status) |];
    destruct Hin as [<- | []]; auto.
Qed.

Lemma oauth_controls_no_provider (s : PageState) (server : MCPServer) :
  provider server = None -> oauth_controls s server = [].
Proof. intros H. unfold oauth_controls. now rewrite H. Qed.

(** C7: the provider of a server is gmail exactly when its uri contains
    pipedream.net and gmail; it is google exactly when that is not the case
    and the uri contains pipedream.net and google; in every other case there
    is no provider, and then the card offers neither the authenticate nor
    the revoke button. Every button offered carries the provider inferred. *)
Theorem provider_by_substring (s : PageState) (server : MCPServer) :
  let gmail := uri_contains server "pipedream.net" /\ uri_contains server "gmail" in
  let google := uri_contains server "pipedream.net" /\ uri_contains server "google" in
  (provider server = Some "gmail" <-> gmail) /\
  (provider server = Some "google" <-> ~ gmail /\ google) /\
  (provider server = None <-> ~ gmail /\ ~ google) /\
  (provider server = None -> oauth_controls s server = []) /\
  (forall control, In control (oauth_controls s server) ->
     exists prov, provider server = Some prov /\
       (control = AuthenticateButton (srv_id server) prov \/
        control = RevokeButton (srv_id server) prov)).
Proof.
  cbv zeta. rewrite <- !uri_includes_spec.
  destruct (provider_tests server) as (Hgmail & Hgoogle & Hnone).
  split; [exact Hgmail |]. split; [exact Hgoogle |]. split; [exact Hnone |].
  split; [apply oauth_controls_no_provider | apply oauth_controls_provider].
Qed.

End SettingsFacts.

(** ** The confirmation broker: a record is consumed at most once *)

Module ConfirmationBrokerFacts.
Import ConfirmationBroker.

(** The record of [id] has left the pending status. *)
Definition consumed (id : string) (table : gmap string ConfirmationRecord) : Prop :=
  exists r, table !! id = Some r /\ status r <> pending.

Lemma Resolve_unknown (id : string) (a : Action) (now : Z)
    (table : gmap string ConfirmationRecord) :
  table !! id = None -> Resolve id a now table = (table, Err NotFound).
Proof. intros H. unfold Resolve. now rewrite H. Qed.

Lemma Resolve_past_expiry (id : string) (a : Action) (now : Z)
    (table : gmap string ConfirmationRecord) (r : ConfirmationRecord) :
  table !! id = Some r -> expiresAt r < now ->
  Resolve id a now table = (<[id := with_status expired r]> table, Err Expired).
Proof.
  intros H Hlt. unfold Resolve. rewrite H.
  apply Z.ltb_lt in Hlt. now rewrite Hlt.
Qed.

(** A success is the transition of a pending record, not past its expiry. *)
Lemma Resolve_ok (id : string) (a : Action) (now : Z)
    (table table' : gmap string ConfirmationRecord) (r' : ConfirmationRecord) :
  Resolve id a now table = (table', Ok r') ->
  exists r, table !! id = Some r /\ status r = pending /\ now <= expiresAt r /\
            r' = with_status (status_of a) r /\ table' = <[id := r']> table.
Proof.
  unfold Resolve. destruct (table !! id) as [r |] eqn:Hr; [| discriminate].
  destruct (expiresAt r <? now) eqn:E; [discriminate |].
  destruct (decide (status r = pending)) as [Hp | Hp]; [| discriminate].
  intros H. injection H as <- <-. apply Z.ltb_ge in E.
  exists r. auto.
Qed.

Lemma status_of_not_pending (a : Action) : status_of a <> pending.
Proof. destruct a; discriminate. Qed.

Lemma Resolve_consumed_fails (id : string) (a : Action) (now : Z)
    (table : gmap string ConfirmationRecord) :
  consumed id table -> is_ok (snd (Resolve id a now table)) = false.
Proof.
  intros (r & Hr & Hst). unfold Resolve. rewrite Hr.
  destruct (expiresAt r <? now); [reflexivity |].
  destruct (decide (status r = pending)); [contradiction | reflexivity].
Qed.

(** No call of [Resolve], on any id, brings a record back to pending. *)
Lemma Resolve_keeps_consumed (id id' : string) (a : Action) (now : Z)
    (table : gmap string ConfirmationRecord) :
  consumed id table -> consumed id (fst (Resolve id' a now table)).
Proof.
  intros (r & Hr & Hst). unfold Resolve.
  destruct (table !! id') as [r0 |] eqn:Hr0; [| exists r; auto].
  destruct (decide (id' = id)) as [-> | Hne].
  - assert (r0 = r) as -> by congruence.
    destruct (expiresAt r <? now); cbn [fst].
    + exists (with_status expired r). rewrite lookup_insert_eq. split; [reflexivity | discriminate].
    + destruct (decide (status r = pending)); [contradiction |]. exists r. auto.
  - assert (forall x, <[id' := x]> table !! id = Some r) as Hother.
    { intros x. rewrite lookup_insert_ne by exact Hne. exact Hr. }
    destruct (expiresAt r0 <? now); cbn [fst]; [exists r; auto |].
    destruct (decide (status r0 = pending)); cbn [fst]; exists r; auto.
Qed.

Lemma successes_consumed (id : string) (calls : list (string * Action * Z)) :
  forall table, consumed id table -> successes id calls table = 0%nat.
Proof.
  induction calls as [| [[id' a] now] rest IH]; intros table Hc; cbn [successes].
  - reflexivity.
  - pose proof (Resolve_keeps_consumed id id' a now table Hc) as Hkeep.
    pose proof (Resolve_consumed_fails id a now table Hc) as Hfail.
    destruct (String.eqb_spec id' id) as [-> | Hne].
    + destruct (Resolve id a now table) as [table' res]. cbn [fst snd] in *.
      rewrite Hfail. cbn. apply IH. exact Hkeep.
    + destruct (Resolve id' a now table) as [table' res]. cbn [fst snd] in *.
      cbn. apply IH. exact Hkeep.
Qed.

Lemma successes_at_most_one (id : string) (calls : list (string * Action * Z)) :
  forall table, (successes id calls table <= 1)%nat.
Proof.
  induction calls as [| [[id' a] now] rest IH]; intros table; cbn [successes].
  - lia.
  - destruct (Resolve id' a now table) as [table' res] eqn:HR.
    destruct (String.eqb_spec id' id) as [-> | Hne]; [| cbn; apply IH].
    destruct res as [r' | e]; [| cbn; apply IH].
    apply Resolve_ok in HR. destruct HR as (r & _ & _ & _ & -> & ->).
    rewrite successes_consumed; [cbn; lia |].
    exists (with_status (status_of a) r). rewrite lookup_insert_eq.
    split; [reflexivity | apply status_of_not_pending].
Qed.


Definition one_pending : gmap string ConfirmationRecord :=
  fst (Create "c-1" 1000 7 "email" "send an email to x" [1] ∅).

Definition confirmed_record : ConfirmationRecord :=
  {| confirmationId := "c-1"; userId := 7; intentKind := "email";
     originalMessage := "send an email to x"; candidateServers := [1];
     createdAt := 1000; expiresAt := 1300; status := confirmed |}.

Definition one_confirmed : gmap string ConfirmationRecord :=
  <["c-1" := confirmed_record]> ∅.


(** C1 as stated, for the record of one id: after a successful [Resolve],
    a second call fails AlreadyResolved whenever it comes. *)
Definition second_call_claim (id : string) (table : gmap string ConfirmationRecord)
  : Prop :=
  forall a now table' r',
    Resolve id a now table = (table', Ok r') ->
    forall a' now', snd (Resolve id a' now' table') = Err AlreadyResolved.


(** The two halves of the claim as stated cannot be had together by any
    broker, whatever the order of its tests: were every call on an unknown
    id to fail NotFound, every call past [expiresAt] to fail Expired and
    every call after a success to fail AlreadyResolved, no call could ever
    succeed. *)
Section AnyBroker.

Variable Table : Type.
Variable record_of : string -> Table -> option ConfirmationRecord.
Variable resolve :
  string -> Action -> Z -> Table -> Table * Result ConfirmationRecord ConfirmationError.

Definition claim_as_stated : Prop :=
  (forall id a now t,
     record_of id t = None -> snd (resolve id a now t) = Err NotFound) /\
  (forall id a now t r,
     record_of id t = Some r -> expiresAt r < now ->
     snd (resolve id a now t) = Err Expired) /\
  (forall id a now t t' r',
     resolve id a now t = (t', Ok r') ->
     forall a' now', snd (resolve id a' now' t') = Err AlreadyResolved).

Lemma claim_as_stated_never_succeeds :
  claim_as_stated -> forall id a now t, is_ok (snd (resolve id a now t)) = false.
Proof.
  intros (Hunknown & Hexpired & Hsecond) id a now t.
  destruct (resolve id a now t) as [t' [r' |]] eqn:HR; [| reflexivity].
  exfalso. destruct (record_of id t') as [r |] eqn:Hr.
  - pose proof (Hexpired id a (expiresAt r + 1) t' r Hr ltac:(lia)) as Hlate.
    rewrite (Hsecond id a now t t' r' HR a (expiresAt r + 1)) in Hlate.
    discriminate Hlate.
  - pose proof (Hunknown id a now t' Hr) as Hgone.
    rewrite (Hsecond id a now t t' r' HR a now) in Hgone. discriminate Hgone.
Qed.

End AnyBroker.

End ConfirmationBrokerFacts.

(** ** The OAuth token manager *)

Module OAuthTokenManagerFacts.
Import OAuthTokenManager.

Section Provider.

Variable exchange_code : string -> string -> Z -> option Grant.
Variable refresh_call : string -> string -> Z -> option Grant.

Local Abbreviation CompleteAuthorization := (CompleteAuthorization exchange_code).
Local Abbreviation GetValidToken := (GetValidToken refresh_call).
Local Abbreviation step := (step exchange_code refresh_call).
Local Abbreviation run_ops := (run_ops exchange_code refresh_call).

(** *** A state is used at most once *)

Lemma CompleteAuthorization_absent (code s : string) (now : Z) (m : Manager) :
  states m !! s = None -> CompleteAuthorization code s now m = (m, Err InvalidState).
Proof. intros H. unfold OAuthTokenManager.CompleteAuthorization. now rewrite H. Qed.

Lemma CompleteAuthorization_expired (code s : string) (now : Z) (m : Manager)
    (st : OAuthState) :
  states m !! s = Some st -> state_expiresAt st <= now ->
  CompleteAuthorization code s now m = (m, Err InvalidState).
Proof.
  intros H Hle. unfold OAuthTokenManager.CompleteAuthorization. rewrite H.
  replace (now <? state_expiresAt st) with false by (symmetry; apply Z.ltb_ge; lia).
  reflexivity.
Qed.

(** Completing with any state leaves the other states where they are, and
    never adds one. *)
Lemma CompleteAuthorization_states (code s s' : string) (now : Z) (m : Manager) :
  states m !! s = None ->
  states (fst (CompleteAuthorization code s' now m)) !! s = None.
Proof.
  intros H. unfold OAuthTokenManager.CompleteAuthorization.
  destruct (states m !! s') as [st |]; [| exact H].
  destruct (now <? state_expiresAt st); [| exact H].
  assert (delete s' (states m) !! s = None) as Hdel.
  { destruct (decide (s' = s)) as [-> | Hne].
    - apply lookup_delete_eq.
    - rewrite lookup_delete_ne by exact Hne. exact H. }
  destruct (exchange_code (state_provider st) code now); exact Hdel.
Qed.

Lemma GetValidToken_states (user server : Z) (prov : string) (now : Z) (m : Manager) :
  states (fst (GetValidToken user server prov now m)) = states m.
Proof.
  unfold OAuthTokenManager.GetValidToken.
  destruct (tokens m !! (user, server, prov)) as [t |]; [| reflexivity].
  destruct (has_expired t now); [| reflexivity].
  destruct (refreshToken t) as [rt |]; [| reflexivity].
  destruct (refresh_call prov rt now); reflexivity.
Qed.

Lemma step_keeps_absent (s : string) (op : Op) (m : Manager) :
  ~ issues s op -> states m !! s = None -> states (step op m) !! s = None.
Proof.
  intros Hop H. destruct op as [s' now user server prov | code s' now | user server prov now | user server prov];
    cbn [OAuthTokenManager.step].
  - cbn in Hop. cbn. rewrite lookup_insert_ne by exact Hop. exact H.
  - apply CompleteAuthorization_states. exact H.
  - rewrite GetValidToken_states. exact H.
  - exact H.
Qed.

Lemma run_ops_keeps_absent (s : string) (ops : list Op) :
  forall m, Forall (fun op => ~ issues s op) ops ->
            states m !! s = None -> states (run_ops ops m) !! s = None.
Proof.
  induction ops as [| op ops IH]; intros m Hops H.
  - exact H.
  - inversion Hops as [| ? ? Hop Hrest]; subst.
    cbn. apply IH; [exact Hrest |]. apply step_keeps_absent; assumption.
Qed.

Lemma CompleteAuthorization_ok (code s : string) (now : Z) (m m' : Manager) (t : OAuthToken) :
  CompleteAuthorization code s now m = (m', Ok t) ->
  exists st, states m !! s = Some st /\ now < state_expiresAt st /\
             states m' = delete s (states m) /\
             tokens m' !! (token_userId t, token_serverId t, token_provider t) = Some t.
Proof.
  unfold OAuthTokenManager.CompleteAuthorization.
  destruct (states m !! s) as [st |]; [| discriminate].
  destruct (now <? state_expiresAt st) eqn:E; [| discriminate].
  destruct (exchange_code (state_provider st) code now) as [g |]; [| discriminate].
  intros H. injection H as <- <-. apply Z.ltb_lt in E.
  exists st. repeat split; try assumption; try reflexivity.
  cbn. apply lookup_insert_eq.
Qed.

(** C2: a successful [CompleteAuthorization] with the state [s] deletes
    the state record and stores the token; after it, whatever operations
    run in between that do not issue [s] anew, a call with [s] fails with
    InvalidState and changes nothing. A call at or past the expiry of [s]
    fails with InvalidState, and a state issued by [BeginAuthorization]
    expires ten minutes (600 seconds) after it was issued. *)
Theorem CompleteAuthorization_single_use (code s : string) (now : Z) (m : Manager) :
  (forall m' t, CompleteAuthorization code s now m = (m', Ok t) ->
     states m' !! s = None /\
     tokens m' !! (token_userId t, token_serverId t, token_provider t) = Some t /\
     forall ops code' now',
       Forall (fun op => ~ issues s op) ops ->
       CompleteAuthorization code' s now' (run_ops ops m') =
       (run_ops ops m', Err InvalidState)) /\
  (forall st, states m !! s = Some st -> state_expiresAt st <= now ->
     CompleteAuthorization code s now m = (m, Err InvalidState)) /\
  (forall issued user server prov,
     issued + 600 <= now ->
     let m0 := fst (BeginAuthorization s issued user server prov m) in
     CompleteAuthorization code s now m0 = (m0, Err InvalidState)).
Proof.
  split; [| split].
  - intros m' t HC. apply CompleteAuthorization_ok in HC.
    destruct HC as (st & _ & _ & Hstates & Htok).
    assert (states m' !! s = None) as Hgone.
    { rewrite Hstates. apply lookup_delete_eq. }
    split; [exact Hgone |]. split; [exact Htok |].
    intros ops code' now' Hops.
    apply CompleteAuthorization_absent. now apply run_ops_keeps_absent.
  - intros st. apply CompleteAuthorization_expired.
  - intros issued user server prov Hlate m0.
    eapply CompleteAuthorization_expired.
    + subst m0. cbn. apply lookup_insert_eq.
    + cbn. unfold STATE_LIFETIME. lia.
Qed.

(** *** Only live tokens are returned *)

(** The provider grants tokens that are still to expire. *)
Definition grants_live_tokens : Prop :=
  forall prov rt now g e,
    refresh_call prov rt now = Some g -> grant_expiresAt g = Some e -> now < e.

(** C3, amended: a stored token that has not expired is returned as it
    is, the manager unchanged; an expired token with a refresh token that
    the provider refreshes is replaced by the new token, which is returned;
    an expired token with no refresh token, or whose refresh fails, is
    deleted and the call fails with ReauthRequired. A stored token is never
    returned once it has expired: a token that is returned is the stored one,
    not expired, or the one the refresh call has just granted. When the
    provider grants tokens that are still to expire, no token that is
    returned has expired. *)
Theorem GetValidToken_fresh (user server : Z) (prov : string) (now : Z) (m : Manager) :
  (forall t, tokens m !! (user, server, prov) = Some t -> has_expired t now = false ->
     GetValidToken user server prov now m = (m, Ok t)) /\
  (forall t rt g,
     tokens m !! (user, server, prov) = Some t -> has_expired t now = true ->
     refreshToken t = Some rt -> refresh_call prov rt now = Some g ->
     let t' := token_of_grant user server prov g in
     GetValidToken user server prov now m = (upsert t' m, Ok t') /\
     tokens (upsert t' m) !! (user, server, prov) = Some t') /\
  (forall t,
     tokens m !! (user, server, prov) = Some t -> has_expired t now = true ->
     refreshToken t = None \/
       (exists rt, refreshToken t = Some rt /\ refresh_call prov rt now = None) ->
     GetValidToken user server prov now m =
       (delete_token (user, server, prov) m, Err ReauthRequired) /\
     tokens (delete_token (user, server, prov) m) !! (user, server, prov) = None) /\
  (forall m' t, GetValidToken user server prov now m = (m', Ok t) ->
     exists t0, tokens m !! (user, server, prov) = Some t0 /\
       ((has_expired t0 now = false /\ t = t0 /\ m' = m) \/
        (has_expired t0 now = true /\
         exists rt g, refreshToken t0 = Some rt /\ refresh_call prov rt now = Some g /\
                      t = token_of_grant user server prov g))) /\
  (grants_live_tokens ->
   forall m' t, GetValidToken user server prov now m = (m', Ok t) ->
                has_expired t now = false).
Proof.
  unfold OAuthTokenManager.GetValidToken. split; [| split; [| split; [| split]]].
  - intros t Ht Hfresh. rewrite Ht, Hfresh. reflexivity.
  - intros t rt g Ht Hold Hrt Hg. rewrite Ht, Hold, Hrt, Hg.
    split; [reflexivity |]. cbn. apply lookup_insert_eq.
  - intros t Ht Hold Hno. rewrite Ht, Hold. split.
    + destruct Hno as [-> | (rt & -> & ->)]; reflexivity.
    + cbn. apply lookup_delete_eq.
  - intros m' t.
    destruct (tokens m !! (user, server, prov)) as [t0 |]; [| discriminate].
    destruct (has_expired t0 now) eqn:E.
    + destruct (refreshToken t0) as [rt |] eqn:Hrt; [| discriminate].
      destruct (refresh_call prov rt now) as [g |] eqn:Hg; [| discriminate].
      intros Hret. injection Hret as _ <-.
      exists t0. split; [reflexivity |]. right. split; [exact E |].
      exists rt, g. split; [exact Hrt |]. split; [exact Hg | reflexivity].
    + intros Hret. injection Hret as <- <-.
      exists t0. split; [reflexivity |]. left. auto.
  - intros Hlive m' t.
    destruct (tokens m !! (user, server, prov)) as [t0 |]; [| discriminate].
    destruct (has_expired t0 now) eqn:E.
    + destruct (refreshToken t0) as [rt |]; [| discriminate].
      destruct (refresh_call prov rt now) as [g |] eqn:Hg; [| discriminate].
      intros H. injection H as _ <-.
      unfold has_expired. cbn.
      destruct (grant_expiresAt g) as [e |] eqn:He; [| reflexivity].
      apply Z.leb_gt. eapply Hlive; eassumption.
    + intros H. injection H as _ <-. exact E.
Qed.

End Provider.

(** A provider that accepts the code "code-1" and the refresh token
    "refresh-1", with tokens of one hour. *)
Definition hour_grant (access : string) (now : Z) : Grant :=
  {| grant_accessToken := access; grant_refreshToken := Some "refresh-1";
     grant_expiresAt := Some (now + 3600); grant_scope := "mail" |}.

Definition demo_exchange (prov code : string) (now : Z) : option Grant :=
  if String.eqb code "code-1" then Some (hour_grant "access-1" now) else None.

Definition demo_refresh (prov rt : string) (now : Z) : option Grant :=
  if String.eqb rt "refresh-1" then Some (hour_grant "access-2" now) else None.

Definition empty_manager : Manager := {| states := ∅; tokens := ∅ |}.

Definition after_begin : Manager :=
  fst (BeginAuthorization "s-1" 1000 7 3 "gmail" empty_manager).

Definition after_complete : Manager :=
  fst (CompleteAuthorization demo_exchange "code-1" "s-1" 1100 after_begin).

Lemma CompleteAuthorization_single_use_witness :
  CompleteAuthorization demo_exchange "code-1" "s-1" 1100 after_begin =
    (after_complete, Ok (token_of_grant 7 3 "gmail" (hour_grant "access-1" 1100))) /\
  CompleteAuthorization demo_exchange "code-1" "s-1" 1101 after_complete =
    (after_complete, Err InvalidState).
Proof.
  assert (CompleteAuthorization demo_exchange "code-1" "s-1" 1100 after_begin =
          (after_complete, Ok (token_of_grant 7 3 "gmail" (hour_grant "access-1" 1100))))
    as HC by (vm_compute; reflexivity).
  split; [exact HC |].
  destruct (CompleteAuthorization_single_use demo_exchange demo_refresh
              "code-1" "s-1" 1100 after_begin) as (Honce & _ & _).
  destruct (Honce _ _ HC) as (_ & _ & Hlater).
  apply (Hlater [] "code-1" 1101). constructor.
Defined.

Definition stale_manager : Manager :=
  upsert {| token_userId := 7; token_serverId := 3; token_provider := "gmail";
            accessToken := "access-0"; refreshToken := Some "refresh-1";
            token_expiresAt := Some 900; scope := "mail" |}
         empty_manager.

Lemma demo_refresh_live : grants_live_tokens demo_refresh.
Proof.
  intros prov rt now g e Hg He. unfold demo_refresh in Hg.
  destruct (String.eqb rt "refresh-1"); [| discriminate].
  injection Hg as <-. cbn in He. injection He as <-. lia.
Qed.

Lemma GetValidToken_fresh_witness :
  grants_live_tokens demo_refresh /\
  GetValidToken demo_refresh 7 3 "gmail" 1000 stale_manager =
    (upsert (token_of_grant 7 3 "gmail" (hour_grant "access-2" 1000)) stale_manager,
     Ok (token_of_grant 7 3 "gmail" (hour_grant "access-2" 1000))) /\
  has_expired (token_of_grant 7 3 "gmail" (hour_grant "access-2" 1000)) 1000 = false.
Proof.
  split; [exact demo_refresh_live |].
  destruct (GetValidToken_fresh demo_refresh 7 3 "gmail" 1000 stale_manager)
    as (_ & Hrefresh & _ & _ & Hlive).
  destruct (Hrefresh _ "refresh-1" (hour_grant "access-2" 1000)
              ltac:(vm_compute; reflexivity) eq_refl eq_refl eq_refl) as [HG _].
  split; [exact HG |].
  exact (Hlive demo_refresh_live _ _ HG).
Defined.

(** C3 as stated, for one call: a token that is returned has not expired. *)
Definition returns_live_claim (refresh_call : string -> string -> Z -> option Grant)
    (user server : Z) (prov : string) (now : Z) (m : Manager) : Prop :=
  forall m' t,
    GetValidToken refresh_call user server prov now m = (m', Ok t) ->
    has_expired t now = false.

(** A provider whose refresh call grants a token that expired at time 0. *)
Definition stale_refresh (prov rt : string) (now : Z) : option Grant :=
  Some {| grant_accessToken := "access-2"; grant_refreshToken := Some rt;
          grant_expiresAt := Some 0; grant_scope := "mail" |}.

(** C3 fails as stated: the contract returns the token that the refresh
    call grants without looking at its [expiresAt]. *)
Lemma returns_live_claim_fails_on_stale_grant :
  ~ returns_live_claim stale_refresh 7 3 "gmail" 1000 stale_manager.
Proof.
  intros Hclaim.
  specialize (Hclaim _ _ eq_refl). vm_compute in Hclaim. discriminate Hclaim.
Qed.

End OAuthTokenManagerFacts.

(** ** Tool calls: one retry, then the fallback *)

Module ToolCallFacts.
Import ToolCall.

Section Request.

Variable ToolResult : Type.
Variable transport_level : ErrorKind -> bool.
Variable attempt : nat -> Result ToolResult ErrorKind.
Variable fallback_execute : Result ToolResult ErrorKind.

Local Abbreviation Call := (Call ToolResult transport_level attempt).
Local Abbreviation CallWithFallback :=
  (CallWithFallback ToolResult transport_level attempt fallback_execute).

Definition attempts (events : list Event) : list Event := List.filter is_attempt events.

Lemma Call_retries_once (e : ErrorKind) :
  attempt 0 = Err e -> is_timeout e = false -> transport_level e = true ->
  Call = (attempt 1, [PrimaryAttempt 0; PrimaryAttempt 1]).
Proof.
  intros H0 Ht Hl. unfold ToolCall.Call. now rewrite H0, Ht, Hl.
Qed.

Lemma Call_timeout (e : ErrorKind) :
  attempt 0 = Err e -> is_timeout e = true -> Call = (Err e, [PrimaryAttempt 0]).
Proof. intros H0 Ht. unfold ToolCall.Call. now rewrite H0, Ht. Qed.

(** The connector never makes more than two attempts. *)
Lemma Call_at_most_two_attempts : (length (snd Call) <= 2)%nat.
Proof.
  unfold ToolCall.Call. destruct (attempt 0) as [r | e]; [cbn; lia |].
  destruct (is_timeout e); [cbn; lia |].
  destruct (transport_level e); cbn; lia.
Qed.

Lemma CallWithFallback_primary (r : ToolResult) (events : list Event) :
  Call = (Ok r, events) -> CallWithFallback = (Ok r, events).
Proof. intros HC. unfold ToolCall.CallWithFallback. now rewrite HC. Qed.

Lemma CallWithFallback_fallback (e : ErrorKind) (events : list Event) :
  Call = (Err e, events) -> is_timeout e || transport_level e = true ->
  CallWithFallback =
    (match fallback_execute with
     | Ok r => Ok r
     | Err fe => Err (FallbackFailed e fe)
     end, (events ++ [FallbackInvoked])%list).
Proof.
  intros HC Hfb. unfold ToolCall.CallWithFallback. rewrite HC, Hfb.
  now destruct fallback_execute.
Qed.

Lemma CallWithFallback_surfaced (e : ErrorKind) (events : list Event) :
  Call = (Err e, events) -> is_timeout e || transport_level e = false ->
  CallWithFallback = (Err e, events).
Proof. intros HC Hfb. unfold ToolCall.CallWithFallback. now rewrite HC, Hfb. Qed.

(** Whatever the retry returns, the request makes the two attempts. *)
Lemma CallWithFallback_two_attempts (e : ErrorKind) :
  attempt 0 = Err e -> is_timeout e = false -> transport_level e = true ->
  attempts (snd CallWithFallback) = [PrimaryAttempt 0; PrimaryAttempt 1].
Proof.
  intros H0 Ht Hl. pose proof (Call_retries_once e H0 Ht Hl) as HC.
  destruct (attempt 1) as [r1 | e1].
  - now rewrite (CallWithFallback_primary _ _ HC).
  - destruct (is_timeout e1 || transport_level e1) eqn:Hfb.
    + now rewrite (CallWithFallback_fallback _ _ HC Hfb).
    + now rewrite (CallWithFallback_surfaced _ _ HC Hfb).
Qed.

(** C4, amended: when the first attempt of the primary call fails with a
    transport-level error other than a timeout, the connector makes exactly
    one more attempt and surfaces the outcome of that retry; when the retry
    fails with a transport-level error or a timeout, the fallback executor
    is invoked once, after the two attempts, and if it fails too the request
    ends in FallbackFailed carrying the error the connector surfaced, which
    is the error of the retry, and the error of the fallback; when the retry
    fails with any other error, that error is the result and the fallback
    executor is not invoked. When the first attempt times out there is no
    retry: the fallback executor is invoked at once, with the same outcome
    if it fails. *)
Theorem retry_once_then_fallback :
  (forall e, attempt 0 = Err e -> is_timeout e = false -> transport_level e = true ->
     Call = (attempt 1, [PrimaryAttempt 0; PrimaryAttempt 1]) /\
     attempts (snd CallWithFallback) = [PrimaryAttempt 0; PrimaryAttempt 1] /\
     (forall r, attempt 1 = Ok r ->
        CallWithFallback = (Ok r, [PrimaryAttempt 0; PrimaryAttempt 1])) /\
     (forall e1, attempt 1 = Err e1 -> is_timeout e1 || transport_level e1 = true ->
        snd CallWithFallback = [PrimaryAttempt 0; PrimaryAttempt 1; FallbackInvoked] /\
        (forall r, fallback_execute = Ok r -> fst CallWithFallback = Ok r) /\
        (forall fe, fallback_execute = Err fe ->
           fst CallWithFallback = Err (FallbackFailed e1 fe))) /\
     (forall e1, attempt 1 = Err e1 -> is_timeout e1 || transport_level e1 = false ->
        CallWithFallback = (Err e1, [PrimaryAttempt 0; PrimaryAttempt 1]))) /\
  (forall e, attempt 0 = Err e -> is_timeout e = true ->
     snd CallWithFallback = [PrimaryAttempt 0; FallbackInvoked] /\
     (forall r, fallback_execute = Ok r -> fst CallWithFallback = Ok r) /\
     (forall fe, fallback_execute = Err fe ->
        fst CallWithFallback = Err (FallbackFailed e fe))).
Proof.
  split.
  - intros e H0 Ht Hl. pose proof (Call_retries_once e H0 Ht Hl) as HC.
    split; [exact HC |]. split; [now apply CallWithFallback_two_attempts with e |].
    split; [| split].
    + intros r Hr. rewrite Hr in HC. now apply CallWithFallback_primary.
    + intros e1 He1 Hfb. rewrite He1 in HC.
      rewrite (CallWithFallback_fallback _ _ HC Hfb). cbn [fst snd app].
      split; [reflexivity |]. split; intros x Hx; now rewrite Hx.
    + intros e1 He1 Hfb. rewrite He1 in HC. now apply CallWithFallback_surfaced.
  - intros e H0 Ht. pose proof (Call_timeout e H0 Ht) as HC.
    assert (is_timeout e || transport_level e = true) as Hfb by now rewrite Ht.
    rewrite (CallWithFallback_fallback _ _ HC Hfb). cbn [fst snd app].
    split; [reflexivity |]. split; intros x Hx; now rewrite Hx.
Qed.

End Request.

(** A server that refuses every connection, and a fallback that times out. *)
Definition refusing (n : nat) : Result string ErrorKind := Err ConnectionRefused.

Definition connection_errors (e : ErrorKind) : bool :=
  match e with
  | ConnectionRefused | InvalidResponse => true
  | _ => false
  end.

Lemma retry_once_then_fallback_witness :
  refusing 0 = Err ConnectionRefused /\
  CallWithFallback string connection_errors refusing (Err Timeout) =
    (Err (FallbackFailed ConnectionRefused Timeout),
     [PrimaryAttempt 0; PrimaryAttempt 1; FallbackInvoked]).
Proof.
  split; [reflexivity |].
  destruct (retry_once_then_fallback string connection_errors refusing (Err Timeout))
    as [Hretry _].
  destruct (Hretry ConnectionRefused eq_refl eq_refl eq_refl) as (_ & _ & _ & Hfail & _).
  destruct (Hfail ConnectionRefused eq_refl eq_refl) as (Hev & _ & Herr).
  specialize (Herr Timeout eq_refl).
  destruct (CallWithFallback string connection_errors refusing (Err Timeout)) as [res events].
  cbn [fst snd] in *. now subst.
Defined.

(** C4 as stated, for one request: a first attempt that fails with a
    transport-level error is followed by exactly one retry, and when that
    retry fails the fallback executor is invoked. *)
Definition fallback_claim (ToolResult : Type) (transport_level : ErrorKind -> bool)
    (attempt : nat -> Result ToolResult ErrorKind)
    (fallback_execute : Result ToolResult ErrorKind) : Prop :=
  forall e, attempt 0%nat = Err e -> transport_level e = true ->
    attempts (snd (CallWithFallback ToolResult transport_level attempt fallback_execute))
      = [PrimaryAttempt 0; PrimaryAttempt 1] /\
    forall e1, attempt 1%nat = Err e1 ->
      In FallbackInvoked
         (snd (CallWithFallback ToolResult transport_level attempt fallback_execute)).

(** A server that refuses the connection and, at the retry, answers that it
    has no such tool. *)
Definition refused_then_not_found (n : nat) : Result string ErrorKind :=
  match n with
  | O => Err ConnectionRefused
  | S _ => Err ToolNotFound
  end.

(** C4 fails as stated: a retry that fails with an error that is not
    transport-level is surfaced as it is, with no fallback. *)
Lemma fallback_claim_fails_on_other_error :
  ~ fallback_claim string connection_errors refused_then_not_found (Ok "sent").
Proof.
  intros Hclaim.
  destruct (Hclaim ConnectionRefused eq_refl eq_refl) as [_ Hfallback].
  specialize (Hfallback ToolNotFound eq_refl).
  vm_compute in Hfallback. intuition discriminate.
Qed.

End ToolCallFacts.

(** ** urlEncryption.ts: what [simpleHash] computes *)

Module SimpleHashFacts.
Import Js UrlEncryption JsFacts UrlEncryptionFacts.

#[local] Arguments String.append : simpl nomatch.

Local Abbreviation M := (2 ^ 32).

Lemma to_int32_mod (z : Z) : to_int32 z mod M = z mod M.
Proof.
  unfold to_int32.
  destruct (2 ^ 31 <=? z mod M).
  - replace (z mod M - M) with (z mod M + (-1) * M) by lia.
    now rewrite Z_mod_plus_full, Z.mod_mod.
  - now rewrite Z.mod_mod.
Qed.

Lemma to_int32_congr (a b : Z) : a mod M = b mod M -> to_int32 a = to_int32 b.
Proof. unfold to_int32. now intros ->. Qed.

Lemma to_int32_fixes (z : Z) : int32 z -> to_int32 z = z.
Proof.
  unfold int32, to_int32. intros Hz.
  destruct (Z_lt_le_dec z 0) as [Hneg | Hpos].
  - assert (z mod M = z + M) as ->.
    { symmetry. apply Z.mod_unique with (q := -1); lia. }
    destruct (2 ^ 31 <=? z + M) eqn:E; [lia |]. apply Z.leb_gt in E. lia.
  - rewrite Z.mod_small by lia.
    destruct (2 ^ 31 <=? z) eqn:E; [| reflexivity]. apply Z.leb_le in E. lia.
Qed.

(** One turn of the loop multiplies by 31 and adds the character, modulo
    2^32: [(hash << 5) - hash] is [31 * hash]. *)
Lemma hash_step_mod (hash char : Z) :
  and32 (shl32 hash 5 - hash + char) (shl32 hash 5 - hash + char) mod M =
  (31 * hash + char) mod M.
Proof.
  rewrite and32_diag, to_int32_mod. unfold shl32.
  rewrite <- Zplus_mod_idemp_l, <- Zminus_mod_idemp_l, to_int32_mod.
  rewrite Z.shiftl_mul_pow2 by lia.
  rewrite <- Zmult_mod_idemp_l, to_int32_mod.
  rewrite Zmult_mod_idemp_l, Zminus_mod_idemp_l, Zplus_mod_idemp_l.
  f_equal. lia.
Qed.

(** The polynomial in 31 over the character codes, by Horner's rule. *)
Fixpoint poly31 (str : string) (acc : Z) : Z :=
  match str with
  | EmptyString => acc
  | String c rest => poly31 rest (31 * acc + charCode c)
  end.

Lemma poly31_congr (str : string) :
  forall a b, a mod M = b mod M -> poly31 str a mod M = poly31 str b mod M.
Proof.
  induction str as [| c rest IH]; intros a b Hab; cbn [poly31].
  - exact Hab.
  - apply IH.
    rewrite <- Zplus_mod_idemp_l, <- Zmult_mod_idemp_r, Hab.
    now rewrite Zmult_mod_idemp_r, Zplus_mod_idemp_l.
Qed.

Lemma hash_chars_mod (str : string) :
  forall hash, hash_chars str hash mod M = poly31 str hash mod M.
Proof.
  induction str as [| c rest IH]; intros hash; cbn [hash_chars poly31].
  - reflexivity.
  - cbv zeta. rewrite IH. apply poly31_congr, hash_step_mod.
Qed.

Lemma poly31_append (a b : string) (acc : Z) :
  poly31 (a ++ b) acc = poly31 b (poly31 a acc).
Proof.
  revert acc. induction a as [| c a IH]; intros acc; cbn [String.append poly31].
  - reflexivity.
  - apply IH.
Qed.

(** X1: the number hashed by [simpleHash] is the polynomial hash in 31 of
    the character codes (the last character with weight 1), wrapped to a
    signed 32-bit integer; hashing a concatenation continues from the hash
    of its first part. *)
Theorem hash_chars_polynomial (str tail : string) :
  hash_chars str 0 = to_int32 (poly31 str 0) /\
  hash_chars (str ++ tail) 0 = to_int32 (poly31 tail (hash_chars str 0)).
Proof.
  assert (forall s, hash_chars s 0 = to_int32 (poly31 s 0)) as Hpoly.
  { intros s. rewrite <- (to_int32_fixes (hash_chars s 0)).
    - apply to_int32_congr, hash_chars_mod.
    - apply hash_chars_range. unfold int32. lia. }
  split; [apply Hpoly |].
  rewrite Hpoly, poly31_append. apply to_int32_congr, poly31_congr.
  symmetry. rewrite Hpoly. apply to_int32_mod.
Qed.

(** *** The text returned *)

Definition is_base36_digit (c : ascii) : bool :=
  ((48 <=? charCode c) && (charCode c <=? 57)) ||
  ((97 <=? charCode c) && (charCode c <=? 122)).

Fixpoint all_base36 (s : string) : bool :=
  match s with
  | EmptyString => true
  | String c rest => is_base36_digit c && all_base36 rest
  end.

Lemma digit36_is_base36 (d : Z) : 0 <= d < 36 -> is_base36_digit (digit36 d) = true.
Proof.
  intros Hd. unfold is_base36_digit. rewrite charCode_digit36 by exact Hd.
  destruct (d <? 10) eqn:E; [apply Z.ltb_lt in E | apply Z.ltb_ge in E].
  - apply orb_true_intro. left. apply andb_true_intro. split; apply Z.leb_le; lia.
  - apply orb_true_intro. right. apply andb_true_intro. split; apply Z.leb_le; lia.
Qed.

Lemma toString36_digits_base36 (fuel : nat) :
  forall n acc, all_base36 acc = true -> all_base36 (toString36_digits fuel n acc) = true.
Proof.
  induction fuel as [| fuel IH]; intros n acc Hacc.
  - exact Hacc.
  - rewrite toString36_digits_step.
    assert (all_base36 (String (digit36 (n mod 36)) acc) = true) as Hnext.
    { cbn [all_base36]. rewrite Hacc, andb_true_r.
      apply digit36_is_base36, Z.mod_pos_bound. lia. }
    destruct (n / 36 =? 0); [exact Hnext | now apply IH].
Qed.

(** X2: whatever the string, [simpleHash] returns between one and six
    characters, each a digit or a lower-case letter; it never returns the 16
    characters the padding loop waits for. *)
Theorem simpleHash_text (str : string) :
  (1 <= String.length (simpleHash str) <= 6)%nat /\
  all_base36 (simpleHash str) = true /\
  String.length (simpleHash str) <> 16%nat.
Proof.
  pose proof (simpleHash_length str) as Hlen.
  split; [split; [| exact Hlen] | split; [| lia]].
  - unfold simpleHash, toString36.
    destruct (toString36_digits_head
                (Z.to_nat (Z.log2 (Z.abs (hash_chars str 0))))
                (Z.abs (hash_chars str 0)) "") as (d & rest & _ & ->).
    cbn [String.length]. lia.
  - unfold simpleHash, toString36. now apply toString36_digits_base36.
Qed.

(** X3: [simpleHash] keeps the hash up to its sign: read in base 36 its
    result is the absolute value of the hash, so two strings get the same
    text exactly when their hashes agree up to sign. *)
Theorem simpleHash_reads_back (a b : string) :
  parseInt (simpleHash a) 36 = Some (Z.abs (hash_chars a 0)) /\
  (simpleHash a = simpleHash b <-> Z.abs (hash_chars a 0) = Z.abs (hash_chars b 0)).
Proof.
  assert (forall s, parseInt (simpleHash s) 36 = Some (Z.abs (hash_chars s 0))) as Hread.
  { intros s. unfold simpleHash. apply parseInt_toString36, Z.abs_nonneg. }
  split; [apply Hread |]. split.
  - intros Heq. pose proof (Hread a) as Ha. rewrite Heq, Hread in Ha. now injection Ha.
  - intros Heq. unfold simpleHash. now rewrite Heq.
Qed.

End SimpleHashFacts.

(** ** urlEncryption.ts: the URLs *)

Module UrlPathsFacts.
Import Js UrlEncryption UrlPaths JsFacts UrlEncryptionFacts.

#[local] Arguments String.append : simpl nomatch.

(** A string that is empty or begins with a character outside the class:
    where a run of the class ends. *)
Definition ends_run (class : ascii -> bool) (rest : string) : Prop :=
  match rest with
  | EmptyString => True
  | String c _ => class c = false
  end.

Lemma take_while_split (class : ascii -> bool) (s : string) :
  exists rest, s = take_while class s ++ rest /\
               every class (take_while class s) = true /\ ends_run class rest.
Proof.
  induction s as [| c s (rest & Hs & Hall & Hend)]; cbn [take_while].
  - exists "". repeat split.
  - destruct (class c) eqn:E.
    + exists rest. cbn [String.append every]. rewrite E, Hall. repeat split; [| exact Hend].
      now rewrite <- Hs.
    + exists (String c s). repeat split. exact E.
Qed.

Lemma take_while_run (class : ascii -> bool) (g rest : string) :
  every class g = true -> ends_run class rest -> take_while class (g ++ rest) = g.
Proof.
  intros Hg Hrest. induction g as [| c g IH]; cbn [String.append take_while every] in *.
  - destruct rest as [| d rest]; [reflexivity |]. cbn [take_while]. cbn in Hrest. now rewrite Hrest.
  - apply andb_prop in Hg. destruct Hg as [Hc Hg]. rewrite Hc. f_equal. now apply IH.
Qed.

Lemma drop_append (a b : string) : drop (String.length a) (a ++ b) = b.
Proof.
  induction a as [| c a IH]; cbn [String.length String.append drop].
  - destruct b; reflexivity.
  - exact IH.
Qed.

Lemma match_after_unfold (literal : string) (class : ascii -> bool) (s : string) :
  match_after literal class s =
  let here :=
    if String.prefix literal s
    then take_while class (drop (String.length literal) s) else "" in
  match here with
  | String _ _ => Some here
  | EmptyString =>
      match s with
      | EmptyString => None
      | String _ rest => match_after literal class rest
      end
  end.
Proof. destruct s; reflexivity. Qed.

(** A match is an occurrence of the literal followed by a maximal run of
    the class that is not empty. *)
Lemma match_after_sound (literal : string) (class : ascii -> bool) (s : string) :
  forall g, match_after literal class s = Some g ->
    exists pre rest, s = pre ++ literal ++ g ++ rest /\
      g <> "" /\ every class g = true /\ ends_run class rest.
Proof.
  induction s as [| c s IH]; intros g; rewrite match_after_unfold; cbv zeta.
  - destruct (String.prefix literal ""); [| discriminate].
    assert (drop (String.length literal) "" = "") as ->
      by (destruct (String.length literal); reflexivity).
    discriminate.
  - destruct (String.prefix literal (String c s)) eqn:Hp.
    + apply prefix_spec in Hp. destruct Hp as (post & Hpost).
      rewrite Hpost, drop_append.
      destruct (take_while_split class post) as (rest & Hsplit & Hall & Hend).
      destruct (take_while class post) as [| d run] eqn:Hrun.
      * intros Hrec. destruct (IH g Hrec) as (pre & rest' & -> & Hne & Hg & Hrest).
        exists (String c pre), rest'. cbn [String.append]. rewrite <- Hpost. auto.
      * intros Hsome. injection Hsome as <-.
        exists "", rest.
        split; [| repeat split; [discriminate | exact Hall | exact Hend]].
        change ("" ++ literal ++ String d run ++ rest)
          with (literal ++ String d run ++ rest).
        f_equal. exact Hsplit.
    + intros Hrec. destruct (IH g Hrec) as (pre & rest' & -> & Hne & Hg & Hrest).
      exists (String c pre), rest'. cbn [String.append]. auto.
Qed.

Lemma match_after_here (literal : string) (class : ascii -> bool) (g rest : string) :
  g <> "" -> every class g = true -> ends_run class rest ->
  match_after literal class (literal ++ g ++ rest) = Some g.
Proof.
  intros Hne Hg Hrest. rewrite match_after_unfold. cbv zeta.
  rewrite prefix_append, drop_append.
  rewrite take_while_run by assumption.
  destruct g; [congruence | reflexivity].
Qed.

Lemma match_after_none (literal : string) (class : ascii -> bool) (s : string) :
  ~ contains s literal -> match_after literal class s = None.
Proof.
  intros Hno. destruct (match_after literal class s) as [g |] eqn:Hm; [| reflexivity].
  exfalso. apply Hno.
  apply match_after_sound in Hm. destruct Hm as (pre & rest & -> & _).
  exists pre, (g ++ rest). reflexivity.
Qed.

Lemma alnum_is_segment_char (c : ascii) : is_alnum c = true -> is_segment_char c = true.
Proof.
  unfold is_segment_char. intros Hc.
  destruct (Ascii.eqb_spec c "/") as [-> | _]; [discriminate Hc |].
  destruct (Ascii.eqb_spec c "?") as [-> | _]; [discriminate Hc | reflexivity].
Qed.

Lemma every_alnum_segment (s : string) :
  every is_alnum s = true -> every is_segment_char s = true.
Proof.
  induction s as [| c s IH]; cbn [every]; [reflexivity |].
  intros H. apply andb_prop in H. destruct H as [Hc Hs].
  now rewrite (alnum_is_segment_char c Hc), IH.
Qed.

(** X4: [isEncryptedUrl] accepts a URL only if it holds "/chat/" followed
    by exactly 16 letters and digits that end the URL or are followed by "/"
    or "?"; and it accepts every URL that starts with "/chat/" and such an
    id. No encryption is involved: the test returns for every URL. *)
Theorem isEncryptedUrl_spec (url : string) :
  (isEncryptedUrl url = true ->
     exists pre id rest,
       url = pre ++ "/chat/" ++ id ++ rest /\
       String.length id = 16%nat /\ every is_alnum id = true /\
       ends_run is_segment_char rest) /\
  (forall id rest,
     String.length id = 16%nat -> every is_alnum id = true ->
     ends_run is_segment_char rest ->
     isEncryptedUrl ("/chat/" ++ id ++ rest) = true).
Proof.
  unfold isEncryptedUrl, match_chat. split.
  - destruct (match_after "/chat/" is_segment_char url) as [id |] eqn:Hm; [| discriminate].
    intros Hid. apply andb_prop in Hid. destruct Hid as [Hlen Hal].
    apply Nat.eqb_eq in Hlen.
    apply match_after_sound in Hm. destruct Hm as (pre & rest & -> & _ & _ & Hend).
    exists pre, id, rest. auto.
  - intros id rest Hlen Hal Hend.
    rewrite match_after_here; [| | now apply every_alnum_segment | exact Hend].
    + now rewrite Hlen, Hal.
    + intros ->. discriminate Hlen.
Qed.

(** The match does not depend on where the literal stands in the string. *)
Lemma match_after_anywhere (literal : string) (class : ascii -> bool)
    (pre : string) (c : ascii) (rest : string) :
  class c = true -> match_after literal class (pre ++ literal ++ String c rest) <> None.
Proof.
  intros Hc. induction pre as [| x pre IH].
  - change ("" ++ literal ++ String c rest) with (literal ++ String c rest).
    rewrite match_after_unfold. cbv zeta. rewrite prefix_append, drop_append.
    cbn [take_while]. rewrite Hc. discriminate.
  - cbn [String.append]. rewrite match_after_unfold. cbv zeta.
    destruct (if String.prefix literal (String x (pre ++ literal ++ String c rest))
              then take_while class
                     (drop (String.length literal)
                        (String x (pre ++ literal ++ String c rest)))
              else ""); [exact IH | discriminate].
Qed.

(** Somewhere in the string the literal is followed by a character of the
    class. *)
Definition followed_by (literal : string) (class : ascii -> bool) (s : string) : Prop :=
  exists pre c rest, s = pre ++ literal ++ String c rest /\ class c = true.

(** There is a match exactly in that case. *)
Lemma match_after_some (literal : string) (class : ascii -> bool) (s : string) :
  match_after literal class s <> None <-> followed_by literal class s.
Proof.
  unfold followed_by. split.
  - destruct (match_after literal class s) as [g |] eqn:Hm; [intros _ | congruence].
    apply match_after_sound in Hm. destruct Hm as (pre & rest & -> & Hne & Hg & _).
    destruct g as [| c g]; [congruence |].
    cbn [every] in Hg. apply andb_prop in Hg. destruct Hg as [Hc _].
    exists pre, c, (g ++ rest). split; [reflexivity | exact Hc].
  - intros (pre & c & rest & -> & Hc). now apply match_after_anywhere.
Qed.

(** X5: [parseSecureChatUrl] returns null exactly for the URLs in which no
    "/chat/" is followed by a character other than "/" and "?"; on every
    other URL, wherever the "/chat/" stands in it, it goes into
    [decryptChatId] and never returns. *)
Theorem parseSecureChatUrl_returns (fuel : nat) (url : string) :
  (followed_by "/chat/" is_segment_char url -> parseSecureChatUrl fuel url = OutOfFuel) /\
  (~ followed_by "/chat/" is_segment_char url ->
     parseSecureChatUrl fuel url = Done None) /\
  (~ contains url "/chat/" -> parseSecureChatUrl fuel url = Done None) /\
  (parseSecureChatUrl fuel url = Done None <-> match_chat url = None).
Proof.
  unfold parseSecureChatUrl, match_chat.
  pose proof (match_after_some "/chat/" is_segment_char url) as Hsome.
  repeat split.
  - intros Hid. apply Hsome in Hid.
    destruct (match_after "/chat/" is_segment_char url); [| congruence].
    apply decryptChatId_runs_on.
  - intros Hno.
    destruct (match_after "/chat/" is_segment_char url); [| reflexivity].
    exfalso. apply Hno, Hsome. discriminate.
  - intros Hno. now rewrite match_after_none.
  - destruct (match_after "/chat/" is_segment_char url); [| reflexivity].
    rewrite decryptChatId_runs_on. discriminate.
  - now intros ->.
Qed.

(** X6: [convertToEncryptedUrl] hands back, unchanged, exactly the URLs in
    which no "chatId=" is followed by a digit; on every other URL, wherever
    the "chatId=" stands in it, it calls [generateSecureChatUrl] and never
    returns, as [generateSecureChatUrl] never returns for any chat id. *)
Theorem convertToEncryptedUrl_returns (fuel : nat) (oldUrl : string) :
  (followed_by "chatId=" is_digit oldUrl -> convertToEncryptedUrl fuel oldUrl = OutOfFuel) /\
  (~ followed_by "chatId=" is_digit oldUrl ->
     convertToEncryptedUrl fuel oldUrl = Done oldUrl) /\
  (~ contains oldUrl "chatId=" -> convertToEncryptedUrl fuel oldUrl = Done oldUrl) /\
  (forall chatId, generateSecureChatUrl fuel chatId = OutOfFuel).
Proof.
  assert (forall chatId, generateSecureChatUrl fuel chatId = OutOfFuel) as Hgen.
  { intros chatId. unfold generateSecureChatUrl. now rewrite encryptChatId_runs_on. }
  unfold convertToEncryptedUrl, match_chatId.
  pose proof (match_after_some "chatId=" is_digit oldUrl) as Hsome.
  repeat split.
  - intros Hid. apply Hsome in Hid.
    destruct (match_after "chatId=" is_digit oldUrl) as [digits |]; [| congruence].
    destruct (parseInt digits 10); apply Hgen.
  - intros Hno.
    destruct (match_after "chatId=" is_digit oldUrl); [| reflexivity].
    exfalso. apply Hno, Hsome. discriminate.
  - intros Hno. now rewrite match_after_none.
  - exact Hgen.
Qed.

End UrlPathsFacts.

(** ** Numbers in decimal *)

Module DecimalFacts.
Import Js UrlEncryption UrlPaths JsFacts.

#[local] Arguments String.append : simpl nomatch.

(** The number a run of decimal digits denotes, read after [acc]. *)
Fixpoint uint_value (u : Decimal.uint) (acc : Z) : Z :=
  match u with
  | Decimal.Nil => acc
  | Decimal.D0 l => uint_value l (10 * acc)
  | Decimal.D1 l => uint_value l (10 * acc + 1)
  | Decimal.D2 l => uint_value l (10 * acc + 2)
  | Decimal.D3 l => uint_value l (10 * acc + 3)
  | Decimal.D4 l => uint_value l (10 * acc + 4)
  | Decimal.D5 l => uint_value l (10 * acc + 5)
  | Decimal.D6 l => uint_value l (10 * acc + 6)
  | Decimal.D7 l => uint_value l (10 * acc + 7)
  | Decimal.D8 l => uint_value l (10 * acc + 8)
  | Decimal.D9 l => uint_value l (10 * acc + 9)
  end.

Lemma of_uint_acc_value (u : Decimal.uint) :
  forall acc, Z.pos (Pos.of_uint_acc u acc) = uint_value u (Z.pos acc).
Proof.
  induction u; intros acc; cbn [Pos.of_uint_acc uint_value];
    try reflexivity; rewrite IHu; f_equal; lia.
Qed.

Lemma of_uint_value (u : Decimal.uint) : Z.of_N (Pos.of_uint u) = uint_value u 0.
Proof.
  induction u; cbn [Pos.of_uint uint_value]; try reflexivity; try exact IHu;
    cbn [Z.of_N]; now rewrite of_uint_acc_value.
Qed.

Lemma digits_of_uint (u : Decimal.uint) :
  every is_digit (NilEmpty.string_of_uint u) = true.
Proof. induction u; cbn [NilEmpty.string_of_uint every]; try reflexivity; exact IHu. Qed.

Lemma parse_digits_of_uint (u : Decimal.uint) :
  forall acc,
    parse_digits 10 (NilEmpty.string_of_uint u) (Some acc) = Some (uint_value u acc).
Proof.
  induction u; intros acc; cbn [NilEmpty.string_of_uint uint_value];
    try reflexivity;
    (etransitivity; [| apply IHu]); cbn [parse_digits]; 
    match goal with
    | |- context [digit_value ?c] =>
        change (digit_value c) with (Some (charCode c - 48))
    end; cbv beta iota;
    match goal with
    | |- context [?d <? 10] => change (d <? 10) with true
    end; cbv beta iota; do 2 f_equal; unfold charCode; cbn; lia.
Qed.

Lemma decimal_digits (n : Z) : 0 <= n -> every is_digit (decimal n) = true.
Proof.
  intros Hn. unfold decimal. destruct n as [| p | p]; [reflexivity | | lia].
  cbn [Z.to_int NilZero.string_of_int]. unfold NilZero.string_of_uint.
  destruct (Pos.to_uint p) eqn:Hp; try reflexivity; rewrite <- Hp; apply digits_of_uint.
Qed.

Lemma of_uint_head (u : Decimal.uint) :
  u <> Decimal.Nil ->
  exists c rest,
    NilEmpty.string_of_uint u = String c rest /\ is_digit c = true /\
    every is_digit rest = true.
Proof.
  intros Hu. pose proof (digits_of_uint u) as Hd.
  destruct u; [congruence | ..]; cbn [NilEmpty.string_of_uint every] in *;
    apply andb_prop in Hd; destruct Hd as [Hc Hrest]; eauto.
Qed.

Lemma digit_plain (c : ascii) :
  is_digit c = true ->
  is_whitespace c = false /\ Ascii.eqb c "-" = false /\ Ascii.eqb c "+" = false /\
  Ascii.eqb c "x" = false /\ Ascii.eqb c "X" = false /\ Ascii.eqb c ";" = false.
Proof.
  unfold is_digit, is_whitespace. intros H. apply andb_prop in H. destruct H as [Hlo Hhi].
  apply Z.leb_le in Hlo, Hhi.
  repeat split.
  - repeat (apply orb_false_intro);
      [apply andb_false_intro2; apply Z.leb_gt; lia | apply Z.eqb_neq; lia ..].
  - apply Ascii.eqb_neq. intros ->. cbv in Hlo. congruence.
  - apply Ascii.eqb_neq. intros ->. cbv in Hlo. congruence.
  - apply Ascii.eqb_neq. intros ->. cbv in Hhi. congruence.
  - apply Ascii.eqb_neq. intros ->. cbv in Hhi. congruence.
  - apply Ascii.eqb_neq. intros ->. cbv in Hhi. congruence.
Qed.

Lemma digits_no_semicolon (s : string) :
  every is_digit s = true -> mentions ";" s = false.
Proof.
  induction s as [| c s IH]; [reflexivity |].
  cbn [every mentions]. intros H. apply andb_prop in H. destruct H as [Hc Hs].
  rewrite (IH Hs), orb_false_r.
  destruct (digit_plain c Hc) as (_ & _ & _ & _ & _ & H).
  now rewrite Ascii.eqb_sym.
Qed.

(** [parseInt] reads a number back from its decimal text. *)
Lemma parseInt_decimal (n : Z) : 0 <= n -> parseInt (decimal n) 0 = Some n.
Proof.
  intros Hn. destruct n as [| p | p]; [reflexivity | | lia].
  unfold decimal. cbn [Z.to_int NilZero.string_of_int].
  pose proof (DecimalPos.Unsigned.of_to p) as Hback.
  pose proof (DecimalPos.Unsigned.to_uint_nonnil p) as Hnil.
  unfold NilZero.string_of_uint.
  assert (Hvalue : uint_value (Pos.to_uint p) 0 = Z.pos p).
  { rewrite <- of_uint_value, Hback. reflexivity. }
  destruct (of_uint_head _ Hnil) as (c & rest & Hs & Hc & Hrest).
  assert (Htext : match Pos.to_uint p with
                  | Decimal.Nil => "0"
                  | _ => NilEmpty.string_of_uint (Pos.to_uint p)
                  end = NilEmpty.string_of_uint (Pos.to_uint p)).
  { destruct (Pos.to_uint p); try reflexivity. congruence. }
  rewrite Htext.
  assert (Hparse : parse_digits 10 (NilEmpty.string_of_uint (Pos.to_uint p)) None
                   = Some (Z.pos p)).
  { rewrite <- Hvalue. clear Hvalue Hback Htext Hs Hc Hrest.
    destruct (Pos.to_uint p) eqn:Hp; [congruence | ..];
      cbn [NilEmpty.string_of_uint uint_value];
      (etransitivity; [| apply parse_digits_of_uint]); reflexivity. }
  destruct (digit_plain c Hc) as (Hw & Hminus & Hplus & Hx & HX & _).
  unfold parseInt. rewrite Hs. cbn [trim_start]. rewrite Hw.
  unfold strip_sign. rewrite Hminus, Hplus.
  change (0 =? 0) with true. cbn [orb].
  assert (Hhex : strip_hex_prefix (String c rest) = None).
  { unfold strip_hex_prefix. destruct rest as [| d rest']; [reflexivity |].
    cbn [every] in Hrest. apply andb_prop in Hrest. destruct Hrest as [Hd _].
    destruct (digit_plain d Hd) as (_ & _ & _ & Hdx & HdX & _).
    rewrite Hdx, HdX. now rewrite andb_false_r. }
  rewrite Hhex. cbv beta iota. change ((10 <? 2) || (36 <? 10)) with false. cbv iota.
  rewrite <- Hs, Hparse. cbn [option_map]. f_equal; lia.
Qed.

Lemma decimal_not_empty (n : Z) : decimal n <> "".
Proof.
  unfold decimal. destruct n as [| p | p]; [discriminate | |].
  - cbn [Z.to_int NilZero.string_of_int]. unfold NilZero.string_of_uint.
    pose proof (DecimalPos.Unsigned.to_uint_nonnil p) as Hnil.
    destruct (of_uint_head _ Hnil) as (c & rest & Hs & _).
    destruct (Pos.to_uint p); try discriminate; congruence.
  - cbn [Z.to_int NilZero.string_of_int]. discriminate.
Qed.

End DecimalFacts.

(** ** cookies.ts: the session over time *)

Module CookieStoreFacts.
Import Js UrlEncryption Cookies CookieStore JsFacts CookiesFacts DecimalFacts.

#[local] Arguments String.append : simpl nomatch.

Definition pair_of (c : StoredCookie) : string * string := (ck_name c, ck_value c).

(** What a browser keeps, see [well_formed]. *)
Definition well_formed_store (st : Store) : Prop :=
  Forall (fun c => well_formed_cookie (pair_of c)) st /\ List.NoDup (map ck_name st).

Definition store_get (name : string) (st : Store) : option StoredCookie :=
  List.find (fun c => String.eqb (ck_name c) name) st.

(** What the page reads of the cookie [name] at time [now]. *)
Definition read (name : string) (now : Z) (st : Store) : option string :=
  match store_get name st with
  | Some c =>
      if live now c && negb (String.eqb (ck_value c) "") then Some (ck_value c) else None
  | None => None
  end.

Lemma visible_names (now : Z) (st : Store) (n : string) :
  In n (map fst (visible now st)) -> In n (map ck_name st).
Proof.
  unfold visible. induction st as [| c st IH]; [easy |].
  cbn [List.filter]. destruct (live now c); cbn [map In fst]; tauto.
Qed.

Lemma visible_well_formed (now : Z) (st : Store) :
  well_formed_store st -> well_formed (visible now st).
Proof.
  intros [Hall Hnodup]. unfold visible. split.
  - clear Hnodup. induction Hall as [| c st Hc Hall IH]; [constructor |].
    cbn [List.filter]. destruct (live now c); [| exact IH].
    cbn [map]. constructor; [exact Hc | exact IH].
  - induction st as [| c st IH]; [constructor |].
    inversion Hnodup as [| ? ? Hnotin Hrest]; subst.
    inversion Hall as [| ? ? Hc Hall']; subst.
    cbn [List.filter]. destruct (live now c); [| now apply IH].
    cbn [map fst]. constructor; [| now apply IH].
    intros Hin. apply Hnotin. now apply (visible_names now).
Qed.

Lemma store_get_none (name : string) (st : Store) :
  ~ In name (map ck_name st) -> store_get name st = None.
Proof.
  unfold store_get. induction st as [| c st IH]; [reflexivity |].
  cbn [map In List.find]. intros Hnotin.
  destruct (String.eqb_spec (ck_name c) name) as [Heq | _]; [tauto |].
  apply IH. tauto.
Qed.

Lemma store_get_some (name : string) (st : Store) (c : StoredCookie) :
  store_get name st = Some c -> In c st /\ ck_name c = name.
Proof.
  unfold store_get. intros H. apply find_some in H. destruct H as [Hin Hname].
  split; [assumption |]. now apply String.eqb_eq.
Qed.

(** [getCookie] reads the store: the value of the cookie of that name, if it
    has not expired and is not empty. *)
Lemma getCookie_read (name : string) (now : Z) (st : Store) :
  simple_name name -> well_formed_store st ->
  getCookie name (document_at now (Some st)) = read name now st.
Proof.
  intros Hname Hwf. cbn [document_at option_map].
  rewrite (getCookie_lookup name _ Hname (visible_well_formed now st Hwf)).
  destruct Hwf as [_ Hnodup]. unfold read, store_get, visible.
  induction st as [| c st IH]; [reflexivity |].
  inversion Hnodup as [| ? ? Hnotin Hrest]; subst.
  cbn [List.filter List.find].
  destruct (live now c) eqn:Hlive; cbn [map List.find pair_of fst snd].
  - destruct (String.eqb (ck_name c) name); [| now apply IH].
    cbn [snd]. rewrite Hlive. cbn [andb]. now destruct (String.eqb (ck_value c) "").
  - destruct (String.eqb_spec (ck_name c) name) as [Heq | _]; [| now apply IH].
    rewrite Hlive. cbn [andb]. rewrite IH by assumption.
    fold (store_get name st). rewrite store_get_none; [reflexivity |]. now subst.
Qed.

(** *** Writing a cookie *)

Lemma find_app_first {A : Type} (f : A -> bool) (l1 l2 : list A) :
  List.find f (l1 ++ l2)%list =
  match List.find f l1 with
  | Some x => Some x
  | None => List.find f l2
  end.
Proof.
  induction l1 as [| x l1 IH]; [reflexivity |].
  cbn [app List.find]. now destruct (f x).
Qed.

Lemma store_get_others (n m : string) (st : Store) :
  store_get n (List.filter (fun d => negb (String.eqb (ck_name d) m)) st) =
  if String.eqb m n then None else store_get n st.
Proof.
  unfold store_get. induction st as [| c st IH].
  - cbn. now destruct (String.eqb m n).
  - cbn [List.filter List.find].
    destruct (String.eqb_spec (ck_name c) m) as [Hcm | Hcm]; cbn [negb List.find].
    + rewrite IH. destruct (String.eqb_spec m n) as [Hmn | Hmn]; [reflexivity |].
      destruct (String.eqb_spec (ck_name c) n) as [Hcn | _]; [congruence | reflexivity].
    + destruct (String.eqb_spec (ck_name c) n) as [Hcn | Hcn].
      * destruct (String.eqb_spec m n) as [Hmn | _]; [congruence | reflexivity].
      * exact IH.
Qed.

Lemma store_get_app (n : string) (l1 l2 : Store) :
  store_get n (l1 ++ l2)%list =
  match store_get n l1 with
  | Some x => Some x
  | None => store_get n l2
  end.
Proof. apply find_app_first. Qed.

Lemma store_get_assign (n : string) (now : Z) (c : StoredCookie) (st : Store) :
  store_get n (assign now c st) =
  if String.eqb (ck_name c) n then (if live now c then Some (stored c) else None)
  else store_get n st.
Proof.
  unfold assign. destruct (live now c).
  - rewrite store_get_app, store_get_others. unfold store_get at 2.
    cbn [List.find stored ck_name].
    destruct (String.eqb (ck_name c) n); [reflexivity |].
    now destruct (store_get n st).
  - apply store_get_others.
Qed.

(** *** The white space around a value *)

Lemma mentions_strip_leading (x : ascii) (s : string) :
  mentions x s = false -> mentions x (strip_leading s) = false.
Proof.
  induction s as [| c s IH]; [reflexivity |].
  cbn [strip_leading]. destruct (is_wsp c); [| auto].
  cbn [mentions]. intros H. apply orb_false_elim in H. now apply IH.
Qed.

Lemma mentions_strip_trailing (x : ascii) (s : string) :
  mentions x s = false -> mentions x (strip_trailing s) = false.
Proof.
  induction s as [| c s IH]; [reflexivity |].
  cbn [mentions strip_trailing]. intros H. apply orb_false_elim in H.
  destruct H as [Hc Hs]. specialize (IH Hs).
  destruct (strip_trailing s) as [| d kept].
  - destruct (is_wsp c); [reflexivity |]. cbn [mentions]. now rewrite Hc.
  - cbn [mentions] in *. now rewrite Hc, IH.
Qed.

Lemma mentions_strip_wsp (x : ascii) (s : string) :
  mentions x s = false -> mentions x (strip_wsp s) = false.
Proof. intros H. now apply mentions_strip_trailing, mentions_strip_leading. Qed.

(** A string that begins and ends with other characters is left alone. *)
Definition no_wsp (s : string) : Prop :=
  forall c, mentions c s = true -> is_wsp c = false.

Lemma no_wsp_tail (c : ascii) (s : string) : no_wsp (String c s) -> is_wsp c = false /\ no_wsp s.
Proof.
  intros H. split.
  - apply H. cbn [mentions]. now rewrite Ascii.eqb_refl.
  - intros d Hd. apply H. cbn [mentions]. rewrite Hd. apply orb_true_r.
Qed.

Lemma strip_trailing_no_wsp (s : string) : no_wsp s -> strip_trailing s = s.
Proof.
  induction s as [| c s IH]; [reflexivity |].
  intros H. apply no_wsp_tail in H. destruct H as [Hc Hs].
  cbn [strip_trailing]. rewrite (IH Hs). destruct s; [now rewrite Hc | reflexivity].
Qed.

Lemma strip_wsp_no_wsp (s : string) : no_wsp s -> strip_wsp s = s.
Proof.
  intros H. unfold strip_wsp.
  assert (strip_leading s = s) as ->.
  { destruct s as [| c s]; [reflexivity |].
    apply no_wsp_tail in H. destruct H as [Hc _]. cbn [strip_leading]. now rewrite Hc. }
  now apply strip_trailing_no_wsp.
Qed.

Lemma digits_no_wsp (s : string) : UrlPaths.every UrlPaths.is_digit s = true -> no_wsp s.
Proof.
  induction s as [| c s IH]; intros Hs d Hd; [discriminate Hd |].
  cbn [UrlPaths.every] in Hs. apply andb_prop in Hs. destruct Hs as [Hc Hs].
  cbn [mentions] in Hd. apply orb_prop in Hd. destruct Hd as [Hd | Hd].
  - apply Ascii.eqb_eq in Hd. subst d.
    unfold UrlPaths.is_digit in Hc. apply andb_prop in Hc. destruct Hc as [Hlo Hhi].
    apply Z.leb_le in Hlo, Hhi. unfold is_wsp.
    apply orb_false_intro; apply Z.eqb_neq; lia.
  - now apply IH.
Qed.

Lemma strip_wsp_decimal (t : Z) : 0 <= t -> strip_wsp (decimal t) = decimal t.
Proof. intros Ht. now apply strip_wsp_no_wsp, digits_no_wsp, decimal_digits. Qed.

(** What is left of a value begins with a character that is kept. *)
Lemma strip_leading_head (s : string) :
  match strip_leading s with
  | EmptyString => True
  | String c _ => is_wsp c = false
  end.
Proof.
  induction s as [| c s IH]; [exact I |].
  cbn [strip_leading]. destruct (is_wsp c) eqn:Hc; [exact IH | exact Hc].
Qed.

Lemma strip_trailing_head (c : ascii) (s : string) :
  is_wsp c = false ->
  exists kept, strip_trailing (String c s) = String c kept.
Proof.
  intros Hc. cbn [strip_trailing]. destruct (strip_trailing s) as [| d kept].
  - rewrite Hc. eauto.
  - eauto.
Qed.

Lemma strip_trailing_idem (s : string) :
  strip_trailing (strip_trailing s) = strip_trailing s.
Proof.
  induction s as [| c s IH]; [reflexivity |].
  cbn [strip_trailing]. destruct (strip_trailing s) as [| d kept] eqn:Hs.
  - destruct (is_wsp c) eqn:Hc; [reflexivity |]. cbn [strip_trailing]. now rewrite Hc.
  - change (strip_trailing (String c (String d kept)))
      with (match strip_trailing (String d kept) with
            | EmptyString => if is_wsp c then EmptyString else String c EmptyString
            | String d' kept' => String c (String d' kept')
            end).
    now rewrite IH.
Qed.

Lemma strip_wsp_idem (s : string) : strip_wsp (strip_wsp s) = strip_wsp s.
Proof.
  unfold strip_wsp. pose proof (strip_leading_head s) as Hhead.
  destruct (strip_leading s) as [| c rest]; [reflexivity |].
  destruct (strip_trailing_head c rest Hhead) as (kept & Hkept).
  rewrite Hkept. cbn [strip_leading]. rewrite Hhead. rewrite <- Hkept.
  apply strip_trailing_idem.
Qed.

Lemma value_chars_no_semicolon (s : string) :
  value_chars s = true -> mentions ";" s = false.
Proof.
  induction s as [| c s IH]; [reflexivity |].
  cbn [value_chars mentions]. intros H. apply andb_prop in H. destruct H as [Hc Hs].
  rewrite (IH Hs), orb_false_r.
  unfold is_value_char in Hc. apply andb_prop in Hc. destruct Hc as [Hc _].
  apply andb_prop in Hc. destruct Hc as [Hc _].
  rewrite Ascii.eqb_sym. now destruct (Ascii.eqb c ";").
Qed.

Lemma plain_value_no_semicolon (s : string) :
  plain_value s = true -> mentions ";" s = false.
Proof.
  unfold plain_value. intros H. apply andb_prop in H.
  now apply value_chars_no_semicolon.
Qed.

(** Every cookie of the store has a name: a browser lists a cookie without
    a name by its value alone. *)
Definition named_store (st : Store) : Prop :=
  Forall (fun c => ck_name c <> "") st.

Lemma stored_well_formed (c : StoredCookie) :
  well_formed_cookie (pair_of c) -> well_formed_cookie (pair_of (stored c)).
Proof.
  intros [Hname Hvalue]. split; [exact Hname |].
  cbn [pair_of stored snd ck_value] in *. now apply mentions_strip_wsp.
Qed.

Lemma others_names (m : string) (st : Store) (n : string) :
  In n (map ck_name (List.filter (fun d => negb (String.eqb (ck_name d) m)) st)) ->
  In n (map ck_name st) /\ n <> m.
Proof.
  induction st as [| c st IH]; [easy |].
  cbn [List.filter]. destruct (String.eqb_spec (ck_name c) m) as [Heq | Hne];
    cbn [negb map In]; intros H.
  - destruct (IH H). tauto.
  - destruct H as [<- | H]; [tauto |]. destruct (IH H). tauto.
Qed.

Lemma NoDup_snoc {A : Type} (l : list A) (x : A) :
  List.NoDup l -> ~ In x l -> List.NoDup (l ++ [x])%list.
Proof.
  induction l as [| y l IH]; intros Hl Hx; cbn [app].
  - constructor; [easy | constructor].
  - inversion Hl as [| ? ? Hy Hrest]; subst. cbn [In] in Hx. constructor.
    + rewrite in_app_iff. cbn [In]. intros [H | [H | []]]; [tauto |]. subst. tauto.
    + apply IH; tauto.
Qed.

Lemma assign_well_formed (now : Z) (c : StoredCookie) (st : Store) :
  well_formed_store st -> well_formed_cookie (pair_of c) ->
  well_formed_store (assign now c st).
Proof.
  intros [Hall Hnodup] Hc.
  set (others := List.filter (fun d => negb (String.eqb (ck_name d) (ck_name c))) st).
  assert (Hothers : well_formed_store others).
  { split.
    - apply List.Forall_forall. intros d Hd. apply filter_In in Hd.
      rewrite List.Forall_forall in Hall. now apply Hall.
    - subst others. clear Hall. induction st as [| d st IH]; [constructor |].
      inversion Hnodup as [| ? ? Hnotin Hrest]; subst.
      cbn [List.filter]. destruct (negb (String.eqb (ck_name d) (ck_name c)));
        [| now apply IH].
      cbn [map]. constructor; [| now apply IH].
      intros Hin. apply others_names in Hin. tauto. }
  unfold assign. fold others. destruct (live now c); [| exact Hothers].
  destruct Hothers as [Hall' Hnodup']. split.
  - apply List.Forall_app. split; [assumption |].
    constructor; [now apply stored_well_formed | constructor].
  - rewrite List.map_app. cbn [map stored ck_name]. apply NoDup_snoc; [assumption |].
    intros Hin. apply others_names in Hin. tauto.
Qed.

(** *** The two cookies of a session *)

(** The expiry of a cookie written at time [t] for [SESSION_DURATION_DAYS]
    days. *)
Definition expiry (t : Z) : Z := toUTCString_time (t + maxInactivity).

Definition tokenCookie (token : string) (E : Z) : StoredCookie :=
  {| ck_name := "token"; ck_value := token; ck_expires := E |}.

Definition activityCookie (t : Z) : StoredCookie :=
  {| ck_name := "lastActivity"; ck_value := decimal t; ck_expires := expiry t |}.

Definition emptyCookie (name : string) : StoredCookie :=
  {| ck_name := name; ck_value := ""; ck_expires := 0 |}.

Lemma expiry_bounds (t : Z) : t + maxInactivity - 1000 < expiry t <= t + maxInactivity.
Proof.
  unfold expiry, toUTCString_time.
  pose proof (Z.mul_div_le (t + maxInactivity) 1000 ltac:(lia)).
  pose proof (Z.mul_succ_div_gt (t + maxInactivity) 1000 ltac:(lia)). lia.
Qed.

Lemma expiry_mono (a b : Z) : a <= b -> expiry a <= expiry b.
Proof.
  intros Hab. unfold expiry, toUTCString_time.
  pose proof (Z.div_le_mono (a + maxInactivity) (b + maxInactivity) 1000 ltac:(lia)
                ltac:(lia)). lia.
Qed.

Lemma expiry_ahead (t : Z) : t < expiry t.
Proof. pose proof (expiry_bounds t). rewrite maxInactivity_value in *. lia. Qed.

Lemma setCookie_token (token : string) (now : Z) (st : Store) :
  setCookie "token" token SESSION_DURATION_DAYS now (Some st)
  = Some (assign now (tokenCookie token (expiry now)) st).
Proof. reflexivity. Qed.

Lemma updateLastActivity_store (now : Z) (st : Store) :
  updateLastActivity now (Some st) = Some (assign now (activityCookie now) st).
Proof. reflexivity. Qed.

Lemma clearSession_store (now : Z) (st : Store) :
  clearSession_at now (Some st)
  = Some (assign now (emptyCookie "lastActivity") (assign now (emptyCookie "token") st)).
Proof. reflexivity. Qed.

Lemma token_name : simple_name "token".
Proof. split; reflexivity. Qed.

Lemma activity_name : simple_name "lastActivity".
Proof. split; reflexivity. Qed.

Lemma tokenCookie_well_formed (token : string) (E : Z) :
  mentions ";" token = false -> well_formed_cookie (pair_of (tokenCookie token E)).
Proof. intros H. split; [exact token_name | exact H]. Qed.

Lemma activityCookie_well_formed (t : Z) :
  0 <= t -> well_formed_cookie (pair_of (activityCookie t)).
Proof.
  intros Ht. split; [exact activity_name |].
  apply digits_no_semicolon, decimal_digits, Ht.
Qed.

Lemma emptyCookie_well_formed (name : string) :
  simple_name name -> well_formed_cookie (pair_of (emptyCookie name)).
Proof. intros H. split; [exact H | reflexivity]. Qed.

Lemma store_get_assign_same (now : Z) (c : StoredCookie) (st : Store) :
  store_get (ck_name c) (assign now c st) = if live now c then Some (stored c) else None.
Proof. now rewrite store_get_assign, String.eqb_refl. Qed.

Lemma stored_activityCookie (t : Z) : 0 <= t -> stored (activityCookie t) = activityCookie t.
Proof.
  intros Ht. unfold stored, activityCookie. cbn [ck_name ck_value ck_expires].
  now rewrite strip_wsp_decimal.
Qed.

Lemma stored_tokenCookie (token : string) (E : Z) :
  stored (tokenCookie token E) = tokenCookie (strip_wsp token) E.
Proof. reflexivity. Qed.

Lemma store_get_assign_other (n : string) (now : Z) (c : StoredCookie) (st : Store) :
  ck_name c <> n -> store_get n (assign now c st) = store_get n st.
Proof.
  intros Hne. rewrite store_get_assign.
  now destruct (String.eqb_spec (ck_name c) n).
Qed.

Lemma clearSession_well_formed (now : Z) (st : Store) :
  well_formed_store st ->
  well_formed_store
    (assign now (emptyCookie "lastActivity") (assign now (emptyCookie "token") st)).
Proof.
  intros Hwf. apply assign_well_formed; [apply assign_well_formed |].
  - exact Hwf.
  - apply emptyCookie_well_formed, token_name.
  - apply emptyCookie_well_formed, activity_name.
Qed.

(** After [clearSession] the token cookie is gone, or empty where the clock
    reads a time before 1970. *)
Lemma clearSession_token (now : Z) (st : Store) (c : StoredCookie) :
  store_get "token"
    (assign now (emptyCookie "lastActivity") (assign now (emptyCookie "token") st))
  = Some c -> ck_value c = "".
Proof.
  rewrite store_get_assign_other by discriminate.
  change "token" with (ck_name (emptyCookie "token")) at 1.
  rewrite store_get_assign_same.
  destruct (live now (emptyCookie "token")); [| discriminate].
  now intros [= <-].
Qed.

(** *** The session the cookies stand for *)

(** Signed in with a token cookie expiring at [E] and a last activity
    written at [last], or signed out. *)
Inductive Session : Type :=
  | SignedOut
  | SignedIn (E last : Z).

Definition session_valid (now : Z) (s : Session) : bool :=
  match s with
  | SignedIn E last => (now <? E) && (now <? expiry last)
  | SignedOut => false
  end.

Definition token_visible (now : Z) (s : Session) : bool :=
  match s with
  | SignedIn E _ => now <? E
  | SignedOut => false
  end.

Definition session_after (s : Session) (ev : SessionEvent * Z) : Session :=
  match s with
  | SignedOut => SignedOut
  | SignedIn E last =>
      match ev with
      | (UserActivity, now) => if now <? E then SignedIn E now else s
      | (SessionCheck, now) =>
          if session_valid now s then
            if ACTIVITY_REFRESH_THRESHOLD <? now - last then SignedIn (expiry now) now
            else SignedIn E now
          else SignedOut
      | (ReadToken, now) => if session_valid now s then s else SignedOut
      end
  end.

Definition related (token : string) (s : Session) (st : Store) : Prop :=
  well_formed_store st /\
  match s with
  | SignedIn E last =>
      0 < last /\
      store_get "token" st = Some (tokenCookie token E) /\
      store_get "lastActivity" st = Some (activityCookie last)
  | SignedOut => forall c, store_get "token" st = Some c -> ck_value c = ""
  end.

Lemma eqb_empty (s : string) : s <> "" -> String.eqb s "" = false.
Proof. intros H. now apply String.eqb_neq. Qed.

Lemma related_token (token : string) (s : Session) (st : Store) (now : Z) :
  token <> "" -> related token s st ->
  getCookie "token" (document_at now (Some st))
  = if token_visible now s then Some token else None.
Proof.
  intros Htoken [Hwf Hs]. rewrite (getCookie_read _ _ _ token_name Hwf).
  unfold read. destruct s as [| E last].
  - cbn [token_visible]. destruct (store_get "token" st) as [c |] eqn:Hc; [| reflexivity].
    rewrite (Hs c eq_refl). cbn. now rewrite andb_false_r.
  - destruct Hs as (_ & -> & _). cbn [token_visible tokenCookie ck_value].
    rewrite (eqb_empty _ Htoken). unfold live. cbn [tokenCookie ck_expires negb].
    now rewrite andb_true_r.
Qed.

Lemma related_activity (token : string) (E last : Z) (st : Store) (now : Z) :
  related token (SignedIn E last) st ->
  getLastActivity (document_at now (Some st))
  = if now <? expiry last then Some last else Some 0.
Proof.
  intros [Hwf (Hlast & _ & Hactivity)]. unfold getLastActivity.
  rewrite (getCookie_read _ _ _ activity_name Hwf). unfold read. rewrite Hactivity.
  cbn [activityCookie ck_value]. rewrite (eqb_empty _ (decimal_not_empty last)).
  unfold live. cbn [activityCookie ck_expires negb]. rewrite andb_true_r.
  destruct (now <? expiry last); [| reflexivity].
  apply parseInt_decimal. lia.
Qed.

Lemma related_valid (token : string) (s : Session) (st : Store) (now : Z) :
  token <> "" -> related token s st ->
  isSessionValid (document_at now (Some st)) now = session_valid now s.
Proof.
  intros Htoken Hrel. unfold isSessionValid.
  rewrite (related_token token s st now Htoken Hrel).
  destruct s as [| E last]; [reflexivity |].
  cbn [token_visible session_valid].
  destruct (now <? E); [| reflexivity].
  rewrite (related_activity token E last st now Hrel).
  destruct Hrel as [_ (Hlast & _)].
  destruct (Z.ltb_spec now (expiry last)) as [Hlive | _]; cbn [andb]; [| reflexivity].
  destruct (Z.eqb_spec last 0) as [-> | _]; [lia |].
  apply Z.ltb_lt. pose proof (expiry_bounds last). lia.
Qed.

Lemma related_signed_out (token : string) (now : Z) (st : Store) :
  well_formed_store st ->
  related token SignedOut
    (assign now (emptyCookie "lastActivity") (assign now (emptyCookie "token") st)).
Proof.
  intros Hwf. split; [now apply clearSession_well_formed |].
  intros c. apply clearSession_token.
Qed.

Lemma related_activity_written (token : string) (E last now : Z) (st : Store) :
  0 < now -> related token (SignedIn E last) st ->
  related token (SignedIn E now) (assign now (activityCookie now) st).
Proof.
  intros Hnow [Hwf (Hlast & Htoken & Hactivity)]. split.
  - apply assign_well_formed; [exact Hwf | apply activityCookie_well_formed; lia].
  - split; [exact Hnow |]. split.
    + rewrite store_get_assign_other by discriminate. exact Htoken.
    + change "lastActivity" with (ck_name (activityCookie now)) at 1.
      rewrite store_get_assign_same, stored_activityCookie by lia.
      unfold live. cbn [activityCookie ck_expires].
      pose proof (expiry_ahead now). now destruct (Z.ltb_spec now (expiry now)); [| lia].
Qed.

(** The store after the token cookie and then the last activity have been
    written at time [now]: the token is stored without the white space
    around it. *)
Lemma related_login (token : string) (now : Z) (st : Store) :
  mentions ";" token = false -> 0 < now -> well_formed_store st ->
  related (strip_wsp token) (SignedIn (expiry now) now)
    (assign now (activityCookie now) (assign now (tokenCookie token (expiry now)) st)).
Proof.
  intros Htoken Hnow Hwf. pose proof (expiry_ahead now) as Hahead. split.
  - apply assign_well_formed; [apply assign_well_formed |];
      [exact Hwf | now apply tokenCookie_well_formed
      | apply activityCookie_well_formed; lia].
  - split; [exact Hnow |]. split.
    + rewrite store_get_assign_other by discriminate.
      change "token" with (ck_name (tokenCookie token (expiry now))) at 1.
      rewrite store_get_assign_same, stored_tokenCookie.
      unfold live. cbn [tokenCookie ck_expires].
      now destruct (Z.ltb_spec now (expiry now)); [| lia].
    + change "lastActivity" with (ck_name (activityCookie now)) at 1.
      rewrite store_get_assign_same, stored_activityCookie by lia.
      unfold live. cbn [activityCookie ck_expires].
      now destruct (Z.ltb_spec now (expiry now)); [| lia].
Qed.

(** A login with a token of white space only leaves an empty token cookie:
    the session is signed out. *)
Lemma related_login_empty (token other : string) (now : Z) (st : Store) :
  mentions ";" token = false -> 0 <= now -> well_formed_store st ->
  strip_wsp token = "" ->
  related other SignedOut
    (assign now (activityCookie now) (assign now (tokenCookie token (expiry now)) st)).
Proof.
  intros Htoken Hnow Hwf Hempty. split.
  - apply assign_well_formed; [apply assign_well_formed |];
      [exact Hwf | now apply tokenCookie_well_formed
      | apply activityCookie_well_formed; lia].
  - intros c. rewrite store_get_assign_other by discriminate.
    change "token" with (ck_name (tokenCookie token (expiry now))) at 1.
    rewrite store_get_assign_same, stored_tokenCookie, Hempty.
    destruct (live now (tokenCookie token (expiry now))); [| discriminate].
    now intros [= <-].
Qed.

Lemma setAuthToken_store (token : string) (now : Z) (st : Store) :
  setAuthToken token now (Some st)
  = Some (assign now (activityCookie now)
            (assign now (tokenCookie token (expiry now)) st)).
Proof. reflexivity. Qed.

(** *** One event *)

Lemma session_step_signed_out (token : string) (st : Store) (ev : SessionEvent * Z) :
  token <> "" -> related token SignedOut st ->
  exists st', session_step (Some st) ev = Some st' /\ related token SignedOut st'.
Proof.
  intros Htoken Hrel. destruct ev as [[| |] now]; cbn [session_step].
  - unfold trackUserActivity. rewrite (related_token token _ _ now Htoken Hrel).
    cbn [token_visible]. eauto.
  - unfold checkSession, autoRefreshSession, refreshSessionIfNeeded.
    rewrite (related_valid token _ _ now Htoken Hrel). cbn [session_valid negb fst].
    rewrite clearSession_store. eexists. split; [reflexivity |].
    apply related_signed_out, Hrel.
  - unfold getAuthToken_at.
    rewrite (related_valid token _ _ now Htoken Hrel). cbn [session_valid negb fst].
    rewrite clearSession_store. eexists. split; [reflexivity |].
    apply related_signed_out, Hrel.
Qed.

Lemma session_step_related (token : string) (s : Session) (st : Store)
    (e : SessionEvent) (now : Z) :
  token <> "" -> mentions ";" token = false -> strip_wsp token = token ->
  0 < now -> related token s st ->
  exists st',
    session_step (Some st) (e, now) = Some st' /\
    related token (session_after s (e, now)) st'.
Proof.
  intros Htoken Hsemi Hkept Hnow Hrel. destruct s as [| E last].
  { cbn [session_after]. now apply session_step_signed_out. }
  pose proof (related_valid token _ _ now Htoken Hrel) as Hvalid.
  pose proof (related_token token _ _ now Htoken Hrel) as Hread.
  pose proof (related_activity token _ _ _ now Hrel) as Hactivity.
  cbn [token_visible] in Hread.
  destruct e; cbn [session_step session_after].
  - unfold trackUserActivity. rewrite Hread.
    destruct (now <? E); [| eauto].
    rewrite updateLastActivity_store. eexists. split; [reflexivity |].
    now apply related_activity_written with (last := last).
  - unfold checkSession, autoRefreshSession, refreshSessionIfNeeded.
    rewrite Hvalid. destruct (session_valid now (SignedIn E last)) eqn:Hv; cbn [negb].
    + cbn [session_valid] in Hv. apply andb_prop in Hv. destruct Hv as [HE Hlast].
      rewrite Hactivity, Hlast, Hread, HE. cbn [refresh_due].
      destruct (ACTIVITY_REFRESH_THRESHOLD <? now - last); cbn [fst].
      * rewrite setCookie_token, updateLastActivity_store.
        eexists. split; [reflexivity |].
        rewrite <- Hkept at 1. apply related_login; [assumption .. | apply Hrel].
      * rewrite updateLastActivity_store. eexists. split; [reflexivity |].
        now apply related_activity_written with (last := last).
    + cbn [fst]. rewrite clearSession_store. eexists. split; [reflexivity |].
      apply related_signed_out, Hrel.
  - unfold getAuthToken_at. rewrite Hvalid.
    destruct (session_valid now (SignedIn E last)); cbn [negb fst]; [eauto |].
    rewrite clearSession_store. eexists. split; [reflexivity |].
    apply related_signed_out, Hrel.
Qed.

(** *** A run of events *)

Definition session_of (s : Session) (events : list (SessionEvent * Z)) : Session :=
  fold_left session_after events s.

Definition after_epoch (events : list (SessionEvent * Z)) : Prop :=
  List.Forall (fun ev => 0 < snd ev) events.

Lemma session_run_related (token : string) (events : list (SessionEvent * Z)) :
  token <> "" -> mentions ";" token = false -> strip_wsp token = token ->
  after_epoch events ->
  forall s st,
    related token s st ->
    exists st',
      session_run events (Some st) = Some st' /\
      related token (session_of s events) st'.
Proof.
  intros Htoken Hsemi Hkept Hpos. induction Hpos as [| [e now] events Hnow Hpos IH];
    intros s st Hrel.
  - exists st. split; [reflexivity | exact Hrel].
  - destruct (session_step_related token s st e now Htoken Hsemi Hkept Hnow Hrel)
      as (st1 & Hstep & Hrel1).
    destruct (IH _ _ Hrel1) as (st' & Hrun & Hrel').
    exists st'. split; [| exact Hrel'].
    unfold session_run in *. cbn [fold_left]. now rewrite Hstep.
Qed.

Lemma session_run_signed_out (token : string) (events : list (SessionEvent * Z)) :
  token <> "" ->
  forall st,
    related token SignedOut st ->
    exists st', session_run events (Some st) = Some st' /\ related token SignedOut st'.
Proof.
  intros Htoken. induction events as [| ev events IH]; intros st Hrel.
  - exists st. split; [reflexivity | exact Hrel].
  - destruct (session_step_signed_out token st ev Htoken Hrel) as (st1 & Hstep & Hrel1).
    destruct (IH _ Hrel1) as (st' & Hrun & Hrel').
    exists st'. split; [| exact Hrel'].
    unfold session_run in *. cbn [fold_left]. now rewrite Hstep.
Qed.

(** What [getAuthToken] returns in a store that stands for [s]. *)
Lemma related_getAuthToken (token : string) (s : Session) (st : Store) (now : Z) :
  token <> "" -> related token s st ->
  getAuthToken_at now (Some st)
  = if session_valid now s then (Some st, Some token)
    else (clearSession_at now (Some st), None).
Proof.
  intros Htoken Hrel. unfold getAuthToken_at.
  rewrite (related_valid token _ _ now Htoken Hrel).
  destruct (session_valid now s) eqn:Hv; cbn [negb]; [| reflexivity].
  rewrite (related_token token _ _ now Htoken Hrel).
  destruct s as [| E last]; [discriminate |].
  cbn [session_valid token_visible] in *. apply andb_prop in Hv. destruct Hv as [-> _].
  reflexivity.
Qed.

(** *** The store and the jar *)

Lemma visible_others (now : Z) (m : string) (st : Store) :
  visible now (List.filter (fun d => negb (String.eqb (ck_name d) m)) st)
  = List.filter (fun c => negb (String.eqb (fst c) m)) (visible now st).
Proof.
  unfold visible. induction st as [| c st IH]; [reflexivity |].
  cbn [List.filter].
  destruct (String.eqb (ck_name c) m) eqn:Hname; destruct (live now c) eqn:Hlive;
    cbn [negb List.filter map fst]; rewrite ?Hlive, ?Hname; cbn [negb map];
    now rewrite IH.
Qed.

(** From 1970 on, deleting a cookie by an expiry in 1970 removes it from
    what the page sees, as [deleteCookie] has it. *)
Lemma deleteCookie_at_visible (name : string) (now : Z) (b : Browser) :
  0 <= now ->
  document_at now (deleteCookie_at name now b) = deleteCookie name (document_at now b).
Proof.
  intros Hnow. destruct b as [st |]; [| reflexivity].
  cbn [deleteCookie_at document_at option_map deleteCookie]. f_equal.
  unfold assign, live. cbn [ck_expires ck_name].
  destruct (Z.ltb_spec now 0); [lia |]. apply visible_others.
Qed.

(** [getAuthToken_at] is [getAuthToken] on the cookies the page sees. *)
Lemma getAuthToken_at_visible (now : Z) (b : Browser) :
  0 <= now ->
  getAuthToken (document_at now b) now
  = (document_at now (fst (getAuthToken_at now b)), snd (getAuthToken_at now b)).
Proof.
  intros Hnow. unfold getAuthToken, getAuthToken_at.
  destruct (isSessionValid (document_at now b) now); cbn [negb fst snd]; [reflexivity |].
  unfold clearSession_at, clearSession.
  now rewrite !deleteCookie_at_visible.
Qed.

End CookieStoreFacts.

(** ** cookies.ts: what a session does *)

Module SessionFacts.
Import Js UrlEncryption Cookies CookieStore JsFacts CookiesFacts DecimalFacts
  CookieStoreFacts.





(** X8: after [setAuthToken] at time [t0] with a plain token, the browser
    keeps the token without the white space around it. If something is
    left of it, [getAuthToken] returns that and leaves the cookies alone at
    every time before the cookies' expiry, and clears the session and
    returns null from then on; if nothing is left, it returns null at every
    time. The expiry is [t0] plus two days, cut to the second. *)
Theorem setAuthToken_getAuthToken (st : Store) (token : string) (t0 t : Z) :
  well_formed_store st -> named_store st -> plain_value token = true -> 0 < t0 ->
  let b := setAuthToken token t0 (Some st) in
  let E := toUTCString_time (t0 + maxInactivity) in
  getAuthToken_at t b =
    (if (t <? E) && negb (String.eqb (strip_wsp token) "")
     then (b, Some (strip_wsp token))
     else (clearSession_at t b, None)) /\
  t0 + maxInactivity - 1000 < E <= t0 + maxInactivity.
Proof.
  intros Hwf _ Hplain Ht0 b E. split; [| apply expiry_bounds].
  pose proof (plain_value_no_semicolon token Hplain) as Hsemi.
  subst b. rewrite setAuthToken_store.
  destruct (String.eqb_spec (strip_wsp token) "") as [Hempty | Hkept].
  - rewrite andb_false_r.
    assert (Hx : "x" <> "") by discriminate.
    rewrite (related_getAuthToken "x" SignedOut _ t Hx
               (related_login_empty token "x" t0 st Hsemi ltac:(lia) Hwf Hempty)).
    reflexivity.
  - rewrite andb_true_r.
    rewrite (related_getAuthToken _ _ _ t Hkept (related_login token t0 st Hsemi Ht0 Hwf)).
    cbn [session_valid]. fold E. unfold expiry. fold E.
    now destruct (t <? E).
Qed.

Lemma setAuthToken_getAuthToken_witness :
  snd (getAuthToken_at 1700000060000 (setAuthToken " abc " 1700000000000 (Some [])))
  = Some "abc".
Proof.
  assert (Hwf : well_formed_store []) by (split; constructor).
  destruct (setAuthToken_getAuthToken [] " abc " 1700000000000 1700000060000 Hwf
              ltac:(constructor) eq_refl ltac:(lia)) as [Hget _].
  exact (eq_trans (f_equal snd Hget) eq_refl).
Defined.

(** X9: [refreshSessionIfNeeded] called at time [now] after a login at [t0]
    with a plain token: once the cookies have expired, or when nothing is
    left of the token without the white space around it, it clears the
    session and returns false; otherwise it returns true, and it writes the
    token cookie anew, as a login with the token read back does at [now],
    only when more than thirty minutes have passed since the login; if not,
    only the last activity is written. *)
Theorem refreshSessionIfNeeded_after_login (st : Store) (token : string) (t0 now : Z) :
  well_formed_store st -> named_store st -> plain_value token = true -> 0 < t0 ->
  let b := setAuthToken token t0 (Some st) in
  refreshSessionIfNeeded now b =
  if (now <? toUTCString_time (t0 + maxInactivity))
     && negb (String.eqb (strip_wsp token) "") then
    if ACTIVITY_REFRESH_THRESHOLD <? now - t0
    then (setAuthToken (strip_wsp token) now b, true)
    else (updateLastActivity now b, true)
  else (clearSession_at now b, false).
Proof.
  intros Hwf _ Hplain Ht0 b. subst b. rewrite setAuthToken_store.
  pose proof (plain_value_no_semicolon token Hplain) as Hsemi.
  unfold refreshSessionIfNeeded.
  destruct (String.eqb_spec (strip_wsp token) "") as [Hempty | Hkept].
  - rewrite andb_false_r.
    assert (Hx : "x" <> "") by discriminate.
    now rewrite (related_valid "x" SignedOut _ now Hx
                   (related_login_empty token "x" t0 st Hsemi ltac:(lia) Hwf Hempty)).
  - rewrite andb_true_r.
    pose proof (related_login token t0 st Hsemi Ht0 Hwf) as Hrel.
    rewrite (related_valid _ _ _ now Hkept Hrel).
    rewrite (related_token _ _ _ now Hkept Hrel).
    rewrite (related_activity _ _ _ _ now Hrel).
    cbn [session_valid token_visible]. fold (expiry t0).
    destruct (now <? expiry t0); cbn [andb negb refresh_due]; [| reflexivity].
    now destruct (ACTIVITY_REFRESH_THRESHOLD <? now - t0).
Qed.

Lemma refreshSessionIfNeeded_after_login_witness :
  refreshSessionIfNeeded 1700003600000 (setAuthToken "abc" 1700000000000 (Some []))
  = (setAuthToken "abc" 1700003600000 (setAuthToken "abc" 1700000000000 (Some [])), true).
Proof.
  assert (Hwf : well_formed_store []) by (split; constructor).
  exact (eq_trans
           (refreshSessionIfNeeded_after_login [] "abc" 1700000000000 1700003600000
              Hwf ltac:(constructor) eq_refl ltac:(lia))
           eq_refl).
Defined.

(** *** A page left open *)

(** The events come in the order of the clock, each at most thirty minutes
    after the last activity written: the result is the time of the last
    event and of the last activity. *)
Fixpoint pace (clock last : Z) (events : list (SessionEvent * Z)) : option (Z * Z) :=
  match events with
  | [] => Some (clock, last)
  | (e, now) :: rest =>
      if (clock <=? now) && (now <=? last + ACTIVITY_REFRESH_THRESHOLD) then
        pace now (match e with ReadToken => last | _ => now end) rest
      else None
  end.

Lemma pace_after_epoch (events : list (SessionEvent * Z)) :
  forall clock last r, 0 < clock -> pace clock last events = Some r -> after_epoch events.
Proof.
  induction events as [| [e now] events IH]; intros clock last r Hclock Hpace.
  - constructor.
  - cbn [pace] in Hpace.
    destruct ((clock <=? now) && (now <=? last + ACTIVITY_REFRESH_THRESHOLD)) eqn:Hgap;
      [| discriminate].
    apply andb_prop in Hgap. destruct Hgap as [Hle _]. apply Z.leb_le in Hle.
    constructor; [cbn [snd]; lia |].
    eapply (IH now); [lia | exact Hpace].
Qed.

(** While the events keep pace the token cookie is the one of the login. *)
Definition kept (E0 clock last : Z) (s : Session) : Prop :=
  match s with
  | SignedOut => E0 <= clock
  | SignedIn E l => E = E0 /\ (clock < E0 -> l = last)
  end.

Lemma pace_kept (E0 : Z) (events : list (SessionEvent * Z)) :
  forall clock last clock' last' s,
    pace clock last events = Some (clock', last') ->
    kept E0 clock last s ->
    kept E0 clock' last' (session_of s events).
Proof.
  induction events as [| [e now] events IH]; intros clock last clock' last' s Hpace Hkept.
  - cbn [pace] in Hpace. injection Hpace as <- <-. exact Hkept.
  - cbn [pace] in Hpace.
    destruct ((clock <=? now) && (now <=? last + ACTIVITY_REFRESH_THRESHOLD)) eqn:Hgap;
      [| discriminate].
    apply andb_prop in Hgap. destruct Hgap as [Hle Hgap].
    apply Z.leb_le in Hle, Hgap. unfold ACTIVITY_REFRESH_THRESHOLD in Hgap.
    unfold session_of. cbn [fold_left]. apply (IH _ _ _ _ _ Hpace). clear IH Hpace.
    destruct s as [| E l].
    + cbn [session_after kept] in *. lia.
    + destruct Hkept as [-> Hl]. pose proof (expiry_bounds l) as Hexp.
      rewrite maxInactivity_value in Hexp.
      destruct e; cbn [session_after session_valid].
      * destruct (Z.ltb_spec now E0); cbn [kept]; split; auto; lia.
      * destruct (Z.ltb_spec now E0) as [HE | HE]; cbn [andb kept]; [| lia].
        specialize (Hl ltac:(lia)). subst l.
        destruct (Z.ltb_spec now (expiry last)); [| lia].
        unfold ACTIVITY_REFRESH_THRESHOLD.
        destruct (Z.ltb_spec (30 * 60 * 1000) (now - last)); [lia |].
        cbn [kept]. auto.
      * destruct (Z.ltb_spec now E0) as [HE | HE]; cbn [andb kept]; [| lia].
        specialize (Hl ltac:(lia)). subst l.
        destruct (Z.ltb_spec now (expiry last)); [| lia].
        cbn [kept]. auto.
Qed.

(** The last activity of a run that keeps pace is not before the one it
    starts from. *)
Lemma pace_last (events : list (SessionEvent * Z)) :
  forall clock last clock' last',
    pace clock last events = Some (clock', last') -> last <= clock -> last <= last'.
Proof.
  induction events as [| [e now] events IH]; intros clock last clock' last' Hpace Hle.
  - cbn [pace] in Hpace. injection Hpace as <- <-. lia.
  - cbn [pace] in Hpace.
    destruct ((clock <=? now) && (now <=? last + ACTIVITY_REFRESH_THRESHOLD)) eqn:Hgap;
      [| discriminate].
    apply andb_prop in Hgap. destruct Hgap as [Hclock _]. apply Z.leb_le in Hclock.
    destruct e; (etransitivity; [| eapply IH; [exact Hpace | lia]]); lia.
Qed.

(** X10: a page left open after a login at [t0] with a plain token, with
    user activity, session checks and reads of the token in the order of the
    clock, each at most thirty minutes after the last activity or check: the
    token cookie is never written anew. [getAuthToken] returns the token,
    without the white space around it, at every time from the last event on
    that is before the expiry of the login's cookie, and returns null from
    that expiry on, two days after the login whatever the activity; it
    returns null at every time when nothing is left of the token. *)
Theorem session_ends_two_days_after_login
    (st : Store) (token : string) (t0 : Z) (events : list (SessionEvent * Z))
    (clock last t : Z) :
  well_formed_store st -> named_store st -> plain_value token = true -> 0 < t0 ->
  pace t0 t0 events = Some (clock, last) ->
  let b := session_run events (setAuthToken token t0 (Some st)) in
  let E := toUTCString_time (t0 + maxInactivity) in
  (E <= t \/ strip_wsp token = "" -> snd (getAuthToken_at t b) = None) /\
  (clock <= t -> t < E -> strip_wsp token <> "" ->
   getAuthToken_at t b = (b, Some (strip_wsp token))).
Proof.
  intros Hwf _ Hplain Ht0 Hpace b E.
  pose proof (plain_value_no_semicolon token Hplain) as Hsemi.
  pose proof (pace_after_epoch events t0 t0 _ Ht0 Hpace) as Hpos.
  subst b. rewrite setAuthToken_store.
  destruct (String.eqb_spec (strip_wsp token) "") as [Hempty | Hkept].
  { assert (Hx : "x" <> "") by discriminate.
    destruct (session_run_signed_out "x" events Hx _
                (related_login_empty token "x" t0 st Hsemi ltac:(lia) Hwf Hempty))
      as (st' & Hrun & Hrel').
    rewrite Hrun, (related_getAuthToken "x" _ _ t Hx Hrel').
    split; [reflexivity | congruence]. }
  pose proof (related_login token t0 st Hsemi Ht0 Hwf) as Hrel.
  destruct (session_run_related _ events Hkept (mentions_strip_wsp ";" token Hsemi)
              (strip_wsp_idem token) Hpos _ _ Hrel) as (st' & Hrun & Hrel').
  assert (Hkeeps : kept E clock last (session_of (SignedIn (expiry t0) t0) events)).
  { apply (pace_kept E events t0 t0); [exact Hpace |]. cbn [kept]. auto. }
  pose proof (pace_last events t0 t0 clock last Hpace ltac:(lia)) as Hlast.
  rewrite Hrun, (related_getAuthToken _ _ _ t Hkept Hrel').
  destruct (session_of (SignedIn (expiry t0) t0) events) as [| E' l];
    cbn [kept session_valid] in *.
  - split; [reflexivity | lia].
  - destruct Hkeeps as [-> Hl]. split.
    + intros [Ht | Hempty]; [| congruence]. now destruct (Z.ltb_spec t E); [lia |].
    + intros Hclock HE _. specialize (Hl ltac:(lia)). subst l.
      pose proof (expiry_mono t0 last Hlast) as Hmono.
      assert (E = expiry t0) as HE0 by reflexivity.
      destruct (Z.ltb_spec t E); [| lia].
      now destruct (Z.ltb_spec t (expiry last)); [| lia].
Qed.

Definition open_page : list (SessionEvent * Z) :=
  [(UserActivity, 1700000600000); (SessionCheck, 1700000900000);
   (ReadToken, 1700001000000)].

Lemma session_ends_two_days_after_login_witness :
  snd (getAuthToken_at 1700172800000
         (session_run open_page (setAuthToken "abc" 1700000000000 (Some []))))
  = None.
Proof.
  assert (Hwf : well_formed_store []) by (split; constructor).
  destruct (session_ends_two_days_after_login [] "abc" 1700000000000 open_page
              1700001000000 1700000900000 1700172800000 Hwf ltac:(constructor) eq_refl
              ltac:(lia) eq_refl) as [Hend _].
  apply Hend. left. vm_compute. discriminate.
Defined.

(** *** The clock only *)

Fixpoint in_order (clock : Z) (events : list (SessionEvent * Z)) : bool :=
  match events with
  | [] => true
  | (_, now) :: rest => (clock <=? now) && in_order now rest
  end.

Definition last_time (clock : Z) (events : list (SessionEvent * Z)) : Z :=
  List.last (map snd events) clock.

Lemma last_default {A : Type} (l : list A) :
  forall x d d', List.last (x :: l) d = List.last (x :: l) d'.
Proof.
  induction l as [| y l IH]; intros x d d'; [reflexivity |].
  change (List.last (y :: l) d = List.last (y :: l) d'). apply IH.
Qed.

Lemma last_time_cons (clock : Z) (e : SessionEvent) (now : Z)
    (events : list (SessionEvent * Z)) :
  last_time clock ((e, now) :: events) = last_time now events.
Proof.
  unfold last_time. cbn [map snd].
  destruct (map snd events) as [| x times]; [reflexivity |].
  change (List.last (x :: times) clock = List.last (x :: times) now).
  apply last_default.
Qed.

Lemma in_order_after_epoch (events : list (SessionEvent * Z)) :
  forall clock, 0 < clock -> in_order clock events = true -> after_epoch events.
Proof.
  induction events as [| [e now] events IH]; intros clock Hclock Horder.
  - constructor.
  - cbn [in_order] in Horder. apply andb_prop in Horder. destruct Horder as [Hle Hrest].
    apply Z.leb_le in Hle. constructor; [cbn [snd]; lia |].
    apply (IH now); [lia | exact Hrest].
Qed.

(** The token cookie never outlives the last activity written. *)
Definition covered (clock : Z) (s : Session) : Prop :=
  match s with
  | SignedOut => True
  | SignedIn E last => E <= expiry last /\ last <= clock
  end.

Lemma in_order_covered (events : list (SessionEvent * Z)) :
  forall clock s,
    in_order clock events = true -> covered clock s ->
    covered (last_time clock events) (session_of s events).
Proof.
  induction events as [| [e now] events IH]; intros clock s Horder Hcov.
  - exact Hcov.
  - cbn [in_order] in Horder. apply andb_prop in Horder. destruct Horder as [Hle Hrest].
    apply Z.leb_le in Hle.
    rewrite last_time_cons. unfold session_of. cbn [fold_left]. apply (IH _ _ Hrest). clear IH Hrest.
    destruct s as [| E last]; [exact I |].
    destruct Hcov as [HE Hclock].
    pose proof (expiry_mono last now ltac:(lia)) as Hmono.
    destruct e; cbn [session_after].
    + destruct (now <? E); cbn [covered]; lia.
    + destruct (session_valid now (SignedIn E last)); [| exact I].
      destruct (ACTIVITY_REFRESH_THRESHOLD <? now - last); cbn [covered]; lia.
    + destruct (session_valid now (SignedIn E last)); [| exact I].
      cbn [covered]; lia.
Qed.





End SessionFacts.

(** ** The middleware and the session of the page *)

Module MiddlewareFacts.
Import Js Cookies Middleware JsFacts CookiesFacts.

(** No value of the jar holds a percent sign, so that there is nothing for
    the framework to decode. *)
Definition no_escapes (jar : Jar) : Prop :=
  Forall (fun c => mentions "%" (snd c) = false) jar.

Section Framework.

Variable decodeURIComponent : string -> option string.

(** A string without a percent sign is decoded to itself. *)
Hypothesis decode_plain :
  forall v, mentions "%" v = false -> decodeURIComponent v = Some v.

Lemma find_absent (name : string) (jar : Jar) :
  ~ In name (map fst jar) -> List.find (fun c => String.eqb (fst c) name) jar = None.
Proof.
  induction jar as [| c jar IH]; [reflexivity |].
  cbn [map In List.find]. intros Hout.
  destruct (String.eqb_spec (fst c) name) as [Heq | _]; [tauto |].
  apply IH. tauto.
Qed.

(** With nothing to decode and no name repeated, the framework hands back
    the value that stands in the jar. *)
Lemma parseCookie_lookup (name : string) (jar : Jar) :
  List.NoDup (map fst jar) -> no_escapes jar ->
  forall cookies,
    parseCookie decodeURIComponent jar cookies !! name =
    match List.find (fun c => String.eqb (fst c) name) jar with
    | Some c => Some (snd c)
    | None => cookies !! name
    end.
Proof.
  induction jar as [| c jar IH]; intros Hnodup Hplain cookies; [reflexivity |].
  inversion Hnodup as [| ? ? Hout Hrest]; subst.
  inversion Hplain as [| ? ? Hc Hplain']; subst.
  cbn [parseCookie List.find]. rewrite (decode_plain _ Hc).
  rewrite (IH Hrest Hplain').
  destruct (String.eqb_spec (fst c) name) as [Heq | Hne].
  - subst name. rewrite (find_absent _ _ Hout). apply lookup_insert_eq.
  - destruct (List.find (fun c0 => String.eqb (fst c0) name) jar); [reflexivity |].
    now apply lookup_insert_ne.
Qed.

Lemma truthy_getCookie (name : string) (jar : Jar) :
  simple_name name -> well_formed jar -> no_escapes jar ->
  getCookie name (Some jar)
  = if truthy (cookies_get decodeURIComponent name jar)
    then cookies_get decodeURIComponent name jar else None.
Proof.
  intros Hname Hjar Hplain. rewrite (getCookie_lookup name jar Hname Hjar).
  unfold cookies_get. rewrite (parseCookie_lookup name jar (proj2 Hjar) Hplain).
  destruct (List.find (fun c => String.eqb (fst c) name) jar) as [c |]; [| reflexivity].
  cbn [truthy]. now destruct (String.eqb (snd c) "").
Qed.

(** X14: on the cookies a browser sends, each with a name, no name
    repeated and no percent sign in a value, so that the framework decodes
    every value to itself, and on a clock that reads at least two days past
    its origin, the middleware's session test and the [isSessionValid] of
    the page give the same answer. *)
Theorem sessionValid_agrees_with_page
    (jar : Jar) (path : string) (redirect_param : option string) (now : Z) :
  well_formed jar -> named jar -> no_escapes jar -> maxInactivity <= now ->
  sessionValid (request_with decodeURIComponent jar path redirect_param) now
  = isSessionValid (Some jar) now.
Proof.
  intros Hjar _ Hplain Hnow. unfold sessionValid, isSessionValid, getLastActivity.
  cbn [request_with cookies_token cookies_lastActivity].
  rewrite (truthy_getCookie "token" jar) by (assumption || (split; reflexivity)).
  rewrite (truthy_getCookie "lastActivity" jar) by (assumption || (split; reflexivity)).
  destruct (truthy (cookies_get decodeURIComponent "token" jar)) eqn:Htoken;
    cbn [negb orb].
  - destruct (cookies_get decodeURIComponent "token" jar) as [tok |]; [| discriminate].
    destruct (truthy (cookies_get decodeURIComponent "lastActivity" jar)) eqn:Hactivity;
      cbn [negb].
    + destruct (cookies_get decodeURIComponent "lastActivity" jar) as [ts |];
        [| discriminate].
      destruct (parseInt ts 0) as [l |]; [| reflexivity].
      destruct (Z.eqb_spec l 0) as [-> | _]; [| reflexivity].
      apply Z.ltb_ge. rewrite maxInactivity_value in Hnow. lia.
    + reflexivity.
  - reflexivity.
Qed.

End Framework.

(** A decoder that refuses every string with a percent sign. *)
Definition decode_nothing (v : string) : option string :=
  if mentions "%" v then None else Some v.

Lemma sessionValid_agrees_with_page_witness :
  sessionValid
    (request_with decode_nothing
       [("token", "abc"); ("lastActivity", "1700000000000")] "/chat/k3" None)
    1700000060000
  = isSessionValid (Some [("token", "abc"); ("lastActivity", "1700000000000")])
      1700000060000.
Proof.
  apply sessionValid_agrees_with_page.
  - intros v Hv. unfold decode_nothing. now rewrite Hv.
  - split.
    + repeat constructor.
    + repeat constructor; cbn; intuition discriminate.
  - repeat constructor; discriminate.
  - repeat constructor.
  - vm_compute. discriminate.
Defined.


End MiddlewareFacts.

(** ** The settings page: the state the add-server form is left in *)

Module SettingsPageFacts.
Import Js Cookies Settings SettingsCards JsFacts SettingsFacts.

Definition form (s : PageState) : string * string * string * string :=
  (mcpServerName s, mcpServerType s, mcpServerDescription s, mcpServerUrl s).

Lemma getAuthToken_token (doc doc1 : Document) (now : Z) (tok : string) :
  getAuthToken doc now = (doc1, Some tok) ->
  doc1 = doc /\ getCookie "token" doc = Some tok.
Proof.
  unfold getAuthToken. destruct (isSessionValid doc now); cbn [negb]; [| discriminate].
  intros [= <- Htok]. auto.
Qed.

Lemma or_else_not_empty (a b : string) : b <> "" -> or_else a b <> "".
Proof.
  intros Hb. unfold or_else. destruct (String.eqb_spec a ""); assumption.
Qed.

Lemma fetchMcpServers_form (env : Env) (doc : Document) (s : PageState) :
  form (state_of (fetchMcpServers env doc s)) = form s /\
  mcpServerLoading (state_of (fetchMcpServers env doc s)) = mcpServerLoading s /\
  forall tok, In (GetMcpServers tok) (requests_of (fetchMcpServers env doc s)) ->
              getCookie "token" doc = Some tok.
Proof.
  unfold fetchMcpServers.
  destruct (getAuthToken doc (now_refresh env)) as [doc1 [tok |]] eqn:Hauth.
  - apply getAuthToken_token in Hauth. destruct Hauth as [_ Htok].
    destruct (list_outcome env) as [| | | [data |]]; unfold state_of, requests_of;
      cbn [fst snd]; (split; [reflexivity |]); (split; [reflexivity |]);
      intros tok' [[= <-] | []]; exact Htok.
  - unfold state_of, requests_of. cbn [fst snd]. repeat split. intros tok' [].
Qed.

(** X13: the state [handleAddMcpServer] leaves the page in. The submit
    flag stays set exactly when no token was found; when a run sends both
    the create request and the list request they carry the same token; a
    run that sends no request leaves the entered fields and the list as they
    were; after the create request the fields are emptied if the server was
    created, and otherwise fields and list are kept and the error message is
    not empty. *)
Theorem handleAddMcpServer_result (env : Env) (doc : Document) (s : PageState) :
  let r := handleAddMcpServer env doc s in
  (mcpServerLoading (state_of r) = true <->
     snd (getAuthToken doc (now_submit env)) = None) /\
  (forall tok tok' body,
     In (PostMcpServer tok body) (requests_of r) ->
     In (GetMcpServers tok') (requests_of r) -> tok' = tok) /\
  (requests_of r = [] ->
     form (state_of r) = form s /\ mcpServers (state_of r) = mcpServers s) /\
  (requests_of r <> [] ->
     match post_outcome env with
     | PostCreated => form (state_of r) = ("", "", "", "")
     | _ =>
         form (state_of r) = form s /\ mcpServers (state_of r) = mcpServers s /\
         error (state_of r) <> ""
     end).
Proof.
  intros r. subst r. unfold handleAddMcpServer.
  destruct (getAuthToken doc (now_submit env)) as [doc1 [tok |]] eqn:Hauth; cbn [snd].
  2: { unfold state_of, requests_of. cbn [fst snd]. repeat split; easy. }
  apply getAuthToken_token in Hauth. destruct Hauth as [-> Htok].
  destruct (_ && _).
  { unfold state_of, requests_of. cbn [fst snd]. repeat split; easy. }
  set (s1 := setError "" (setMcpServerLoading true s)).
  assert (Hfailed : forall message,
    let r := (doc, setMcpServerLoading false
                     (setError (or_else message "Could not add MCP server.") s1),
              [PostMcpServer tok (payload s1)]) in
    (mcpServerLoading (state_of r) = true <-> Some tok = None) /\
    (forall tok0 tok' body,
       In (PostMcpServer tok0 body) (requests_of r) ->
       In (GetMcpServers tok') (requests_of r) -> tok' = tok0) /\
    (requests_of r = [] ->
       form (state_of r) = form s /\ mcpServers (state_of r) = mcpServers s) /\
    form (state_of r) = form s /\ mcpServers (state_of r) = mcpServers s /\
    error (state_of r) <> "").
  { intros message r. subst r. unfold state_of, requests_of. cbn [fst snd].
    split; [split; discriminate |]. split.
    - intros tok0 tok' body _ [H | []]. discriminate H.
    - split; [discriminate |]. split; [reflexivity |]. split; [reflexivity |].
      cbn [error setMcpServerLoading setError]. now apply or_else_not_empty. }
  destruct (post_outcome env) as [message | detail | message |].
  - destruct (Hfailed message) as (H1 & H2 & H3 & H4). auto.
  - destruct (Hfailed (or_else detail "Failed to add MCP server")) as (H1 & H2 & H3 & H4).
    auto.
  - destruct (Hfailed message) as (H1 & H2 & H3 & H4). auto.
  - clear Hfailed.
    destruct (fetchMcpServers_form env doc s1) as (Hform & Hflag & Htokens).
    pose proof (fetchMcpServers_requests env doc s1) as Hno.
    destruct (fetchMcpServers env doc s1) as [[doc2 s2] requests].
    unfold state_of, requests_of in *. cbn [fst snd] in *.
    split; [split; discriminate |]. split; [| split; [discriminate | reflexivity]].
    intros tok0 tok' body [Hpost | Hin] [Hbad | Hget]; try discriminate Hbad.
    + injection Hpost as <- _. specialize (Htokens _ Hget). congruence.
    + exfalso. exact (Hno _ _ Hin).
Qed.

(** The label of a type among the options of the form; the type itself when
    it is none of them. *)
Definition label_of (type : string) : string :=
  match List.find (fun t => String.eqb (opt_value t) type) MCP_SERVER_TYPES with
  | Some t => opt_label t
  | None => type
  end.

(** X17: the card of a server that carries the config sent by the form.
    For a type picked among the options, the card shows the label of that
    option, except that a server added as a Pipedream workflow is shown as
    Custom URI; no such card is ever labelled Pipedream Workflow. *)
Theorem type_badge_of_payload (s : PageState) (server : MCPServer) :
  In (mcpServerType s) selectable_types ->
  srv_config server = pl_config (payload s) ->
  type_badge server =
    (if String.eqb (mcpServerType s) "pipedream" then "Custom URI"
     else label_of (mcpServerType s)) /\
  type_badge server <> "Pipedream Workflow".
Proof.
  intros Htype Hconfig. unfold type_badge. rewrite Hconfig.
  cbn [payload pl_config cfg_type].
  cbn [selectable_types MCP_SERVER_TYPES map opt_value In] in Htype.
  destruct Htype as [<- | [<- | [<- | [<- | [<- | []]]]]];
    split; (reflexivity || (vm_compute; discriminate)).
Qed.

Lemma type_badge_of_payload_witness :
  type_badge
    {| srv_id := 1; srv_name := "Mail"; srv_description := None;
       srv_config :=
         pl_config (payload (pipedream_form "https://mcp.pipedream.net/w/gmail"));
       srv_createdAt := "2024-01-01" |}
  = "Custom URI".
Proof.
  apply (type_badge_of_payload
           (pipedream_form "https://mcp.pipedream.net/w/gmail")).
  - cbn. auto.
  - reflexivity.
Defined.

End SettingsPageFacts.
